(** * Checkpoint lifecycle and variable remapping of mesh_tensorflow/transformer/utils.py

    A shallow embedding of the checkpoint-resolution and variable-name
    remapping functions of [utils.py], and the properties stated about them;
    then of its batch-size, text-encoding, decoding and mesh-shape functions.

    - Python [str] values are lists of characters.  Variable names and
      checkpoint file names are ASCII in TensorFlow, so [\d] is the class
      ['0'..'9'] and [.] is every character but the line feed.
    - Python [int] values are unbounded and are [Z].
    - An exception is a value of [exn]; a function that may raise returns a
      [result].
    - A [dict] is the list of its items in insertion order.
    - The file system is read through a record of functions ([storage]);
      the order in which a [set] of ints is iterated is a parameter
      ([set_iter]) of which the statements assume only that it lists the
      distinct elements.
    - An iterable is given by the paths it yields when it is drained and by
      the way it ends.
    - Functions of other modules (the vocabulary, [np.array], the layout
      functions of [mesh_tensorflow/ops.py], [tf.io.gfile]) are parameters;
      a tensor of rank one is the list of its elements. *)

From Stdlib Require Import List ZArith Lia Bool Ascii String.
From Stdlib Require Import DecimalString.
From Stdlib Require Decimal DecimalPos.
From Stdlib Require Import Sorting.Sorted Sorting.Permutation.
Import ListNotations.

Open Scope Z_scope.
Open Scope list_scope.

Set Implicit Arguments.

(** ** Python strings *)

Module PyStr.

Definition str := list ascii.

(** A string literal. *)
Definition lit (s : string) : str := list_ascii_of_string s.

Definition eqb_str (a b : str) : bool :=
  if list_eq_dec ascii_dec a b then true else false.

(** [s.startswith(p)] *)
Fixpoint startswith (p s : str) : bool :=
  match p, s with
  | [], _ => true
  | _ :: _, [] => false
  | a :: p', b :: s' => Ascii.eqb a b && startswith p' s'
  end.

(** [sub in s] *)
Fixpoint contains (sub s : str) : bool :=
  startswith sub s ||
  match s with
  | [] => false
  | _ :: s' => contains sub s'
  end.

(** [s.split(sep)] for a non-empty [sep] (the source splits on ["/"] and
    [".*"] only).  [skip] counts the characters of a separator that was
    recognised and is still to be passed over; [cur] is the piece being
    read, reversed. *)
Fixpoint split_go (sep : str) (skip : nat) (cur : str) (s : str) : list str :=
  match s with
  | [] => [List.rev cur]
  | c :: s' =>
      match skip with
      | S k => split_go sep k cur s'
      | O =>
          if startswith sep s
          then List.rev cur :: split_go sep (Nat.pred (List.length sep)) [] s'
          else split_go sep O (c :: cur) s'
      end
  end.

Definition split (sep s : str) : list str := split_go sep O [] s.

(** [s.replace(old, new)]: every non-overlapping occurrence, leftmost first.
    With an empty [old], Python puts [new] before every character and at
    the end. *)
Fixpoint replace_go (old new : str) (skip : nat) (s : str) : str :=
  match s with
  | [] => []
  | c :: s' =>
      match skip with
      | S k => replace_go old new k s'
      | O =>
          if startswith old s
          then new ++ replace_go old new (Nat.pred (List.length old)) s'
          else c :: replace_go old new O s'
      end
  end.

Fixpoint intersperse_before (new s : str) : str :=
  match s with
  | [] => new
  | c :: s' => new ++ c :: intersperse_before new s'
  end.

Definition replace (old new s : str) : str :=
  match old with
  | [] => intersperse_before new s
  | _ :: _ => replace_go old new O s
  end.

(** [os.path.join(a, b)] of posixpath, for two components. *)
Definition path_join (a b : str) : str :=
  if startswith (lit "/") b then b
  else match a with
       | [] => b
       | _ :: _ =>
           if Ascii.eqb (last a "/"%char) "/"%char then a ++ b
           else a ++ lit "/" ++ b
       end.

Definition is_digit (c : ascii) : bool :=
  let n := nat_of_ascii c in (48 <=? n)%nat && (n <=? 57)%nat.

(** [int(s)] on a string of decimal digits; any other string raises
    ValueError, here [None].  (Python also accepts signs, blanks and
    underscores; every call site passes a [\d] capture.) *)
Definition digit_val (c : ascii) : Z := Z.of_nat (nat_of_ascii c) - 48.

Definition int_of_digits (s : str) : Z :=
  fold_left (fun acc c => 10 * acc + digit_val c) s 0.

Definition py_int (s : str) : option Z :=
  match s with
  | [] => None
  | _ :: _ => if forallb is_digit s then Some (int_of_digits s) else None
  end.

(** ["{}".format(n)] for an int. *)
Definition format_d (n : Z) : str :=
  lit (NilZero.string_of_int (Z.to_int n)).

(** ["{:0=3d}".format(n)]: width 3, zeros between the sign and the digits. *)
Definition zfill (width : nat) (s : str) : str :=
  repeat "0"%char (width - List.length s) ++ s.

Definition format_03d (n : Z) : str :=
  if n <? 0 then "-"%char :: zfill 2 (format_d (- n))
  else zfill 3 (format_d n).

End PyStr.
Import PyStr.

(** ** The fragment of Python's [re] module that utils.py uses

    A backtracking matcher in continuation-passing style.  Alternatives are
    tried in the order of [re]: a greedy repetition first takes as many
    characters as it can and gives them back one at a time. *)

Module Re.

Inductive cclass :=
| CChar (c : ascii)   (* a literal character, also an escaped one: [\.] [\-] *)
| CDot                (* [.]: any character except the line feed *)
| CDigit.             (* [\d] *)

Definition newline : ascii := ascii_of_nat 10.

Definition cmatch (k : cclass) (x : ascii) : bool :=
  match k with
  | CChar c => Ascii.eqb c x
  | CDot => negb (Ascii.eqb x newline)
  | CDigit => is_digit x
  end.

Inductive regex :=
| Eps
| Atom (k : cclass)
| Star (k : cclass)            (* [k*], greedy *)
| Plus (k : cclass)            (* [k+], greedy *)
| Rep (n : nat) (k : cclass)   (* [k{n}] *)
| Group (r : regex)            (* [( r )], a capture group *)
| Seq (r1 r2 : regex).

(** A literal string as a pattern. *)
Fixpoint lits (s : str) : regex :=
  match s with
  | [] => Eps
  | c :: s' => Seq (Atom (CChar c)) (lits s')
  end.

Section Run.
Variable A : Type.

Fixpoint star_greedy (p : ascii -> bool) (k : str -> option A) (s : str)
  : option A :=
  match s with
  | c :: s' =>
      if p c then
        match star_greedy p k s' with
        | Some r => Some r
        | None => k s
        end
      else k s
  | [] => k s
  end.

Fixpoint rep (p : ascii -> bool) (n : nat) (k : str -> option A) (s : str)
  : option A :=
  match n with
  | O => k s
  | S n' =>
      match s with
      | c :: s' => if p c then rep p n' k s' else None
      | [] => None
      end
  end.

(** [run r s caps k]: match [r] at the head of [s]; [caps] are the groups
    closed so far; [k] receives the rest of the subject and the groups. *)
Fixpoint run (r : regex) (s : str) (caps : list str)
  (k : str -> list str -> option A) : option A :=
  match r with
  | Eps => k s caps
  | Atom c =>
      match s with
      | x :: s' => if cmatch c x then k s' caps else None
      | [] => None
      end
  | Star c => star_greedy (cmatch c) (fun s' => k s' caps) s
  | Plus c =>
      match s with
      | x :: s' =>
          if cmatch c x
          then star_greedy (cmatch c) (fun s' => k s' caps) s'
          else None
      | [] => None
      end
  | Rep n c => rep (cmatch c) n (fun s' => k s' caps) s
  | Group r' =>
      run r' s caps
        (fun s' caps' =>
           k s' (caps' ++ [firstn (List.length s - List.length s') s]))
  | Seq r1 r2 => run r1 s caps (fun s' caps' => run r2 s' caps' k)
  end.

End Run.

(** A match object: the number of characters matched and the groups. *)
Record match_obj := { m_len : nat; m_groups : list str }.

(** [re.match(r, s)]: a match at the start of [s]. *)
Definition re_match (r : regex) (s : str) : option match_obj :=
  run r s []
    (fun rest caps =>
       Some {| m_len := List.length s - List.length rest; m_groups := caps |}).

(** [m.group(1)] *)
Definition group1 (m : match_obj) : str := nth 0 (m_groups m) [].

(** [re.findall(r, s)] for a pattern with one group: the group of every
    match, scanning from the left; the search resumes where a match ended.
    [skip] counts the characters of the last match still to be passed. *)
Fixpoint findall_go (r : regex) (skip : nat) (s : str) : list str :=
  match skip with
  | S k =>
      match s with
      | [] => []
      | _ :: s' => findall_go r k s'
      end
  | O =>
      match re_match r s with
      | Some m =>
          group1 m ::
          match s with
          | [] => []
          | _ :: s' => findall_go r (Nat.pred (m_len m)) s'
          end
      | None =>
          match s with
          | [] => []
          | _ :: s' => findall_go r O s'
          end
      end
  end.

Definition findall (r : regex) (s : str) : list str := findall_go r O s.

(** Compiling a pattern string.  The patterns that utils.py builds at run
    time ([build_regex]) consist of literal characters and [.*]; a pattern
    with any other metacharacter is outside the fragment ([None]). *)
Definition is_meta (c : ascii) : bool :=
  existsb (Ascii.eqb c) (lit "^$*+?{}[]\|()").

Fixpoint compile (p : str) : option regex :=
  match p with
  | [] => Some Eps
  | c :: p' =>
      if is_meta c then None
      else
        let k := if Ascii.eqb c "."%char then CDot else CChar c in
        match p' with
        | "*"%char :: p'' => option_map (Seq (Star k)) (compile p'')
        | _ => option_map (Seq (Atom k)) (compile p')
        end
  end.

(** [re.match(p, s)] as a truth value, for a pattern given as a string. *)
Definition re_match_str (p s : str) : bool :=
  match compile p with
  | Some r => match re_match r s with Some _ => true | None => false end
  | None => false
  end.

End Re.
Import Re.

(** ** Exceptions, dictionaries and other Python values *)

Inductive exn :=
| InvalidCheckpointPath (path : str)
    (* ValueError("Invalid checkpoint path {}") *)
| NoCheckpointFilesFound
    (* ValueError("No checkpoint files found in {}"): CheckpointNotFound *)
| NoCheckpointsWereFound
    (* ValueError("You asked for checkpoints '%s' but none were found."):
       CheckpointNotFound *)
| InvalidCheckpointToLoad
    (* ValueError("Invalid checkpoint to load. Number of variables ...") *)
| InvalidLiteralForInt     (* ValueError of int() *)
| UnpackError              (* ValueError of a tuple assignment *)
| IndexError
| KeyError (key : str).

Inductive result (A : Type) :=
| Ok (a : A)
| Raise (e : exn).
Arguments Ok {A} a.
Arguments Raise {A} e.

Definition bind {A B : Type} (x : result A) (f : A -> result B) : result B :=
  match x with
  | Ok a => f a
  | Raise e => Raise e
  end.

Notation "'do' x <- e ; k" := (bind e (fun x => k))
  (at level 10, x name, e at level 100, k at level 200).

Definition StructuralMismatch := InvalidCheckpointToLoad.

(** A Python [dict] with string keys: the items in insertion order.
    [d[k] = v] overwrites the value of a key that is present and keeps its
    place, and appends a new key. *)
Definition dict := list (str * str).

Fixpoint dict_set (k v : str) (d : dict) : dict :=
  match d with
  | [] => [(k, v)]
  | (k', v') :: d' =>
      if eqb_str k' k then (k', v) :: d' else (k', v') :: dict_set k v d'
  end.

(** [k in d] *)
Definition dict_mem (k : str) (d : dict) : bool :=
  existsb (fun kv => eqb_str (fst kv) k) d.

(** [d[k]] *)
Fixpoint dict_get (k : str) (d : dict) : result str :=
  match d with
  | [] => Raise (KeyError k)
  | (k', v') :: d' => if eqb_str k' k then Ok v' else dict_get k d'
  end.

(** [range(n)] *)
Definition py_range (n : Z) : list Z := map Z.of_nat (seq 0 (Z.to_nat n)).

(** [x in l] for a list of ints *)
Definition mem_Z (x : Z) (l : list Z) : bool := existsb (Z.eqb x) l.

(** [max(l)]; the default stands for the ValueError on an empty list. *)
Definition py_max (l : list Z) (on_empty : Z) : Z :=
  match l with
  | [] => on_empty
  | x :: t => fold_left Z.max t x
  end.

(** [sorted(l)] on ints. *)
Fixpoint insert_sorted (x : Z) (l : list Z) : list Z :=
  match l with
  | [] => [x]
  | y :: t => if x <=? y then x :: l else y :: insert_sorted x t
  end.

Definition py_sorted (l : list Z) : list Z := fold_right insert_sorted [] l.

(** [np.unique(l)]: the distinct values, ascending. *)
Definition np_unique (l : list Z) : list Z := py_sorted (nodup Z.eq_dec l).

(** ** utils.py *)

(** *** _build_ckpt_to_local_var_name_mapping *)

Section BuildMapping.

Variables (ckpt_num_blocks : option Z) (ckpt_num_layers : Z).
Variables (local_num_blocks : option Z) (local_num_layers : Z).
Variable new_layers : option (list Z).
Variable regex_prefix : option str.

Definition build_regex (layer_num block_num : Z) (num_blocks : option Z) : str :=
  let base_regex := lit "layer_" ++ format_03d layer_num in
  let base_regex :=
    match num_blocks with
    | Some _ => lit "block_" ++ format_03d block_num ++ lit "/" ++ base_regex
    | None => base_regex
    end in
  match regex_prefix with
  | Some prefix => prefix ++ lit ".*" ++ base_regex
  | None => base_regex
  end.

(** [num_blocks or 1] *)
Definition or_1 (num_blocks : option Z) : Z :=
  match num_blocks with
  | None => 1
  | Some n => if n =? 0 then 1 else n
  end.

(** The loop over the checkpoint's blocks and layers. *)
Definition all_ckpt_name_regexes : list str :=
  flat_map (fun block_num =>
    map (fun layer_num => build_regex layer_num block_num ckpt_num_blocks)
      (py_range ckpt_num_layers))
    (py_range (or_1 ckpt_num_blocks)).

(** [(new_layers is not None) and (layer_num in new_layers)] *)
Definition is_new_layer (layer_num : Z) : bool :=
  match new_layers with
  | Some l => mem_Z layer_num l
  | None => false
  end.

(** The loop over the current model's blocks and layers, which skips the
    new layers. *)
Definition all_local_name_regexes : list str :=
  flat_map (fun block_num =>
    flat_map (fun layer_num =>
      if is_new_layer layer_num then []
      else [build_regex layer_num block_num local_num_blocks])
      (py_range local_num_layers))
    (py_range (or_1 local_num_blocks)).

Definition _build_ckpt_to_local_var_name_mapping : result dict :=
  if negb (List.length all_ckpt_name_regexes =? List.length all_local_name_regexes)%nat
  then Raise InvalidCheckpointToLoad
  else
    Ok (fold_left
          (fun d kv => dict_set (fst kv) (snd kv) d)
          (combine all_ckpt_name_regexes all_local_name_regexes)
          []).

End BuildMapping.

(** *** _match_ckpt_to_local_var_name

    [re_match] stands for [re.match] on a pattern string, taken as a truth
    value. *)

Section Matcher.

Variable re_match : str -> str -> bool.

(** [regex.split(".*")[1]] when [".*" in regex], else [regex]. *)
Definition after_wildcard (regex : str) : str :=
  if contains (lit ".*") regex then nth 1 (split (lit ".*") regex) []
  else regex.

(** [name.split("/")[-1]] *)
Definition leaf_name (name : str) : str := last (split (lit "/") name) [].

(** The loop over [ckpt_var_name_to_local_var_name.items()]. *)
Fixpoint match_items (ckpt_var_name local_var_name : str) (items : dict) : bool :=
  match items with
  | [] => false
  | (ckpt_regex, var_regex) :: rest =>
      if re_match ckpt_regex ckpt_var_name && re_match var_regex local_var_name
      then
        if eqb_str
             (replace (after_wildcard ckpt_regex) (after_wildcard var_regex)
                ckpt_var_name)
             local_var_name
        then true
        else match_items ckpt_var_name local_var_name rest
      else match_items ckpt_var_name local_var_name rest
  end.

Definition _match_ckpt_to_local_var_name
  (ckpt_var_name local_var_name : str)
  (ckpt_var_name_to_local_var_name : dict) : bool :=
  if negb (contains (lit "layer") ckpt_var_name)
     || negb (contains (lit "layer") local_var_name)
  then eqb_str ckpt_var_name local_var_name
  else if negb (eqb_str (leaf_name ckpt_var_name) (leaf_name local_var_name))
  then false
  else match_items ckpt_var_name local_var_name ckpt_var_name_to_local_var_name.

(** The three nested loops of flexible_ckpt_init_mapping that fill
    [graph_var_to_ckpt_var]. *)
Definition build_graph_var_to_ckpt_var
  (ckpt_var_names local_var_names : list str) (mappings : list dict) : dict :=
  fold_left (fun d ckpt_var_name =>
    fold_left (fun d local_var_name =>
      fold_left (fun d mapping =>
        if _match_ckpt_to_local_var_name ckpt_var_name local_var_name mapping
        then dict_set local_var_name ckpt_var_name d
        else d)
        mappings d)
      local_var_names d)
    ckpt_var_names [].

End Matcher.

(** *** _compute_num_blocks_and_layer *)

(** [layer_(\d{3})], [block_(\d{3})] and the same after [encoder/.*] or
    [decoder/.*]. *)
Definition numbered (token : string) : regex :=
  Seq (lits (lit token)) (Group (Rep 3 CDigit)).

Definition numbered_under (prefix token : string) : regex :=
  Seq (lits (lit prefix)) (Seq (Star CDot) (numbered token)).

(** [re.match(r"^encoder/", var_name)]: [^] holds where [re.match] starts. *)
Definition encoder_regex : regex := lits (lit "encoder/").

Definition get_max_layer_or_block_num (regex : regex) (var_names : list str) : Z :=
  let matched_nums := map (findall regex) var_names in
  py_max (map (fun num => int_of_digits num + 1) (List.concat matched_nums) ++ [-1]) (-1).

(** [any([re.match(r"^encoder/", var_name) for var_name in var_names])] *)
Definition encoder_decoder_model (var_names : list str) : bool :=
  existsb (fun var_name =>
             match Re.re_match encoder_regex var_name with
             | Some _ => true
             | None => false
             end) var_names.

Definition _compute_num_blocks_and_layer (var_names : list str)
  : list (option Z) * list Z :=
  let '(max_block_num, max_layer_num) :=
    if encoder_decoder_model var_names then
      let enc_max_layer_num :=
        get_max_layer_or_block_num (numbered_under "encoder/" "layer_") var_names in
      let enc_max_block_num :=
        get_max_layer_or_block_num (numbered_under "encoder/" "block_") var_names in
      let dec_max_layer_num :=
        get_max_layer_or_block_num (numbered_under "decoder/" "layer_") var_names in
      let dec_max_block_num :=
        get_max_layer_or_block_num (numbered_under "decoder/" "block_") var_names in
      ([enc_max_block_num; dec_max_block_num],
       [enc_max_layer_num; dec_max_layer_num])
    else
      ([get_max_layer_or_block_num (numbered "block_") var_names],
       [get_max_layer_or_block_num (numbered "layer_") var_names]) in
  (map (fun n => if negb (n =? -1) then Some n else None) max_block_num,
   max_layer_num).

(** *** flexible_ckpt_init_mapping

    [tf.train.list_variables(ckpt_path)] and [tf.global_variables()] are
    the two name lists.  The result is the dictionary that [mapping_fn] and
    [filter_fn] close over. *)

(** [l[i]] *)
Definition index {A : Type} (l : list A) (i : nat) : result A :=
  match nth_error l i with
  | Some a => Ok a
  | None => Raise IndexError
  end.

Definition flexible_ckpt_init_mapping
  (ckpt_var_names local_var_names : list str)
  (new_layers : option (list (list Z))) : result dict :=
  let '(ckpt_num_blocks, ckpt_num_layers) :=
    _compute_num_blocks_and_layer ckpt_var_names in
  let '(local_num_blocks, local_num_layers) :=
    _compute_num_blocks_and_layer local_var_names in
  do mappings <-
    (if (List.length ckpt_num_blocks =? 2)%nat then
       do new_enc_dec <-
         match new_layers with
         | None => Ok (None, None)
         | Some [e; d] => Ok (Some e, Some d)
         | Some _ => Raise UnpackError
         end;
       do cb0 <- index ckpt_num_blocks 0;
       do cl0 <- index ckpt_num_layers 0;
       do lb0 <- index local_num_blocks 0;
       do ll0 <- index local_num_layers 0;
       do enc_mapping <-
         _build_ckpt_to_local_var_name_mapping cb0 cl0 lb0 ll0
           (fst new_enc_dec) (Some (lit "encoder/"));
       do cb1 <- index ckpt_num_blocks 1;
       do cl1 <- index ckpt_num_layers 1;
       do lb1 <- index local_num_blocks 1;
       do ll1 <- index local_num_layers 1;
       do dec_mapping <-
         _build_ckpt_to_local_var_name_mapping cb1 cl1 lb1 ll1
           (snd new_enc_dec) (Some (lit "decoder/"));
       Ok [enc_mapping; dec_mapping]
     else
       do new_lm_layers <-
         match new_layers with
         | None => Ok None
         | Some l => do l0 <- index l 0; Ok (Some l0)
         end;
       do cb0 <- index ckpt_num_blocks 0;
       do cl0 <- index ckpt_num_layers 0;
       do lb0 <- index local_num_blocks 0;
       do ll0 <- index local_num_layers 0;
       do lm_mapping <-
         _build_ckpt_to_local_var_name_mapping cb0 cl0 lb0 ll0
           new_lm_layers None;
       Ok [lm_mapping]);
  Ok (build_graph_var_to_ckpt_var re_match_str
        ckpt_var_names local_var_names mappings).

(** [mapping_fn] and [filter_fn] *)
Definition mapping_fn (graph_var_to_ckpt_var : dict) (var_name : str) : result str :=
  dict_get var_name graph_var_to_ckpt_var.

Definition filter_fn (graph_var_to_ckpt_var : dict) (var_name : str) : bool :=
  dict_mem var_name graph_var_to_ckpt_var.

(** *** get_step_from_checkpoint_path *)

(** [.*model\.ckpt\-(\d+).*] *)
Definition checkpoint_path_regex : regex :=
  Seq (Star CDot)
    (Seq (lits (lit "model.ckpt-")) (Seq (Group (Plus CDigit)) (Star CDot))).

Definition get_step_from_checkpoint_path (checkpoint_path : str) : result Z :=
  match Re.re_match checkpoint_path_regex checkpoint_path with
  | None => Raise (InvalidCheckpointPath checkpoint_path)
  | Some m =>
      match py_int (group1 m) with
      | Some step => Ok step
      | None => Raise InvalidLiteralForInt
      end
  end.

(** *** get_checkpoint_iterator *)

(** What the function reads from outside: the directory listing, the glob,
    the existence test, the checkpoint manifest and the paths that
    [tf.train.checkpoints_iterator] has delivered so far. *)
Record storage := {
  listdir : str -> list str;
  glob : str -> list str;
  checkpoint_exists : str -> bool;
  latest_checkpoint : str -> option str;
  checkpoints_iterator : str -> list str
}.

(** How a drained iterable ends: it is exhausted, it raises, or it is still
    polling for the next checkpoint. *)
Inductive ending := Exhausted | Raised (e : exn) | Waiting.

(** The returned iterable: the paths it yields and how it ends, or the
    one-element list of the manifest's latest checkpoint (which is [None]
    when there is none). *)
Inductive checkpoints :=
| Paths (yielded : list str) (e : ending)
| Latest (p : option str).

(** The value of [checkpoint_step]; [SelInt (-1)] asks for the latest. *)
Inductive step_selector :=
| SelAll
| SelNone
| SelInt (step : Z)
| SelList (steps : list Z).

Section CheckpointIterator.

Variable st : storage.

(** The order in which a Python [set] of ints built from the given
    insertions is iterated. *)
Variable set_iter : list Z -> list Z.

Variables (model_dir : str) (skip_until : Z) (stop_after : option Z).
Variable find_closest : bool.

(** The [try]/[except ValueError: continue] loop over the directory. *)
Fixpoint scan_steps (files : list str) : list Z :=
  match files with
  | [] => []
  | f :: rest =>
      match get_step_from_checkpoint_path f with
      | Ok step => step :: scan_steps rest
      | Raise _ => scan_steps rest
      end
  end.

(** The loop that keeps the closest step; [None] is [float("inf")]. *)
Definition closer (target_checkpoint : Z) (closest : option Z) (c : Z) : option Z :=
  match closest with
  | None => Some c
  | Some cl =>
      if Z.abs (target_checkpoint - c) <? Z.abs (target_checkpoint - cl)
      then Some c else closest
  end.

Definition _get_closest_checkpoint (target_checkpoint : Z) : result Z :=
  let checkpoints := set_iter (scan_steps (listdir st model_dir)) in
  match checkpoints with
  | [] => Raise NoCheckpointFilesFound
  | _ :: _ =>
      match fold_left (closer target_checkpoint) checkpoints None with
      | Some closest => Ok closest
      | None => Raise InvalidLiteralForInt (* "%d" % inf; not reached *)
      end
  end.

Definition _get_checkpoint_path (step : Z) : str :=
  path_join model_dir (lit "model.ckpt-" ++ format_d step).

Definition _get_checkpoint_path_if_exists (step : Z) : option str :=
  let path := _get_checkpoint_path step in
  if checkpoint_exists st path then Some path else None.

Definition _filter_fn (p : str) : result bool :=
  do step <- get_step_from_checkpoint_path p;
  Ok (step >? skip_until).

(** Draining [filter(_filter_fn, l)]. *)
Fixpoint drain_filter (l : list str) : list str * ending :=
  match l with
  | [] => ([], Exhausted)
  | p :: rest =>
      match _filter_fn p with
      | Raise e => ([], Raised e)
      | Ok keep =>
          let '(ys, e) := drain_filter rest in
          (if keep then p :: ys else ys, e)
      end
  end.

(** Draining [filter(_filter_fn, tf.train.checkpoints_iterator(model_dir))]
    over the paths delivered so far. *)
Fixpoint drain_polled (polled : list str) : list str * ending :=
  match polled with
  | [] => ([], Waiting)
  | p :: rest =>
      match _filter_fn p with
      | Raise e => ([], Raised e)
      | Ok keep =>
          let '(ys, e) := drain_polled rest in
          (if keep then p :: ys else ys, e)
      end
  end.

(** Draining [_generate_checkpoints()]. *)
Fixpoint _generate_checkpoints (stop : Z) (polled : list str) : list str * ending :=
  match polled with
  | [] => ([], Waiting)
  | p :: rest =>
      match _filter_fn p with
      | Raise e => ([], Raised e)
      | Ok false => _generate_checkpoints stop rest
      | Ok true =>
          match get_step_from_checkpoint_path p with
          | Raise e => ([], Raised e)
          | Ok step =>
              let ys := if step <=? stop then [p] else [] in
              if step >=? stop then (ys, Exhausted)
              else
                let '(ys', e) := _generate_checkpoints stop rest in
                (ys ++ ys', e)
          end
      end
  end.

(** [[f(x) for x in l]] where [f] may raise. *)
Fixpoint map_result {A B : Type} (f : A -> result B) (l : list A) : result (list B) :=
  match l with
  | [] => Ok []
  | x :: rest =>
      do y <- f x;
      do ys <- map_result f rest;
      Ok (y :: ys)
  end.

(** [[c for c in checkpoints if c]] *)
Definition truthy (l : list (option str)) : list str :=
  flat_map (fun c =>
              match c with
              | Some (x :: p) => [x :: p]
              | _ => []
              end) l.

Definition get_checkpoint_iterator (checkpoint_step : step_selector)
  : result checkpoints :=
  match checkpoint_step with
  | SelAll =>
      let ckpt_paths := glob st (path_join model_dir (lit "model.ckpt*")) in
      do steps <- map_result get_step_from_checkpoint_path ckpt_paths;
      let ckpt_steps := set_iter steps in
      let '(ys, e) :=
        drain_filter (map _get_checkpoint_path (py_sorted ckpt_steps)) in
      Ok (Paths ys e)
  | SelNone =>
      let '(ys, e) :=
        match stop_after with
        | Some stop => _generate_checkpoints stop (checkpoints_iterator st model_dir)
        | None => drain_polled (checkpoints_iterator st model_dir)
        end in
      Ok (Paths ys e)
  | SelInt step =>
      if step =? -1 then Ok (Latest (latest_checkpoint st model_dir))
      else if find_closest then
        do closest <- _get_closest_checkpoint step;
        Ok (Paths [_get_checkpoint_path closest] Exhausted)
      else
        match truthy (map _get_checkpoint_path_if_exists [step]) with
        | [] => Raise NoCheckpointsWereFound
        | checkpoints => Ok (Paths checkpoints Exhausted)
        end
  | SelList steps =>
      if find_closest then
        do closests <- map_result _get_closest_checkpoint steps;
        Ok (Paths (map _get_checkpoint_path (np_unique closests)) Exhausted)
      else
        match truthy (map _get_checkpoint_path_if_exists steps) with
        | [] => Raise NoCheckpointsWereFound
        | checkpoints => Ok (Paths checkpoints Exhausted)
        end
  end.

End CheckpointIterator.

(** ** Vocabulary of the statements *)

(** The (block, layer) slots that the builder enumerates: for the source,
    every layer of every block, block by block; for the target, the same
    without the layers listed as new. *)
Definition ckpt_slots (num_blocks : option Z) (num_layers : Z) : list (Z * Z) :=
  flat_map (fun block_num =>
    map (fun layer_num => (block_num, layer_num)) (py_range num_layers))
    (py_range (or_1 num_blocks)).

Definition local_slots (num_blocks : option Z) (num_layers : Z)
  (new_layers : option (list Z)) : list (Z * Z) :=
  flat_map (fun block_num =>
    flat_map (fun layer_num =>
      if is_new_layer new_layers layer_num then [] else [(block_num, layer_num)])
      (py_range num_layers))
    (py_range (or_1 num_blocks)).

(** The pattern of a slot. *)
Definition slot_regex (prefix : option str) (num_blocks : option Z)
  (slot : Z * Z) : str :=
  build_regex prefix (snd slot) (fst slot) num_blocks.

(** "The literal [layer] as a path segment token", in the words of the
    specification of VariableMatcher: some [/]-separated segment of the
    name begins with [layer] (as [layer_003] does). *)
Definition has_layer_segment (name : str) : bool :=
  existsb (startswith (lit "layer")) (split (lit "/") name).

(** A name carries a 3-digit token: the literal followed by three digits. *)
Definition has_token (token : string) (name : str) : Prop :=
  exists d, List.length d = 3%nat /\ forallb is_digit d = true
            /\ contains (lit token ++ d) name = true.

(** The patterns whose matches are counted for a token, one per sub-tree:
    the single stack, the encoder, the decoder. *)
Definition token_regexes (token : string) : list regex :=
  [numbered token; numbered_under "encoder/" token;
   numbered_under "decoder/" token].

Definition layer_regexes : list regex := token_regexes "layer_".

(** The count [n] is that of a 3-digit token of some name. *)
Definition counts_token (token : string) (names : list str) (n : Z) : Prop :=
  exists name d, In name names /\ List.length d = 3%nat
                 /\ forallb is_digit d = true
                 /\ contains (lit token ++ d) name = true
                 /\ n = int_of_digits d + 1.

(** "Zero-padded to exactly 3 digits", in the words of the specification
    of StructureInferer: the token's number is [d], three digits that no
    further digit follows. *)
Definition has_exact_token (token : string) (name d : str) : Prop :=
  exists pre post, name = pre ++ lit token ++ d ++ post
                   /\ List.length d = 3%nat /\ forallb is_digit d = true
                   /\ match post with
                      | c :: _ => is_digit c = false
                      | [] => True
                      end.


(** A Python [set] iterates over the distinct values that were inserted,
    in an order of its own. *)
Definition set_iter_ok (set_iter : list Z -> list Z) : Prop :=
  forall l, NoDup (set_iter l) /\ forall x, In x (set_iter l) <-> In x l.

(** The step of a path is above the floor. *)
Definition above (floor : Z) (p : str) : bool :=
  match get_step_from_checkpoint_path p with
  | Ok step => step >? floor
  | Raise _ => false
  end.

(** A path polled before the ceiling is reached: it has a step, and the
    step is at or below the floor or below the ceiling. *)
Definition before_ceiling (floor ceiling : Z) (q : str) : Prop :=
  exists s, get_step_from_checkpoint_path q = Ok s
            /\ (s <= floor \/ s < ceiling).

(** A model directory [d] with checkpoints at steps 10, 20 and 35, for the
    examples. *)
Definition example_storage : storage := {|
  listdir := fun _ =>
    [lit "checkpoint"; lit "model.ckpt-10.index"; lit "model.ckpt-10.meta";
     lit "model.ckpt-20.index"; lit "model.ckpt-35.index";
     lit "events.out.tfevents"];
  glob := fun _ =>
    [lit "d/model.ckpt-10.index"; lit "d/model.ckpt-10.meta";
     lit "d/model.ckpt-20.index"; lit "d/model.ckpt-35.index"];
  checkpoint_exists := fun p =>
    existsb (eqb_str p)
      [lit "d/model.ckpt-10"; lit "d/model.ckpt-20"; lit "d/model.ckpt-35"];
  latest_checkpoint := fun _ => Some (lit "d/model.ckpt-35");
  checkpoints_iterator := fun _ =>
    [lit "d/model.ckpt-10"; lit "d/model.ckpt-20"; lit "d/model.ckpt-35"]
|}.

(** ** The callers of the remapping functions *)

(** [init_checkpoint_variable_mapping(name, mapping_fn=None)]; a function
    object is true, [None] is not. *)
Definition init_checkpoint_variable_mapping (name : str)
  (mapping_fn : option (str -> result str)) : result str :=
  match mapping_fn with
  | Some f => f name
  | None => Ok name
  end.

(** [should_load_variable(name, filter_fn=None)] *)
Definition should_load_variable (name : str)
  (filter_fn : option (str -> bool)) : bool :=
  match filter_fn with
  | Some f => f name
  | None => true
  end.

(** Some mapping of the list makes the pair of names match. *)
Definition matches_any (re_match : str -> str -> bool) (mappings : list dict)
  (ckpt_var_name local_var_name : str) : bool :=
  existsb (_match_ckpt_to_local_var_name re_match ckpt_var_name local_var_name)
    mappings.

(** ** Batch sizes

    The functions below raise errors the checkpoint functions do not;
    [outcome] is their counterpart of [result]. *)

Inductive error :=
| ZeroDivisionError
| EmptyMax                       (* ValueError of max() on no values *)
| NoValuesAttribute              (* AttributeError: 'int' ... 'values' *)
| NotDivisible (a b : Z)         (* ValueError("%d is not divisible by %d") *)
| UnknownMethod (method : str)   (* ValueError("unknown method %s") *)
| ListIndexError                 (* IndexError: list index out of range *)
| NoExamplesWereScored           (* ValueError("No examples were scored.") *)
| InvalidAxis                    (* the axis is outside the tensor's rank *)
| InvalidLiteral (s : str)       (* ValueError of int() *)
| ExceedsDigitLimit              (* ValueError of int(): too many digits *)
| EmptyReduce                    (* TypeError of reduce() on no values *)
| External (e : str).            (* raised by a function of another module *)

Inductive outcome (A : Type) :=
| Return (a : A)
| Throw (e : error).
Arguments Return {A} a.
Arguments Throw {A} e.

Definition obind {A B : Type} (x : outcome A) (f : A -> outcome B) : outcome B :=
  match x with
  | Return a => f a
  | Throw e => Throw e
  end.

Notation "'try' x <- e ; k" := (obind e (fun x => k))
  (at level 10, x name, e at level 100, k at level 200).

(** [a % b] and [a // b] on ints: the remainder has the sign of [b]. *)
Definition py_mod (a b : Z) : outcome Z :=
  if b =? 0 then Throw ZeroDivisionError else Return (a mod b).

Definition py_floordiv (a b : Z) : outcome Z :=
  if b =? 0 then Throw ZeroDivisionError else Return (a / b).

(** The [sequence_length] argument: the docstrings allow an int or a dict
    from feature key to int. *)
Inductive lengths :=
| LenInt (n : Z)
| LenDict (d : list (str * Z)).

(** [max(sequence_length.values())] *)
Definition max_values (sequence_length : lengths) : outcome Z :=
  match sequence_length with
  | LenInt _ => Throw NoValuesAttribute
  | LenDict d =>
      match map snd d with
      | [] => Throw EmptyMax
      | x :: t => Return (fold_left Z.max t x)
      end
  end.

(** [mtf.Dimension(name, size)] *)
Record Dimension := { dim_name : str; dim_size : Z }.

Section BatchSize.

(** The mesh shape and the layout rules are only handed on to functions of
    [mesh_tensorflow/ops.py], which may raise. *)
Variables mesh_shape_t layout_rules_t : Type.
Variable tensor_dim_to_mesh_dim_size :
  layout_rules_t -> mesh_shape_t -> Dimension -> outcome Z.
Variable tensor_dim_to_size_per_split :
  layout_rules_t -> mesh_shape_t -> Dimension -> outcome Z.

Definition checkdiv (a b : Z) : outcome Z :=
  try r <- py_mod a b;
  if negb (r =? 0) then Throw (NotDivisible a b)
  else py_floordiv a b.

Definition compute_batch_size (sequence_length : lengths)
  (mesh_shape : mesh_shape_t) (layout_rules : layout_rules_t)
  (method_and_value : str * Z) : outcome Z :=
  try batch <- tensor_dim_to_mesh_dim_size layout_rules mesh_shape
                 {| dim_name := lit "batch"; dim_size := 0 |};
  try outer_batch <- tensor_dim_to_mesh_dim_size layout_rules mesh_shape
                       {| dim_name := lit "outer_batch"; dim_size := 0 |};
  let num_replicas := batch * outer_batch in
  let '(method, value) := method_and_value in
  if eqb_str method (lit "sequences_per_batch") then Return value
  else
    try sequence_length <- max_values sequence_length;
    if eqb_str method (lit "tokens_per_batch")
    then checkdiv value sequence_length
    else if eqb_str method (lit "sequences_per_replica")
    then Return (value * num_replicas)
    else if eqb_str method (lit "tokens_per_replica")
    then try q <- checkdiv value sequence_length; Return (q * num_replicas)
    else Throw (UnknownMethod method).

(** The loop
    [while batch_per_replica % microbatch_size: microbatch_size -= 1];
    [None] when the fuel is used up before the loop ends. *)
Fixpoint decrease_microbatch_size (fuel : nat)
  (batch_per_replica microbatch_size : Z) : option (outcome Z) :=
  match fuel with
  | O => None
  | S fuel' =>
      match py_mod batch_per_replica microbatch_size with
      | Throw e => Some (Throw e)
      | Return r =>
          if negb (r =? 0)
          then decrease_microbatch_size fuel' batch_per_replica
                 (microbatch_size - 1)
          else Some (Return microbatch_size)
      end
  end.

Definition serialize_num_microbatches (fuel : nat) (batch_dim : Dimension)
  (sequence_length : lengths) (mesh_shape : mesh_shape_t)
  (layout_rules : layout_rules_t)
  (tokens_per_microbatch_per_replica : option Z) : option (outcome Z) :=
  match tokens_per_microbatch_per_replica with
  | None | Some 0 => Some (Return 1)
  | Some tokens =>
      match tensor_dim_to_size_per_split layout_rules mesh_shape batch_dim with
      | Throw e => Some (Throw e)
      | Return batch_per_replica =>
          match (try longest <- max_values sequence_length;
                 try q <- py_floordiv tokens longest;
                 Return (Z.max 1 q)) with
          | Throw e => Some (Throw e)
          | Return microbatch_size =>
              match decrease_microbatch_size fuel batch_per_replica
                      microbatch_size with
              | None => None
              | Some (Throw e) => Some (Throw e)
              | Some (Return microbatch_size) =>
                  Some (py_floordiv batch_per_replica microbatch_size)
              end
          end
      end
  end.

End BatchSize.

(** ** Text lines and their encoding

    The characters of a text line are the code points below 256. *)

(** [c.isspace()] *)
Definition is_space (c : ascii) : bool :=
  existsb (Nat.eqb (nat_of_ascii c))
    [9; 10; 11; 12; 13; 28; 29; 30; 31; 32; 133; 160]%nat.

(** [s.lstrip()], [s.rstrip()] and [s.strip()] *)
Fixpoint lstrip (s : str) : str :=
  match s with
  | [] => []
  | c :: s' => if is_space c then lstrip s' else s
  end.

Definition rstrip (s : str) : str := List.rev (lstrip (List.rev s)).

Definition strip (s : str) : str := rstrip (lstrip s).

(** A [Vocabulary] of [mesh_tensorflow/transformer/vocabulary.py]. *)
Record Vocabulary := {
  encode : str -> list Z;
  decode_ids : list Z -> str
}.

(** The [vocabulary] argument: a Vocabulary or an
    (inputs_vocabulary, targets_vocabulary) tuple. *)
Inductive vocabulary_arg :=
| OneVocabulary (v : Vocabulary)
| TwoVocabularies (inputs targets : Vocabulary).

Definition inputs_vocabulary (vocabulary : vocabulary_arg) : Vocabulary :=
  match vocabulary with
  | OneVocabulary v => v
  | TwoVocabularies v _ => v
  end.

Definition targets_vocabulary (vocabulary : vocabulary_arg) : Vocabulary :=
  match vocabulary with
  | OneVocabulary v => v
  | TwoVocabularies _ v => v
  end.

(** [l[:n]] *)
Definition slice_to {A : Type} (n : Z) (l : list A) : list A :=
  if n <? 0 then firstn (Z.to_nat (Z.of_nat (List.length l) + n)) l
  else firstn (Z.to_nat n) l.

(** [l * n] *)
Definition list_times {A : Type} (l : list A) (n : Z) : list A :=
  List.concat (repeat l (Z.to_nat n)).

(** [l[i]] for an index that is not negative *)
Definition list_item {A : Type} (l : list A) (i : nat) : outcome A :=
  match nth_error l i with
  | Some x => Return x
  | None => Throw ListIndexError
  end.

(** The cut to [sequence_length] ids, or the filling with zeros up to
    it, that both encoders end a row with. *)
Definition fit_to_length (sequence_length : Z) (ids : list Z) : list Z :=
  if Z.of_nat (List.length ids) >? sequence_length
  then slice_to sequence_length ids
  else ids ++ list_times [0] (sequence_length - Z.of_nat (List.length ids)).

(** [all_ids.extend([all_ids[0]] * (-n % batch_size))] *)
Definition pad_to_batches (n : nat) (batch_size : Z)
  (all_ids : list (list Z)) : outcome (list (list Z)) :=
  try first <- list_item all_ids 0;
  try pad <- py_mod (- Z.of_nat n) batch_size;
  Return (all_ids ++ list_times [first] pad).

Section Encoding.

(** [np.array(rows, dtype=np.int32)]: what it does with rows of unequal
    length and with ints outside 32 bits depends on the NumPy at hand. *)
Variable ndarray : Type.
Variable np_array_int32 : list (list Z) -> outcome ndarray.

(** The body of the loop of [encode_inputs] for one line. *)
Definition encode_line (vocabulary : vocabulary_arg) (model_type : str)
  (sequence_length eos_id : Z) (unscored_prefix : option (list str))
  (line_num : nat) (line : str) : outcome (list Z) :=
  let ids := encode (inputs_vocabulary vocabulary) (strip line) in
  try ids <-
    match unscored_prefix with
    | None | Some [] => Return ids
    | Some prefixes =>
        try prefix <- list_item prefixes line_num;
        let prefix_str := strip prefix in
        Return (map Z.opp (encode (inputs_vocabulary vocabulary) prefix_str)
                ++ ids)
    end;
  let ids := if negb (eqb_str model_type (lit "lm")) then ids ++ [eos_id]
             else ids in
  Return (fit_to_length sequence_length ids).

(** The loop over [enumerate(inputs)], from [line_num] on. *)
Fixpoint encode_lines (vocabulary : vocabulary_arg) (model_type : str)
  (sequence_length eos_id : Z) (unscored_prefix : option (list str))
  (line_num : nat) (inputs : list str) : outcome (list (list Z)) :=
  match inputs with
  | [] => Return []
  | line :: rest =>
      try ids <- encode_line vocabulary model_type sequence_length eos_id
                   unscored_prefix line_num line;
      try all_input_ids <- encode_lines vocabulary model_type sequence_length
                             eos_id unscored_prefix (S line_num) rest;
      Return (ids :: all_input_ids)
  end.

(** The rows [encode_inputs] hands to [np.array]. *)
Definition encode_inputs_rows (inputs : list str) (vocabulary : vocabulary_arg)
  (model_type : str) (batch_size sequence_length eos_id : Z)
  (unscored_prefix : option (list str)) : outcome (list (list Z)) :=
  let n := List.length inputs in
  try all_input_ids <- encode_lines vocabulary model_type sequence_length
                         eos_id unscored_prefix 0 inputs;
  pad_to_batches n batch_size all_input_ids.

Definition encode_inputs (inputs : list str) (vocabulary : vocabulary_arg)
  (model_type : str) (batch_size sequence_length eos_id : Z)
  (unscored_prefix : option (list str)) : outcome ndarray :=
  try all_input_ids <- encode_inputs_rows inputs vocabulary model_type
                         batch_size sequence_length eos_id unscored_prefix;
  np_array_int32 all_input_ids.

(** The body of the loop of [encode_delimited_lm] for one pair. *)
Definition encode_pair (vocabulary : vocabulary_arg)
  (sequence_length eos_id : Z) (include_final_eos : bool)
  (inp tgt : str) : list Z :=
  let input_ids := encode (inputs_vocabulary vocabulary) (strip inp)
                   ++ [eos_id] in
  let target_ids := encode (targets_vocabulary vocabulary) (strip tgt) in
  let target_ids := if include_final_eos then target_ids ++ [eos_id]
                    else target_ids in
  fit_to_length sequence_length (input_ids ++ target_ids).

(** The rows [encode_delimited_lm] hands to [np.array]; [combine] is
    [zip]. *)
Definition encode_delimited_lm_rows (inputs targets : list str)
  (vocabulary : vocabulary_arg) (batch_size sequence_length eos_id : Z)
  (include_final_eos : bool) : outcome (list (list Z)) :=
  let n := List.length inputs in
  let all_ids :=
    map (fun it => encode_pair vocabulary sequence_length eos_id
                     include_final_eos (fst it) (snd it))
      (combine inputs targets) in
  pad_to_batches n batch_size all_ids.

Definition encode_delimited_lm (inputs targets : list str)
  (vocabulary : vocabulary_arg) (batch_size sequence_length eos_id : Z)
  (include_final_eos : bool) : outcome ndarray :=
  try all_ids <- encode_delimited_lm_rows inputs targets vocabulary
                   batch_size sequence_length eos_id include_final_eos;
  np_array_int32 all_ids.

End Encoding.

(** ** Decoded ids

    A tensor of rank one is the list of its elements; on it the axes -1
    and 0 are the same axis, and any other axis is an error. *)

(** The value a 32-bit signed sum wraps to. *)
Definition wrap_int32 (x : Z) : Z := (x + 2 ^ 31) mod 2 ^ 32 - 2 ^ 31.

(** [tf.equal(t, x)] for an int [x] *)
Definition tf_equal (t : list Z) (x : Z) : list bool :=
  map (fun v => v =? x) t.

(** [tf.cast(t, tf.int32)] for a tensor of booleans *)
Definition tf_cast_int32 (t : list bool) : list Z :=
  map (fun b : bool => if b then 1 else 0) t.

(** [tf.cumsum(t, exclusive=True)] for a tensor of 32-bit ints: [acc] is
    the sum of the elements passed. *)
Fixpoint cumsum_exclusive (acc : Z) (t : list Z) : list Z :=
  match t with
  | [] => []
  | v :: rest => acc :: cumsum_exclusive (wrap_int32 (acc + v)) rest
  end.

Definition tf_cumsum_exclusive (t : list Z) : list Z := cumsum_exclusive 0 t.

(** [tf.where_v2(cond, t, x)] for an int [x] *)
Definition tf_where_v2 (cond : list bool) (t : list Z) (x : Z) : list Z :=
  map (fun cv : bool * Z => if fst cv then snd cv else x) (combine cond t).

Definition clean_decodes (ids : list Z) (eos_id pad_id length_axis : Z)
  : outcome (list Z) :=
  if (length_axis =? -1) || (length_axis =? 0) then
    let eos_and_after :=
      tf_cumsum_exclusive (tf_cast_int32 (tf_equal ids eos_id)) in
    let valid_ids := tf_equal eos_and_after 0 in
    Return (tf_where_v2 valid_ids ids pad_id)
  else Throw InvalidAxis.

(** The result of [clean_decodes] when the running sum starts at [acc]. *)
Definition masked (acc : Z) (eos_id pad_id : Z) (ids : list Z) : list Z :=
  tf_where_v2
    (tf_equal (cumsum_exclusive acc (tf_cast_int32 (tf_equal ids eos_id))) 0)
    ids pad_id.

(** [np.argmax(t)] for an array of booleans: the index of the first True,
    0 when there is none; ValueError on an empty array. *)
Fixpoint first_true (t : list bool) : option nat :=
  match t with
  | [] => None
  | true :: _ => Some O
  | false :: rest => option_map S (first_true rest)
  end.

Definition np_argmax (t : list bool) : outcome Z :=
  match t with
  | [] => Throw EmptyMax
  | _ :: _ =>
      Return (match first_true t with
              | Some i => Z.of_nat i
              | None => 0
              end)
  end.

(** [get_sequence_length] of [save_scores] *)
Definition get_sequence_length (tokens : list Z) (pad_id : Z) : outcome Z :=
  if negb (mem_Z pad_id tokens) then Return (Z.of_nat (List.length tokens))
  else np_argmax (tf_equal tokens pad_id).

(** ** The decoding generator *)

(** A predicted feature: bytes, or ids still to be detokenized. *)
Inductive predicted :=
| Binary (s : str)
| TokenIds (ids : list Z).

Record prediction := { pred_inputs : predicted; pred_outputs : predicted }.

Definition _maybe_detokenize (value : predicted) (vocab : Vocabulary) : str :=
  match value with
  | Binary s => s
  | TokenIds ids => decode_ids vocab ids
  end.

(** What a consumer that drains the generator observes, in order. *)
Inductive decode_event :=
| Yielded (output_string : str)
| LoggedDecoded (i : Z) (input_string : str)
| LoggedArrow (output_string : str).

(** [decode], drained, over the predictions [estimator.predict] delivers;
    [i] is the counter of [enumerate]. *)
Fixpoint decode_from (i : Z) (result_iter : list prediction)
  (vocabulary : vocabulary_arg) : list decode_event :=
  match result_iter with
  | [] => []
  | result :: rest =>
      let input_string :=
        _maybe_detokenize (pred_inputs result) (inputs_vocabulary vocabulary) in
      let output_string :=
        _maybe_detokenize (pred_outputs result) (targets_vocabulary vocabulary) in
      Yielded output_string ::
      (if Z.land i (i - 1) =? 0
       then [LoggedDecoded i input_string; LoggedArrow output_string]
       else [])
      ++ decode_from (i + 1) rest vocabulary
  end.

Definition decode (result_iter : list prediction) (vocabulary : vocabulary_arg)
  : list decode_event :=
  decode_from 0 result_iter vocabulary.

(** ** Files of text lines *)

(** [l] without its longest beginning whose elements satisfy [f] *)
Fixpoint drop_while {A : Type} (f : A -> bool) (l : list A) : list A :=
  match l with
  | [] => []
  | x :: l' => if f x then drop_while f l' else l
  end.

(** [os.path.dirname(p)] of posixpath: the part up to the last slash,
    without its trailing slashes unless it holds nothing else. *)
Definition dirname (p : str) : str :=
  let head :=
    List.rev (drop_while (fun c => negb (Ascii.eqb c "/"%char)) (List.rev p)) in
  if forallb (Ascii.eqb "/"%char) head then head
  else List.rev (drop_while (Ascii.eqb "/"%char) (List.rev head)).

(** The calls of [tf.io.gfile] a function makes, in order. *)
Inductive gfile_call :=
| GfileRemove (filename : str)
| GfileMakedirs (dirname : str)
| GfileOpen (filename mode : str)
| GfileWrite (data : str)
| GfileClose.

Section TextFiles.

(** [tf.io.gfile.exists], and the lines that iterating over
    [tf.io.gfile.GFile(filename, "r")] yields. *)
Variable gfile_exists : str -> bool.
Variable gfile_lines : str -> list str.


(** [write_lines_to_file] for lines that are strings. *)
Definition write_lines_to_file (lines : list str) (filename : str)
  : list gfile_call :=
  (if gfile_exists filename then [GfileRemove filename] else [])
  ++ [GfileMakedirs (dirname filename); GfileOpen filename (lit "w")]
  ++ map (fun line => GfileWrite (replace [newline] (lit " ") line ++ [newline]))
       lines
  ++ [GfileClose].

End TextFiles.

(** The data a sequence of calls writes. *)
Definition written (calls : list gfile_call) : str :=
  flat_map (fun c => match c with GfileWrite data => data | _ => [] end) calls.

(** ** The mesh shape of a TPU topology *)

(** The characters [int()] passes over at both ends of a string. *)
Definition is_int_space (c : ascii) : bool :=
  existsb (Nat.eqb (nat_of_ascii c)) [9; 10; 11; 12; 13; 32; 133; 160]%nat.

(** The digits of a literal in which single underscores may stand between
    digits; [after_digit] tells whether the character before was a digit. *)
Fixpoint grouped_digits (after_digit : bool) (s : str) : option str :=
  match s with
  | [] => if after_digit then Some [] else None
  | c :: s' =>
      if is_digit c then option_map (cons c) (grouped_digits true s')
      else if Ascii.eqb c "_"%char
           then if after_digit then grouped_digits false s' else None
           else None
  end.

(** [int(s)] for any string: blanks at both ends, a sign, digits with
    underscores.  [max_str_digits] is [sys.get_int_max_str_digits()], 0
    where there is no limit. *)
Definition int_of_str (max_str_digits : nat) (s : str) : outcome Z :=
  let body :=
    List.rev (drop_while is_int_space
                (List.rev (drop_while is_int_space s))) in
  let '(negative, digits) :=
    match body with
    | c :: rest =>
        if Ascii.eqb c "-"%char then (true, rest)
        else if Ascii.eqb c "+"%char then (false, rest)
        else (false, body)
    | [] => (false, body)
    end in
  match grouped_digits false digits with
  | None => Throw (InvalidLiteral s)
  | Some ds =>
      if (0 <? max_str_digits)%nat && (max_str_digits <? List.length ds)%nat
      then Throw ExceedsDigitLimit
      else Return (if negative then - int_of_digits ds else int_of_digits ds)
  end.

(** [re.split(p1|p2|..., s)[0]] for literal alternatives that are not
    empty: the part of [s] before the leftmost occurrence of one of them. *)
Fixpoint before_first_match (alternatives : list str) (s : str) : str :=
  match s with
  | [] => []
  | c :: s' =>
      if existsb (fun p => startswith p s) alternatives then []
      else c :: before_first_match alternatives s'
  end.

(** [[f(x) for x in l]] where [f] may raise. *)
Fixpoint map_outcome {A B : Type} (f : A -> outcome B) (l : list A)
  : outcome (list B) :=
  match l with
  | [] => Return []
  | x :: rest =>
      try y <- f x;
      try ys <- map_outcome f rest;
      Return (y :: ys)
  end.

(** [functools.reduce(lambda x, y: x * y, l)] *)
Definition reduce_mul (l : list Z) : outcome Z :=
  match l with
  | [] => Throw EmptyReduce
  | x :: rest => Return (fold_left Z.mul rest x)
  end.

(** The [model_parallelism] argument: an int, or a spec for
    [HierarchicalTiling]. *)
Inductive parallelism (spec_t : Type) :=
| CoresPerReplica (n : Z)
| TilingSpec (spec : spec_t).
Arguments CoresPerReplica {spec_t} n.
Arguments TilingSpec {spec_t} spec.

Section MeshShape.

Variable max_str_digits : nat.
(** [FLAGS.logical_cores_per_chip] *)
Variable logical_cores_per_chip : Z.
(** [mtf.simd_mesh_impl.HierarchicalTiling.spec_to_mesh_shape] *)
Variable spec_t : Type.
Variable spec_to_mesh_shape : spec_t -> Z -> outcome (list Dimension).

(** The first statement of [tpu_mesh_shape]: the number of cores. *)
Definition num_cores (tpu_topology : str) : outcome Z :=
  if startswith (lit "v") tpu_topology then
    int_of_str max_str_digits (last (split (lit "-") tpu_topology) [])
  else
    let tpu_topology :=
      before_first_match [lit "_twisted"; lit "_untwisted"] tpu_topology in
    try tpu_dim <- map_outcome (int_of_str max_str_digits)
                     (split (lit "x") tpu_topology);
    try cores <- reduce_mul tpu_dim;
    Return (cores * logical_cores_per_chip).

(** A [mtf.Shape] is the list of its dimensions. *)
Definition tpu_mesh_shape (tpu_topology : str)
  (model_parallelism : parallelism spec_t) (ensemble_parallelism : option Z)
  : outcome (list Dimension) :=
  try num_cores <- num_cores tpu_topology;
  match model_parallelism with
  | TilingSpec spec => spec_to_mesh_shape spec num_cores
  | CoresPerReplica model_parallelism =>
      try data_parallelism <- py_floordiv num_cores model_parallelism;
      try data_parallelism <-
        match ensemble_parallelism with
        | None | Some 0 => Return data_parallelism
        | Some ensemble => py_floordiv data_parallelism ensemble
        end;
      let dims := [] in
      let dims :=
        match ensemble_parallelism with
        | None | Some 0 => dims
        | Some ensemble =>
            if ensemble >? 1
            then dims ++ [{| dim_name := lit "ensemble"; dim_size := ensemble |}]
            else dims
        end in
      let dims :=
        if data_parallelism >? 1
        then dims ++ [{| dim_name := lit "batch"; dim_size := data_parallelism |}]
        else dims in
      let dims :=
        if model_parallelism >? 1
        then dims ++ [{| dim_name := lit "model"; dim_size := model_parallelism |}]
        else dims in
      Return dims
  end.

End MeshShape.

(** [sep.join(l)] *)
Fixpoint str_join (sep : str) (l : list str) : str :=
  match l with
  | [] => []
  | [x] => x
  | x :: rest => x ++ sep ++ str_join sep rest
  end.

(** The product of the sizes of a shape. *)
Definition shape_size (dims : list Dimension) : Z :=
  fold_right Z.mul 1 (map dim_size dims).

(** A character that stands for itself in a pattern. *)
Definition plain_char (c : ascii) : bool :=
  negb (is_meta c) && negb (Ascii.eqb c "."%char).

(** * Properties *)

(** ** Strings *)

Section StringFacts.

Lemma eqb_str_true (a b : str) : eqb_str a b = true <-> a = b.
Proof.
  unfold eqb_str. destruct (list_eq_dec ascii_dec a b); split; congruence.
Qed.

Lemma eqb_str_refl (a : str) : eqb_str a a = true.
Proof. now apply eqb_str_true. Qed.

Lemma eqb_str_false (a b : str) : eqb_str a b = false <-> a <> b.
Proof.
  unfold eqb_str. destruct (list_eq_dec ascii_dec a b); split; congruence.
Qed.

Lemma startswith_app (p r : str) : startswith p (p ++ r) = true.
Proof.
  induction p as [|a p IH]; simpl; [reflexivity|].
  now rewrite Ascii.eqb_refl.
Qed.

Lemma startswith_inv (p s : str) :
  startswith p s = true -> s = p ++ skipn (List.length p) s.
Proof.
  revert s. induction p as [|a p IH]; intros [|b s]; simpl; try easy.
  intros H. apply andb_true_iff in H as [Hab Hps].
  apply Ascii.eqb_eq in Hab. subst b. f_equal. now apply IH.
Qed.

Lemma startswith_iff (p s : str) :
  startswith p s = true <-> exists r, s = p ++ r.
Proof.
  split.
  - intros H. eexists. now apply startswith_inv.
  - intros [r ->]. apply startswith_app.
Qed.

Lemma contains_iff (sub s : str) :
  contains sub s = true <-> exists pre post, s = pre ++ sub ++ post.
Proof.
  induction s as [|c s IH]; simpl; rewrite orb_true_iff.
  - split.
    + intros [H|H]; [|discriminate].
      apply startswith_iff in H as [r Hr]. now exists [], r.
    + intros (pre & post & H). left. apply startswith_iff.
      destruct pre; [now exists post|discriminate].
  - rewrite IH, startswith_iff. split.
    + intros [[r Hr]|(pre & post & H)].
      * now exists [], r.
      * exists (c :: pre), post. simpl. now f_equal.
    + intros (pre & post & H). destruct pre as [|c' pre]; simpl in H.
      * left. now exists post.
      * right. injection H as _ H. now exists pre, post.
Qed.

Lemma contains_trans (a b s : str) :
  contains a b = true -> contains b s = true -> contains a s = true.
Proof.
  rewrite !contains_iff. intros (p1 & q1 & ->) (p2 & q2 & ->).
  exists (p2 ++ p1), (q1 ++ q2). now rewrite <- !app_assoc.
Qed.

End StringFacts.

(** ** Decimal numerals *)

Section DecimalFacts.

Lemma fold_digits_acc (d : Decimal.uint) (acc : positive) :
  fold_left (fun a c => 10 * a + digit_val c) (lit (NilEmpty.string_of_uint d)) (Z.pos acc)
  = Z.pos (Pos.of_uint_acc d acc).
Proof.
  revert acc. unfold lit.
  induction d; intros acc;
    cbn [NilEmpty.string_of_uint list_ascii_of_string fold_left Pos.of_uint_acc];
    [reflexivity| ..];
    rewrite <- IHd; f_equal;
    match goal with
    | |- context [digit_val ?c] =>
        let v := eval vm_compute in (digit_val c) in change (digit_val c) with v
    end; lia.
Qed.

Lemma fold_digits_uint (d : Decimal.uint) :
  int_of_digits (lit (NilEmpty.string_of_uint d)) = Z.of_N (Pos.of_uint d).
Proof.
  unfold int_of_digits, lit.
  induction d;
    cbn [NilEmpty.string_of_uint list_ascii_of_string fold_left Pos.of_uint];
    [reflexivity | exact IHd | ..];
    match goal with
    | |- fold_left _ _ ?x = Z.of_N (N.pos (Pos.of_uint_acc d ?k)) =>
        change x with (Z.pos k); apply fold_digits_acc
    end.
Qed.

Lemma digits_uint (d : Decimal.uint) :
  forallb is_digit (lit (NilEmpty.string_of_uint d)) = true.
Proof. unfold lit. induction d; simpl; auto. Qed.

Lemma int_of_digits_format_d (n : Z) : 0 <= n -> int_of_digits (format_d n) = n.
Proof.
  intros Hn. unfold format_d. destruct n as [|p|p]; [reflexivity| |lia].
  simpl. unfold NilZero.string_of_uint.
  assert (H : int_of_digits (lit (NilEmpty.string_of_uint (Pos.to_uint p))) = Z.pos p).
  { rewrite fold_digits_uint, DecimalPos.Unsigned.of_to. reflexivity. }
  destruct (Pos.to_uint p) eqn:E; exact H.
Qed.

Lemma format_d_digits (n : Z) : 0 <= n -> forallb is_digit (format_d n) = true.
Proof.
  intros Hn. unfold format_d. destruct n as [|p|p]; [reflexivity| |lia].
  simpl. unfold NilZero.string_of_uint.
  destruct (Pos.to_uint p) eqn:E; try (rewrite <- E; apply digits_uint).
  reflexivity.
Qed.


Lemma int_of_digits_zeros (k : nat) (s : str) :
  int_of_digits (repeat "0"%char k ++ s) = int_of_digits s.
Proof.
  unfold int_of_digits. rewrite fold_left_app. f_equal.
  induction k; simpl; auto.
Qed.

Lemma digits_zeros (k : nat) : forallb is_digit (repeat "0"%char k) = true.
Proof. induction k; simpl; auto. Qed.

Lemma format_03d_nonneg (n : Z) : 0 <= n -> format_03d n = zfill 3 (format_d n).
Proof. intros H. unfold format_03d. destruct (Z.ltb_spec n 0); [lia|reflexivity]. Qed.

Lemma int_of_digits_format_03d (n : Z) :
  0 <= n -> int_of_digits (format_03d n) = n.
Proof.
  intros H. rewrite format_03d_nonneg by assumption. unfold zfill.
  rewrite int_of_digits_zeros. now apply int_of_digits_format_d.
Qed.

Lemma format_03d_digits (n : Z) :
  0 <= n -> forallb is_digit (format_03d n) = true.
Proof.
  intros H. rewrite format_03d_nonneg by assumption. unfold zfill.
  rewrite forallb_app, digits_zeros. now apply format_d_digits.
Qed.

Lemma format_03d_inj (n m : Z) :
  0 <= n -> 0 <= m -> format_03d n = format_03d m -> n = m.
Proof.
  intros Hn Hm E. apply (f_equal int_of_digits) in E.
  now rewrite !int_of_digits_format_03d in E.
Qed.

(** Two digit strings followed by the same non-digit. *)
Lemma digits_sep_inj (u u' x x' : str) (c : ascii) :
  forallb is_digit u = true -> forallb is_digit u' = true ->
  is_digit c = false ->
  u ++ c :: x = u' ++ c :: x' -> u = u' /\ x = x'.
Proof.
  revert u'. induction u as [|a u IH]; intros [|a' u']; simpl; intros Hu Hu' Hc E.
  - injection E as ->. now split.
  - injection E as -> _. apply andb_true_iff in Hu' as [H _]. congruence.
  - injection E as -> _. apply andb_true_iff in Hu as [H _]. congruence.
  - injection E as -> E. apply andb_true_iff in Hu as [_ Hu].
    apply andb_true_iff in Hu' as [_ Hu'].
    destruct (IH u' Hu Hu' Hc E) as [-> ->]. now split.
Qed.

End DecimalFacts.

(** ** The matcher *)

Section ReFacts.

Variable A : Type.
Implicit Types (k : str -> option A) (p : ascii -> bool).

Lemma run_lits (l s : str) (caps : list str) (k : str -> list str -> option A) :
  run (lits l) s caps k
  = if startswith l s then k (skipn (List.length l) s) caps else None.
Proof.
  revert s. induction l as [|a l IH]; intros s; simpl; [reflexivity|].
  destruct s as [|b s]; [reflexivity|].
  destruct (Ascii.eqb a b); simpl; [apply IH | reflexivity].
Qed.




Lemma star_greedy_inv p k (s : str) (v : A) :
  star_greedy p k s = Some v ->
  exists mid rest, s = mid ++ rest /\ forallb p mid = true /\ k rest = Some v.
Proof.
  induction s as [|c s IH]; simpl; intros H.
  - now exists [], [].
  - destruct (p c) eqn:Hc.
    + destruct (star_greedy p k s) as [r|] eqn:E.
      * injection H as ->. destruct (IH eq_refl) as (mid & rest & -> & Hm & Hk).
        exists (c :: mid), rest. simpl. now rewrite Hc, Hm.
      * now exists [], (c :: s).
    + now exists [], (c :: s).
Qed.

Lemma rep_inv p (n : nat) k (s : str) (v : A) :
  rep p n k s = Some v ->
  exists d rest, s = d ++ rest /\ List.length d = n /\ forallb p d = true
                 /\ k rest = Some v.
Proof.
  revert s. induction n as [|n IH]; intros s; simpl; intros H.
  - now exists [], s.
  - destruct s as [|c s]; [discriminate|].
    destruct (p c) eqn:Hc; [|discriminate].
    destruct (IH _ H) as (d & rest & -> & Hl & Hd & Hk).
    exists (c :: d), rest. simpl. now rewrite Hc, Hd, Hl.
Qed.

Lemma rep_app p k (d rest : str) :
  forallb p d = true -> rep p (List.length d) k (d ++ rest) = k rest.
Proof.
  induction d as [|c d IH]; simpl; [reflexivity|].
  intros H. apply andb_true_iff in H as [-> H]. now apply IH.
Qed.

End ReFacts.

(** ** StepCodec: get_step_from_checkpoint_path *)

Section StepCodec.









End StepCodec.

(** ** C8 *)




(** ** Dictionaries *)

Section DictFacts.

Lemma dict_set_fresh (k v : str) (d : dict) :
  ~ In k (map fst d) -> dict_set k v d = d ++ [(k, v)].
Proof.
  induction d as [|[k' v'] d IH]; simpl; intros H; [reflexivity|].
  destruct (eqb_str k' k) eqn:E.
  - apply eqb_str_true in E. tauto.
  - rewrite IH by tauto. reflexivity.
Qed.

(** Filling a dictionary from items with distinct keys keeps the items as
    they are, in order. *)
Lemma dict_of_items_nodup (items d0 : dict) :
  NoDup (map fst (d0 ++ items)) ->
  fold_left (fun d kv => dict_set (fst kv) (snd kv) d) items d0 = d0 ++ items.
Proof.
  revert d0. induction items as [|[k v] items IH]; intros d0 H; simpl.
  - now rewrite app_nil_r.
  - rewrite dict_set_fresh.
    + rewrite IH; rewrite <- app_assoc; [reflexivity | exact H].
    + rewrite map_app in H. apply NoDup_remove_2 in H.
      intros Hin. apply H. apply in_or_app. now left.
Qed.

Lemma dict_mem_set (k k' v : str) (d : dict) :
  dict_mem k (dict_set k' v d) = eqb_str k' k || dict_mem k d.
Proof.
  unfold dict_mem. induction d as [|[k0 v0] d IH]; simpl.
  - now rewrite orb_false_r.
  - destruct (eqb_str k0 k') eqn:E; simpl.
    + apply eqb_str_true in E. subst k0.
      destruct (eqb_str k' k); reflexivity.
    + rewrite IH. destruct (eqb_str k0 k), (eqb_str k' k); reflexivity.
Qed.

Lemma map_fst_combine (A B : Type) (a : list A) (b : list B) :
  List.length a = List.length b -> map fst (combine a b) = a.
Proof.
  revert b. induction a as [|x a IH]; intros [|y b]; simpl; try easy.
  intros H. f_equal. apply IH. lia.
Qed.

End DictFacts.

(** ** CorrespondenceBuilder: _build_ckpt_to_local_var_name_mapping *)

Section Builder.

Lemma in_py_range (n x : Z) : In x (py_range n) <-> 0 <= x < n.
Proof.
  unfold py_range. rewrite in_map_iff. split.
  - intros (i & <- & Hi). apply in_seq in Hi. lia.
  - intros H. exists (Z.to_nat x). split; [lia|]. apply in_seq. lia.
Qed.

Lemma NoDup_py_range (n : Z) : NoDup (py_range n).
Proof.
  unfold py_range. apply NoDup_map_NoDup_ForallPairs; [|apply seq_NoDup].
  intros i j _ _ H. lia.
Qed.


Lemma NoDup_pairs (A B : Type) (l : list A) (l' : list B) :
  NoDup l -> NoDup l' ->
  NoDup (flat_map (fun x => map (fun y => (x, y)) l') l).
Proof.
  intros Hl Hl'. induction Hl as [|x l Hx Hl IH]; simpl; [constructor|].
  apply NoDup_app; [|exact IH|].
  - apply NoDup_map_NoDup_ForallPairs; [|exact Hl'].
    intros a b _ _ E. congruence.
  - intros [a b] Hin Hin'. apply in_map_iff in Hin as (y & E & _).
    apply in_flat_map in Hin' as (x' & Hx' & Hin').
    apply in_map_iff in Hin' as (y' & E' & _). congruence.
Qed.

Lemma build_regex_inj (prefix : option str) (nb : option Z) (b l b' l' : Z) :
  0 <= b -> 0 <= l -> 0 <= b' -> 0 <= l' ->
  build_regex prefix l b nb = build_regex prefix l' b' nb ->
  l = l' /\ (nb <> None -> b = b').
Proof.
  intros Hb Hl Hb' Hl' E. unfold build_regex in E.
  assert (E' :
    match nb with
    | Some _ => lit "block_" ++ format_03d b ++ lit "/" ++ lit "layer_" ++ format_03d l
    | None => lit "layer_" ++ format_03d l
    end =
    match nb with
    | Some _ => lit "block_" ++ format_03d b' ++ lit "/" ++ lit "layer_" ++ format_03d l'
    | None => lit "layer_" ++ format_03d l'
    end).
  { destruct prefix as [p|]; [|exact E]. now do 2 apply app_inv_head in E. }
  clear E. destruct nb as [n|].
  - apply app_inv_head in E'.
    change (lit "/" ++ ?x) with ("/"%char :: x) in E'.
    apply digits_sep_inj in E' as [Eb El];
      [| now apply format_03d_digits | now apply format_03d_digits | reflexivity].
    apply app_inv_head in El. split.
    + now apply format_03d_inj.
    + intros _. now apply format_03d_inj.
  - apply app_inv_head in E'. split; [now apply format_03d_inj | congruence].
Qed.

Lemma in_ckpt_slots (cb : option Z) (cl b l : Z) :
  In (b, l) (ckpt_slots cb cl) <-> 0 <= b < or_1 cb /\ 0 <= l < cl.
Proof.
  unfold ckpt_slots. rewrite in_flat_map. split.
  - intros (x & Hx & Hin). apply in_map_iff in Hin as (y & E & Hy).
    injection E as -> ->. now rewrite in_py_range in Hx, Hy.
  - intros [Hb Hl]. exists b. rewrite in_py_range. split; [exact Hb|].
    apply in_map_iff. exists l. now rewrite in_py_range.
Qed.

Lemma NoDup_ckpt_slots (cb : option Z) (cl : Z) : NoDup (ckpt_slots cb cl).
Proof. apply NoDup_pairs; apply NoDup_py_range. Qed.

Lemma map_flat_map (A B C : Type) (f : B -> C) (g : A -> list B) (l : list A) :
  map f (flat_map g l) = flat_map (fun x => map f (g x)) l.
Proof.
  induction l as [|x l IH]; simpl; [reflexivity|].
  now rewrite map_app, IH.
Qed.

(** The two loops yield the patterns of the slots, slot by slot. *)
Lemma all_ckpt_name_regexes_slots (cb : option Z) (cl : Z) (prefix : option str) :
  all_ckpt_name_regexes cb cl prefix
  = map (slot_regex prefix cb) (ckpt_slots cb cl).
Proof.
  unfold all_ckpt_name_regexes, ckpt_slots. rewrite map_flat_map.
  apply flat_map_ext. intros b. now rewrite map_map.
Qed.

Lemma all_local_name_regexes_slots (lb : option Z) (ll : Z)
  (nl : option (list Z)) (prefix : option str) :
  all_local_name_regexes lb ll nl prefix
  = map (slot_regex prefix lb) (local_slots lb ll nl).
Proof.
  unfold all_local_name_regexes, local_slots. rewrite map_flat_map.
  apply flat_map_ext. intros b. rewrite map_flat_map.
  apply flat_map_ext. intros l. now destruct (is_new_layer nl l).
Qed.

(** The source patterns are pairwise distinct, so no dictionary key is
    written twice. *)
Lemma NoDup_all_ckpt_name_regexes (cb : option Z) (cl : Z) (prefix : option str) :
  NoDup (all_ckpt_name_regexes cb cl prefix).
Proof.
  rewrite all_ckpt_name_regexes_slots.
  apply NoDup_map_NoDup_ForallPairs; [|apply NoDup_ckpt_slots].
  intros [b l] [b' l'] Hin Hin' E. unfold slot_regex in E. simpl in E.
  apply in_ckpt_slots in Hin, Hin'.
  apply build_regex_inj in E as [-> Hb]; try lia.
  destruct cb as [n|].
  - now rewrite Hb.
  - simpl in Hin, Hin'. f_equal. lia.
Qed.

Lemma build_mapping_ok (cb : option Z) (cl : Z) (lb : option Z) (ll : Z)
  (nl : option (list Z)) (prefix : option str) :
  List.length (ckpt_slots cb cl) = List.length (local_slots lb ll nl) ->
  _build_ckpt_to_local_var_name_mapping cb cl lb ll nl prefix
  = Ok (combine (map (slot_regex prefix cb) (ckpt_slots cb cl))
                (map (slot_regex prefix lb) (local_slots lb ll nl))).
Proof.
  intros H. unfold _build_ckpt_to_local_var_name_mapping.
  pose proof (NoDup_all_ckpt_name_regexes cb cl prefix) as Hnodup.
  rewrite all_ckpt_name_regexes_slots in Hnodup |- *.
  rewrite all_local_name_regexes_slots.
  assert (Hlen : List.length (map (slot_regex prefix cb) (ckpt_slots cb cl))
                 = List.length (map (slot_regex prefix lb) (local_slots lb ll nl)))
    by now rewrite !length_map.
  rewrite Hlen, Nat.eqb_refl. cbn [negb]. f_equal.
  rewrite dict_of_items_nodup; [reflexivity|].
  cbn [app]. now rewrite map_fst_combine by exact Hlen.
Qed.

Lemma build_mapping_mismatch (cb : option Z) (cl : Z) (lb : option Z) (ll : Z)
  (nl : option (list Z)) (prefix : option str) :
  List.length (ckpt_slots cb cl) <> List.length (local_slots lb ll nl) ->
  _build_ckpt_to_local_var_name_mapping cb cl lb ll nl prefix
  = Raise StructuralMismatch.
Proof.
  intros H. unfold _build_ckpt_to_local_var_name_mapping.
  rewrite all_ckpt_name_regexes_slots, all_local_name_regexes_slots, !length_map.
  apply Nat.eqb_neq in H. now rewrite H.
Qed.

End Builder.

(** ** C1 *)

(** C1: the builder raises StructuralMismatch exactly when the number of
    source (block, layer) slots differs from the number of target slots
    left after the new layers are removed; with equal numbers it returns
    the dictionary whose N-th item pairs the pattern of the N-th source
    slot with the pattern of the N-th target slot; 4 blocks of 3 layers
    against 4 blocks of 3 layers and no new layer give 12 items. *)
Theorem C1_builder_mismatch_iff_counts_differ
  (cb : option Z) (cl : Z) (lb : option Z) (ll : Z)
  (nl : option (list Z)) (prefix : option str) :
  let source := ckpt_slots cb cl in
  let target := local_slots lb ll nl in
  let built := _build_ckpt_to_local_var_name_mapping cb cl lb ll nl prefix in
  (built = Raise StructuralMismatch
   <-> List.length source <> List.length target)
  /\ (List.length source = List.length target ->
      built = Ok (combine (map (slot_regex prefix cb) source)
                          (map (slot_regex prefix lb) target)))
  /\ (exists d,
        _build_ckpt_to_local_var_name_mapping
          (Some 4) 3 (Some 4) 3 None prefix = Ok d
        /\ List.length d = 12%nat).
Proof.
  cbv zeta. split; [|split].
  - split.
    + intros E Hlen. rewrite build_mapping_ok in E by exact Hlen. discriminate E.
    + apply build_mapping_mismatch.
  - apply build_mapping_ok.
  - eexists. split.
    + apply build_mapping_ok. reflexivity.
    + rewrite length_combine, !length_map. reflexivity.
Qed.

Lemma C1_builder_mismatch_iff_counts_differ_witness :
  _build_ckpt_to_local_var_name_mapping (Some 2) 2 (Some 2) 3 (Some [1])
    (Some (lit "encoder/"))
  = Ok [(lit "encoder/.*block_000/layer_000", lit "encoder/.*block_000/layer_000");
        (lit "encoder/.*block_000/layer_001", lit "encoder/.*block_000/layer_002");
        (lit "encoder/.*block_001/layer_000", lit "encoder/.*block_001/layer_000");
        (lit "encoder/.*block_001/layer_001", lit "encoder/.*block_001/layer_002")]
  /\ _build_ckpt_to_local_var_name_mapping None 3 None 4 None None
     = Raise StructuralMismatch.
Proof.
  split.
  - exact (proj1 (proj2 (@C1_builder_mismatch_iff_counts_differ
                           (Some 2) 2 (Some 2) 3 (Some [1])
                           (Some (lit "encoder/")))) eq_refl).
  - apply (proj1 (@C1_builder_mismatch_iff_counts_differ
                    None 3 None 4 None None)).
    discriminate.
Defined.

(** ** StructureInferer: the numbered tokens *)

Section Tokens.

Lemma run_numbered (A : Type) (token : string) (s : str) (caps : list str)
  (k : str -> list str -> option A) (v : A) :
  run (numbered token) s caps k = Some v ->
  exists d rest, s = lit token ++ d ++ rest /\ List.length d = 3%nat
                 /\ forallb is_digit d = true /\ k rest (caps ++ [d]) = Some v.
Proof.
  unfold numbered. cbn [run]. rewrite run_lits.
  destruct (startswith (lit token) s) eqn:E; [|discriminate].
  apply startswith_inv in E. cbn [run]. intros H.
  apply rep_inv in H as (d & rest & Hs & Hl & Hd & Hk).
  exists d, rest. repeat split; try assumption.
  - now rewrite E at 1; rewrite Hs.
  - rewrite Hs in Hk. rewrite length_app in Hk.
    replace (List.length d + List.length rest - List.length rest)%nat
      with (List.length d) in Hk by lia.
    now rewrite firstn_app, firstn_all, Nat.sub_diag, firstn_0, app_nil_r in Hk.
Qed.

Lemma run_numbered_app (A : Type) (token : string) (d rest : str)
  (caps : list str) (k : str -> list str -> option A) :
  List.length d = 3%nat -> forallb is_digit d = true ->
  run (numbered token) (lit token ++ d ++ rest) caps k = k rest (caps ++ [d]).
Proof.
  intros Hl Hd. unfold numbered. cbn [run].
  rewrite run_lits, startswith_app, skipn_app, skipn_all, Nat.sub_diag.
  cbn [skipn app run]. rewrite <- Hl. rewrite rep_app by exact Hd.
  rewrite length_app.
  replace (List.length d + List.length rest - List.length rest)%nat
    with (List.length d) by lia.
  now rewrite firstn_app, firstn_all, Nat.sub_diag, firstn_0, app_nil_r.
Qed.

Lemma re_match_numbered (token : string) (s : str) (m : match_obj) :
  Re.re_match (numbered token) s = Some m ->
  exists d rest, s = lit token ++ d ++ rest /\ List.length d = 3%nat
                 /\ forallb is_digit d = true /\ group1 m = d
                 /\ m_len m = (List.length (lit token) + 3)%nat.
Proof.
  unfold Re.re_match. intros H.
  apply run_numbered in H as (d & rest & Hs & Hl & Hd & Hk).
  injection Hk as <-. exists d, rest. repeat split; try assumption.
  cbn [m_len]. rewrite Hs, !length_app. lia.
Qed.

Lemma re_match_numbered_under (prefix token : string) (s : str) (m : match_obj) :
  Re.re_match (numbered_under prefix token) s = Some m ->
  exists mid d rest, s = lit prefix ++ mid ++ lit token ++ d ++ rest
                     /\ List.length d = 3%nat
                     /\ forallb is_digit d = true /\ group1 m = d.
Proof.
  unfold Re.re_match, numbered_under. cbn [run]. rewrite run_lits.
  destruct (startswith (lit prefix) s) eqn:E; [|discriminate].
  apply startswith_inv in E. intros H.
  apply star_greedy_inv in H as (mid & rest' & Hs & _ & H).
  apply run_numbered in H as (d & rest & Hr & Hl & Hd & Hk).
  injection Hk as <-. exists mid, d, rest. repeat split; try assumption.
  rewrite E at 1. now rewrite Hs, Hr.
Qed.

(** Every string that [findall] returns is the group of a match at some
    position of the subject. *)
Lemma findall_go_sound (r : regex) (skip : nat) (s d : str) :
  In d (findall_go r skip s) ->
  exists pre post m, s = pre ++ post /\ Re.re_match r post = Some m
                     /\ group1 m = d.
Proof.
  revert skip. induction s as [|c s IH]; intros skip H.
  - destruct skip as [|k]; simpl in H; [|contradiction].
    destruct (Re.re_match r []) as [m|] eqn:E; [|contradiction].
    destruct H as [H|[]]. now exists [], [], m.
  - assert (Hrec : forall k, In d (findall_go r k s) ->
                exists pre post m, c :: s = pre ++ post
                  /\ Re.re_match r post = Some m /\ group1 m = d).
    { intros k Hk. destruct (IH k Hk) as (pre & post & m & -> & Hm & Hg).
      now exists (c :: pre), post, m. }
    destruct skip as [|k]; simpl in H; [|now apply (Hrec k)].
    destruct (Re.re_match r (c :: s)) as [m|] eqn:E.
    + destruct H as [H|H]; [now exists [], (c :: s), m | eapply Hrec; eassumption].
    + now apply (Hrec O).
Qed.

Lemma findall_token (token : string) (r : regex) (name d : str) :
  In r (token_regexes token) -> In d (findall r name) ->
  List.length d = 3%nat /\ forallb is_digit d = true
  /\ contains (lit token ++ d) name = true.
Proof.
  intros Hr Hd. apply findall_go_sound in Hd as (pre & post & m & -> & Hm & <-).
  assert (H : exists a d rest, post = a ++ lit token ++ d ++ rest
            /\ List.length d = 3%nat /\ forallb is_digit d = true
            /\ group1 m = d).
  { destruct Hr as [<-|[<-|[<-|[]]]].
    - apply re_match_numbered in Hm as (d & rest & ? & ? & ? & ? & _).
      now exists [], d, rest.
    - apply re_match_numbered_under in Hm as (mid & d & rest & -> & ? & ? & ?).
      exists (lit "encoder/" ++ mid), d, rest. now rewrite <- app_assoc.
    - apply re_match_numbered_under in Hm as (mid & d & rest & -> & ? & ? & ?).
      exists (lit "decoder/" ++ mid), d, rest. now rewrite <- app_assoc. }
  destruct H as (a & d & rest & -> & Hl & Hdig & ->).
  repeat split; try assumption.
  apply contains_iff. exists (pre ++ a), rest.
  now rewrite <- !app_assoc.
Qed.

Lemma findall_layer_token (r : regex) (name d : str) :
  In r layer_regexes -> In d (findall r name) ->
  List.length d = 3%nat /\ forallb is_digit d = true
  /\ contains (lit "layer_" ++ d) name = true.
Proof. apply findall_token. Qed.

Lemma get_max_no_match (r : regex) (names : list str) :
  (forall name, In name names -> findall r name = []) ->
  get_max_layer_or_block_num r names = -1.
Proof.
  intros H. unfold get_max_layer_or_block_num.
  replace (List.concat (map (findall r) names)) with (@nil str); [reflexivity|].
  induction names as [|n names IH]; simpl; [reflexivity|].
  rewrite H by now left. simpl. apply IH. intros name Hn. apply H. now right.
Qed.

End Tokens.

(** ** VariableMatcher and RemappingIndex *)

Section MatcherFacts.

Variable re_match : str -> str -> bool.

Lemma match_without_layer (c l : str) (m : dict) :
  contains (lit "layer") c = false \/ contains (lit "layer") l = false ->
  _match_ckpt_to_local_var_name re_match c l m = eqb_str c l.
Proof.
  intros H. unfold _match_ckpt_to_local_var_name.
  destruct H as [-> | ->]; [reflexivity|].
  now rewrite orb_true_r.
Qed.

Lemma match_empty_mapping (c l : str) :
  _match_ckpt_to_local_var_name re_match c l []
  = eqb_str c l && negb (contains (lit "layer") c).
Proof.
  unfold _match_ckpt_to_local_var_name. cbn [match_items].
  destruct (eqb_str c l) eqn:E.
  - apply eqb_str_true in E. subst l.
    destruct (contains (lit "layer") c); cbn; [|reflexivity].
    now destruct (negb _).
  - destruct (negb _ || negb _); [reflexivity|]. now destruct (negb _).
Qed.

(** A fold that only ever writes keys satisfying [P]. *)
Lemma dict_mem_fold (X : Type) (f : dict -> X -> dict) (P : X -> bool)
  (t : str) (xs : list X) (d : dict) :
  (forall d x, dict_mem t (f d x) = dict_mem t d || P x) ->
  dict_mem t (fold_left f xs d) = dict_mem t d || existsb P xs.
Proof.
  intros Hf. revert d. induction xs as [|x xs IH]; intros d; simpl.
  - now rewrite orb_false_r.
  - now rewrite IH, Hf, orb_assoc.
Qed.

(** The keys of [graph_var_to_ckpt_var] are the current-model names that
    some checkpoint name matches under some mapping. *)
Lemma graph_var_mem (ckpt_names local_names : list str) (mappings : list dict)
  (t : str) :
  dict_mem t (build_graph_var_to_ckpt_var re_match ckpt_names local_names mappings)
  = existsb (fun c =>
      existsb (fun l =>
        eqb_str l t
        && existsb (_match_ckpt_to_local_var_name re_match c l) mappings)
        local_names)
      ckpt_names.
Proof.
  unfold build_graph_var_to_ckpt_var.
  rewrite dict_mem_fold with
    (P := fun c => existsb (fun l => eqb_str l t
             && existsb (_match_ckpt_to_local_var_name re_match c l) mappings)
             local_names); [reflexivity|].
  intros d c. apply dict_mem_fold. clear d. intros d l.
  rewrite dict_mem_fold with
    (P := fun m => eqb_str l t && _match_ckpt_to_local_var_name re_match c l m).
  - f_equal. induction mappings as [|m ms IH]; simpl.
    + now rewrite andb_false_r.
    + rewrite IH. now destruct (eqb_str l t).
  - clear d. intros d m.
    destruct (_match_ckpt_to_local_var_name re_match c l m).
    + rewrite dict_mem_set. now rewrite andb_true_r, orb_comm.
    + now rewrite andb_false_r, orb_false_r.
Qed.

Lemma restorable_iff (ckpt_names local_names : list str) (mappings : list dict)
  (t : str) :
  filter_fn
    (build_graph_var_to_ckpt_var re_match ckpt_names local_names mappings) t
  = true
  <-> In t local_names
      /\ exists c m, In c ckpt_names /\ In m mappings
                     /\ _match_ckpt_to_local_var_name re_match c t m = true.
Proof.
  unfold filter_fn. rewrite graph_var_mem, existsb_exists. split.
  - intros (c & Hc & H). apply existsb_exists in H as (l & Hl & H).
    apply andb_true_iff in H as [E H]. apply eqb_str_true in E. subst l.
    apply existsb_exists in H as (m & Hm & H). split; [exact Hl|].
    now exists c, m.
  - intros (Hl & c & m & Hc & Hm & H). exists c. split; [exact Hc|].
    apply existsb_exists. exists t. split; [exact Hl|].
    rewrite eqb_str_refl. apply existsb_exists. now exists m.
Qed.

End MatcherFacts.

(** ** C3 *)

(** C3, as stated with [layer] counted only as a path segment token: the
    source tests for the substring, so two identical names in which
    [layer] occurs inside a segment ([multilayer/kernel]) are sent to the
    correspondence rules and, with no entry to match, do not match. *)
Lemma C3_counterexample :
  ~ (forall (re_match : str -> str -> bool) (c l : str) (m : dict),
       has_layer_segment c = false -> has_layer_segment l = false ->
       (_match_ckpt_to_local_var_name re_match c l m = true <-> c = l)).
Proof.
  intros H.
  pose proof (H (fun _ _ => true) (lit "multilayer/kernel")
                (lit "multilayer/kernel") [] eq_refl eq_refl) as [_ E].
  specialize (E eq_refl). vm_compute in E. discriminate E.
Qed.

(** C3, amended: for every pair of names neither of which contains the
    substring [layer], and for every correspondence list (and whatever
    [re.match] answers), VariableMatcher reports a match exactly when the
    two names are identical; [global_step] matches itself. *)
Theorem C3_identity_for_names_without_layer
  (re_match : str -> str -> bool) (c l : str) (m : dict) :
  contains (lit "layer") c = false -> contains (lit "layer") l = false ->
  (_match_ckpt_to_local_var_name re_match c l m = true <-> c = l)
  /\ _match_ckpt_to_local_var_name re_match
       (lit "global_step") (lit "global_step") m = true.
Proof.
  intros Hc Hl. split.
  - rewrite match_without_layer by now left. apply eqb_str_true.
  - rewrite match_without_layer by now left. reflexivity.
Qed.

Lemma C3_identity_for_names_without_layer_witness :
  contains (lit "layer") (lit "shared/embedding") = false /\
  contains (lit "layer") (lit "global_step") = false /\
  ((_match_ckpt_to_local_var_name re_match_str
      (lit "shared/embedding") (lit "global_step")
      [(lit "layer_000", lit "layer_001")] = true
    <-> lit "shared/embedding" = lit "global_step")
   /\ _match_ckpt_to_local_var_name re_match_str
        (lit "global_step") (lit "global_step")
        [(lit "layer_000", lit "layer_001")] = true).
Proof.
  exact (conj eq_refl (conj eq_refl
    (C3_identity_for_names_without_layer re_match_str
       (lit "shared/embedding") (lit "global_step")
       [(lit "layer_000", lit "layer_001")] eq_refl eq_refl))).
Defined.

(** ** C10 *)

Section NoLayerTokens.

Lemma flat_map_nil (A B : Type) (l : list A) :
  flat_map (fun _ : A => @nil B) l = [].
Proof. induction l; simpl; auto. Qed.

(** With a layer count of -1 on both sides both loops are empty. *)
Lemma build_mapping_no_layers (cb lb : option Z) (nl : option (list Z))
  (prefix : option str) :
  _build_ckpt_to_local_var_name_mapping cb (-1) lb (-1) nl prefix = Ok [].
Proof.
  unfold _build_ckpt_to_local_var_name_mapping,
    all_ckpt_name_regexes, all_local_name_regexes.
  change (py_range (-1)) with (@nil Z). cbn [map flat_map].
  now rewrite !flat_map_nil.
Qed.

Lemma get_max_without_token (r : regex) (names : list str) :
  In r layer_regexes ->
  (forall n, In n names -> ~ has_token "layer_" n) ->
  get_max_layer_or_block_num r names = -1.
Proof.
  intros Hr H. apply get_max_no_match. intros name Hn.
  destruct (findall r name) as [|d ds] eqn:E; [reflexivity|].
  exfalso. apply (H name Hn). exists d.
  eapply findall_layer_token; [exact Hr|]. rewrite E. now left.
Qed.

Lemma compute_shape (names : list str) :
  _compute_num_blocks_and_layer names
  = let opt := fun n => if negb (n =? -1) then Some n else None in
    if encoder_decoder_model names then
      ([opt (get_max_layer_or_block_num (numbered_under "encoder/" "block_") names);
        opt (get_max_layer_or_block_num (numbered_under "decoder/" "block_") names)],
       [get_max_layer_or_block_num (numbered_under "encoder/" "layer_") names;
        get_max_layer_or_block_num (numbered_under "decoder/" "layer_") names])
    else
      ([opt (get_max_layer_or_block_num (numbered "block_") names)],
       [get_max_layer_or_block_num (numbered "layer_") names]).
Proof.
  unfold _compute_num_blocks_and_layer.
  now destruct (encoder_decoder_model names).
Qed.

Lemma restorable_empty_mappings (re_match : str -> str -> bool)
  (ckpt_names local_names : list str) (mappings : list dict) (t : str) :
  mappings <> [] -> (forall m, In m mappings -> m = []) ->
  (filter_fn
     (build_graph_var_to_ckpt_var re_match ckpt_names local_names mappings) t
   = true
   <-> In t ckpt_names /\ In t local_names
       /\ contains (lit "layer") t = false).
Proof.
  intros Hne Hall. rewrite restorable_iff. split.
  - intros (Hl & c & m & Hc & Hm & H). rewrite (Hall m Hm) in H.
    rewrite match_empty_mapping in H. apply andb_true_iff in H as [E H].
    apply eqb_str_true in E. subst c. apply negb_true_iff in H. now repeat split.
  - intros (Hc & Hl & H). split; [exact Hl|].
    destruct mappings as [|m ms]; [congruence|].
    exists t, m. repeat split; [exact Hc | now left |].
    rewrite (Hall m) by now left.
    now rewrite match_empty_mapping, eqb_str_refl, H.
Qed.

End NoLayerTokens.

(** C10: when no name of the checkpoint and no name of the current model
    carries a 3-digit [layer_NNN] token, then for each sub-tree the
    inferred layer count is -1 on both sides and the builder returns the
    empty correspondence without raising, whatever the block counts, the
    new layers and the prefix; the index built through empty
    correspondences makes restorable exactly the names that occur in both
    lists and do not contain the substring [layer]; and
    [flexible_ckpt_init_mapping] returns such an index when the checkpoint
    is a single stack or both sides are encoder-decoder models. *)
Theorem C10_no_layer_tokens_empty_correspondence
  (ckpt_names local_names : list str) :
  (forall n, In n ckpt_names -> ~ has_token "layer_" n) ->
  (forall n, In n local_names -> ~ has_token "layer_" n) ->
  (forall r, In r layer_regexes ->
     get_max_layer_or_block_num r ckpt_names = -1
     /\ get_max_layer_or_block_num r local_names = -1
     /\ forall cb lb nl prefix,
          _build_ckpt_to_local_var_name_mapping
            cb (get_max_layer_or_block_num r ckpt_names)
            lb (get_max_layer_or_block_num r local_names) nl prefix = Ok [])
  /\ (forall (re_match : str -> str -> bool) (mappings : list dict) (t : str),
        mappings <> [] -> (forall m, In m mappings -> m = []) ->
        (filter_fn
           (build_graph_var_to_ckpt_var re_match ckpt_names local_names mappings) t
         = true
         <-> In t ckpt_names /\ In t local_names
             /\ contains (lit "layer") t = false))
  /\ (encoder_decoder_model ckpt_names = false
       \/ encoder_decoder_model local_names = true ->
      exists index,
        flexible_ckpt_init_mapping ckpt_names local_names None = Ok index
        /\ forall t, filter_fn index t = true
                     <-> In t ckpt_names /\ In t local_names
                         /\ contains (lit "layer") t = false).
Proof.
  intros Hc Hl.
  assert (G : forall r names, In r layer_regexes ->
            (forall n, In n names -> ~ has_token "layer_" n) ->
            get_max_layer_or_block_num r names = -1).
  { intros r names. apply get_max_without_token. }
  split; [|split].
  - intros r Hr. rewrite !G by assumption.
    repeat split. intros. apply build_mapping_no_layers.
  - intros. now apply restorable_empty_mappings.
  - intros Hshape. unfold flexible_ckpt_init_mapping.
    rewrite !compute_shape. cbv zeta.
    rewrite !(G (numbered "layer_")), !(G (numbered_under "encoder/" "layer_")),
      !(G (numbered_under "decoder/" "layer_")) by (simpl; auto).
    destruct (encoder_decoder_model ckpt_names) eqn:Ec;
      destruct (encoder_decoder_model local_names) eqn:El;
      try (destruct Hshape; discriminate);
      cbn [List.length Nat.eqb index nth_error bind fst snd];
      rewrite ?build_mapping_no_layers; cbn [bind];
      eexists; (split; [reflexivity|]);
      intros t; apply restorable_empty_mappings;
      try discriminate;
      intros m Hm; simpl in Hm; intuition congruence.
Qed.

Lemma C10_no_layer_tokens_empty_correspondence_witness :
  exists index,
    flexible_ckpt_init_mapping
      [lit "global_step"; lit "shared/embedding"; lit "player/bias"]
      [lit "global_step"; lit "player/bias"; lit "logits/kernel"] None
    = Ok index
    /\ filter_fn index (lit "global_step") = true
    /\ filter_fn index (lit "player/bias") = false.
Proof.
  assert (H : forall names : list str,
            forallb (fun n => negb (contains (lit "layer_") n)) names = true ->
            forall n, In n names -> ~ has_token "layer_" n).
  { intros names Hall n Hn (d & _ & _ & Hd).
    assert (E : contains (lit "layer_") n = true).
    { apply contains_trans with (b := lit "layer_" ++ d); [|exact Hd].
      apply contains_iff. exists [], d. reflexivity. }
    rewrite forallb_forall in Hall. apply Hall in Hn. rewrite E in Hn.
    discriminate Hn. }
  destruct (@C10_no_layer_tokens_empty_correspondence
              [lit "global_step"; lit "shared/embedding"; lit "player/bias"]
              [lit "global_step"; lit "player/bias"; lit "logits/kernel"]
              (H [lit "global_step"; lit "shared/embedding"; lit "player/bias"]
                 eq_refl)
              (H [lit "global_step"; lit "player/bias"; lit "logits/kernel"]
                 eq_refl))
    as (_ & _ & P).
  destruct (P (or_introl eq_refl)) as (index & E & F).
  exists index. split; [exact E|]. split.
  - apply F. simpl. intuition.
  - destruct (filter_fn index (lit "player/bias")) eqn:G; [|reflexivity].
    apply F in G. destruct G as (_ & _ & G). discriminate G.
Defined.

(** ** C2 *)

Section NewLayerSkip.



(** A prefix without the character [x] ends before the first [x]. *)
Lemma prefix_before (x : ascii) (tok pre tl rest : str) :
  forallb (fun c => negb (Ascii.eqb c x)) tok = true ->
  pre ++ x :: tl = tok ++ rest ->
  (List.length tok <= List.length pre)%nat
  /\ firstn (List.length tok) pre = tok.
Proof.
  revert pre. induction tok as [|a tok IH]; intros pre Htok E.
  - split; [simpl; lia | reflexivity].
  - simpl in Htok. apply andb_true_iff in Htok as [Ha Htok].
    destruct pre as [|c pre]; simpl in E.
    + injection E as -> _. rewrite Ascii.eqb_refl in Ha. discriminate Ha.
    + injection E as -> E. destruct (IH pre Htok E) as [Hlen Hfirst].
      split; [simpl; lia | simpl; now rewrite Hfirst].
Qed.


Lemma findall_go_0 (r : regex) (s : str) :
  findall_go r O s
  = match Re.re_match r s with
    | Some m =>
        group1 m ::
        match s with
        | [] => []
        | _ :: s' => findall_go r (Nat.pred (m_len m)) s'
        end
    | None =>
        match s with
        | [] => []
        | _ :: s' => findall_go r O s'
        end
    end.
Proof. destruct s; reflexivity. Qed.


Lemma fold_max_ge (l : list Z) (a x : Z) :
  x <= a \/ In x l -> x <= fold_left Z.max l a.
Proof.
  revert a. induction l as [|y l IH]; intros a H; simpl.
  - destruct H as [H|[]]. exact H.
  - apply IH. destruct H as [H|[->|H]]; [left; lia | left; lia | now right].
Qed.

Lemma py_max_ge (l : list Z) (dflt x : Z) : In x l -> x <= py_max l dflt.
Proof.
  destruct l as [|a l]; [contradiction|]. intros [->|H]; simpl.
  - apply fold_max_ge. left. lia.
  - apply fold_max_ge. now right.
Qed.

Lemma get_max_ge (r : regex) (names : list str) (name d : str) :
  In name names -> In d (findall r name) ->
  int_of_digits d + 1 <= get_max_layer_or_block_num r names.
Proof.
  intros Hn Hd. unfold get_max_layer_or_block_num. apply py_max_ge.
  apply in_or_app. left.
  apply (in_map (fun num => int_of_digits num + 1)). apply in_concat.
  exists (findall r name). split; [now apply in_map | exact Hd].
Qed.



End NewLayerSkip.



(** ** C4 *)

Section StructureInferer.

Lemma fold_max_in (l : list Z) (a : Z) : In (fold_left Z.max l a) (a :: l).
Proof.
  revert a. induction l as [|y l IH]; intros a; simpl; [now left|].
  destruct (IH (Z.max a y)) as [H|H]; [|right; right; exact H].
  destruct (Z.max_spec a y) as [[_ E]|[_ E]]; [right; left | left]; congruence.
Qed.

(** A count is -1 or one more than the number of some match. *)
Lemma get_max_cases (r : regex) (names : list str) :
  get_max_layer_or_block_num r names = -1
  \/ exists name d, In name names /\ In d (findall r name)
       /\ get_max_layer_or_block_num r names = int_of_digits d + 1.
Proof.
  unfold get_max_layer_or_block_num.
  set (nums := map (fun num => int_of_digits num + 1)
                 (List.concat (map (findall r) names))).
  assert (H : In (py_max (nums ++ [-1]) (-1)) (nums ++ [-1])).
  { destruct (nums ++ [-1]) as [|a l] eqn:E.
    - now destruct nums.
    - simpl. apply fold_max_in. }
  apply in_app_or in H as [H|[H|[]]]; [right | now left].
  unfold nums in H. apply in_map_iff in H as (d & E & Hd).
  apply in_concat in Hd as (ds & Hds & Hd).
  apply in_map_iff in Hds as (name & <- & Hname).
  exists name, d. now repeat split.
Qed.

Lemma get_max_counts (token : string) (r : regex) (names : list str) :
  In r (token_regexes token) ->
  get_max_layer_or_block_num r names = -1
  \/ counts_token token names (get_max_layer_or_block_num r names).
Proof.
  intros Hr. destruct (get_max_cases r names) as [H|(name & d & Hn & Hd & E)];
    [now left | right].
  destruct (@findall_token token r name d Hr Hd) as (Hl & Hdig & Hc).
  exists name, d. now repeat split.
Qed.

End StructureInferer.

(** C4, as stated: in [layer_1000/kernel] the layer number has four
    digits, yet its first three are counted, and the inferred number of
    layers is 101 although no name has a token of exactly three digits. *)
Lemma C4_counterexample :
  ~ (forall (names : list str) (n : Z),
       In n (snd (_compute_num_blocks_and_layer names)) ->
       n = -1
       \/ exists name d, In name names /\ has_exact_token "layer_" name d
                         /\ n = int_of_digits d + 1).
Proof.
  intros H.
  destruct (H [lit "layer_1000/kernel"] 101 (or_introl eq_refl))
    as [E|(name & d & [<-|[]] & (pre & post & E & Hl & Hd & Hpost) & _)];
    [discriminate E|].
  destruct d as [|d1 [|d2 [|d3 [|d4 d]]]]; try discriminate Hl.
  repeat (destruct pre as [|? pre];
          [try discriminate E | first [discriminate E | injection E as <- E]]).
  injection E as <- <- <- <-. now vm_compute in Hpost.
Qed.

(** C4, amended: a [block_] or [layer_] token is counted toward
    [num_blocks] or [num_layers] only when the literal is followed by
    (at least) three digits: every inferred layer count is -1 or one more
    than the three digits after [layer_] in some name, every inferred
    block count is [None] or one more than the three digits after
    [block_] in some name; so a token with fewer than three digits is
    excluded. *)
Theorem C4_counts_only_three_digit_tokens (names : list str) :
  (forall n, In n (snd (_compute_num_blocks_and_layer names)) ->
     n = -1 \/ counts_token "layer_" names n)
  /\ (forall b, In b (fst (_compute_num_blocks_and_layer names)) ->
       b = None \/ exists n, b = Some n /\ counts_token "block_" names n)
  /\ ((forall name, In name names -> ~ has_token "layer_" name) ->
      forall n, In n (snd (_compute_num_blocks_and_layer names)) -> n = -1)
  /\ ((forall name, In name names -> ~ has_token "block_" name) ->
      forall b, In b (fst (_compute_num_blocks_and_layer names)) -> b = None).
Proof.
  assert (L : forall n, In n (snd (_compute_num_blocks_and_layer names)) ->
            n = -1 \/ counts_token "layer_" names n).
  { intros n Hn. rewrite compute_shape in Hn. cbv zeta in Hn.
    destruct (encoder_decoder_model names); simpl in Hn;
      repeat (destruct Hn as [<-|Hn]; [apply get_max_counts; simpl; auto|]);
      contradiction. }
  assert (B : forall b, In b (fst (_compute_num_blocks_and_layer names)) ->
            b = None \/ exists n, b = Some n /\ counts_token "block_" names n).
  { assert (G : forall r, In r (token_regexes "block_") ->
              let n := get_max_layer_or_block_num r names in
              (if negb (n =? -1) then Some n else None) = None
              \/ exists n', (if negb (n =? -1) then Some n else None) = Some n'
                            /\ counts_token "block_" names n').
    { intros r Hr n. destruct (@get_max_counts "block_" r names Hr) as [E|C].
      - left. fold n in E. now rewrite E.
      - fold n in C. destruct (negb (n =? -1)); [right | now left].
        now exists n. }
    intros b Hb. rewrite compute_shape in Hb. cbv zeta in Hb.
    destruct (encoder_decoder_model names); simpl in Hb;
      repeat (destruct Hb as [<-|Hb]; [apply G; simpl; auto|]);
      contradiction. }
  split; [exact L|]. split; [exact B|]. split.
  - intros Hno n Hn. destruct (L n Hn) as [E|(name & d & Hin & Hl & Hd & Hc & _)];
      [exact E|].
    exfalso. apply (Hno name Hin). now exists d.
  - intros Hno b Hb.
    destruct (B b Hb) as [E|(n & _ & name & d & Hin & Hl & Hd & Hc & _)];
      [exact E|].
    exfalso. apply (Hno name Hin). now exists d.
Qed.

Lemma C4_counts_only_three_digit_tokens_witness :
  forallb (fun n => Z.eqb n (-1))
    (snd (_compute_num_blocks_and_layer
            [lit "layer_12/kernel"; lit "block_7/layer_3/bias"])) = true.
Proof.
  assert (H : forall name,
            In name [lit "layer_12/kernel"; lit "block_7/layer_3/bias"] ->
            ~ has_token "layer_" name).
  { intros name [<-|[<-|[]]] (d & Hl & Hd & Hc);
      destruct d as [|d1 [|d2 [|d3 [|d4 d]]]]; try discriminate Hl;
      apply contains_iff in Hc as (pre & post & E);
      repeat (destruct pre as [|? pre];
              [try discriminate E
              | first [discriminate E | injection E as <- E]]);
      injection E as <- <- <-; discriminate Hd. }
  pose proof (proj1 (proj2 (proj2 (@C4_counts_only_three_digit_tokens
                [lit "layer_12/kernel"; lit "block_7/layer_3/bias"]))) H) as G.
  apply forallb_forall. intros n Hn. rewrite (G n Hn). reflexivity.
Defined.


(** ** CheckpointResolver: get_checkpoint_iterator *)

Section Scan.








End Scan.

Lemma set_iter_ok_nodup : set_iter_ok (nodup Z.eq_dec).
Proof. intros l. split; [apply NoDup_nodup | intros x; apply nodup_In]. Qed.

(** ** C7 *)



(** ** C6 *)

Section ListOfSteps.










End ListOfSteps.




(** ** C5 *)

Section Continuous.

Variables (floor ceiling : Z).

Lemma generate_early (q : str) (rest : list str) :
  before_ceiling floor ceiling q ->
  _generate_checkpoints floor ceiling (q :: rest)
  = let '(ys, e) := _generate_checkpoints floor ceiling rest in
    (if above floor q then q :: ys else ys, e).
Proof.
  intros (s & E & Hs). cbn [_generate_checkpoints].
  unfold _filter_fn, above. rewrite E. cbn [bind].
  destruct (Z.gtb_spec s floor) as [Hgt|Hle].
  - destruct (Z.leb_spec s ceiling); [|lia].
    destruct (Z.geb_spec s ceiling); [lia|].
    now destruct (_generate_checkpoints floor ceiling rest).
  - now destruct (_generate_checkpoints floor ceiling rest).
Qed.

Lemma generate_stops (pre post : list str) (p : str) (step : Z) :
  Forall (before_ceiling floor ceiling) pre ->
  get_step_from_checkpoint_path p = Ok step -> floor < step -> ceiling <= step ->
  _generate_checkpoints floor ceiling (pre ++ p :: post)
  = (filter (above floor) pre ++ (if step =? ceiling then [p] else []),
     Exhausted).
Proof.
  intros Hpre Hp Hfloor Hceil. induction Hpre as [|q pre Hq _ IH].
  - cbn [app filter _generate_checkpoints]. unfold _filter_fn. rewrite Hp.
    cbn [bind]. destruct (Z.gtb_spec step floor); [|lia].
    destruct (Z.geb_spec step ceiling); [|lia].
    destruct (Z.leb_spec step ceiling), (Z.eqb_spec step ceiling);
      try lia; reflexivity.
  - cbn [app]. rewrite generate_early by exact Hq. rewrite IH.
    cbn [filter]. now destruct (above floor q).
Qed.

Lemma generate_waits (polled : list str) :
  Forall (before_ceiling floor ceiling) polled ->
  _generate_checkpoints floor ceiling polled
  = (filter (above floor) polled, Waiting).
Proof.
  induction 1 as [|q polled Hq _ IH]; [reflexivity|].
  rewrite generate_early by exact Hq. rewrite IH.
  cbn [filter]. now destruct (above floor q).
Qed.

End Continuous.

(** C5, as stated: the first identifier at or above the ceiling is not
    yielded when its step is above the ceiling; with the floor 0, the
    ceiling 30 and the steps 10, 20, 35 only the first two are yielded. *)
Lemma C5_counterexample :
  ~ (forall (st : storage) (set_iter : list Z -> list Z) (model_dir : str)
       (floor ceiling : Z) (find_closest : bool)
       (pre post : list str) (p : str) (step : Z),
       checkpoints_iterator st model_dir = pre ++ p :: post ->
       Forall (before_ceiling floor ceiling) pre ->
       get_step_from_checkpoint_path p = Ok step ->
       floor < step -> ceiling <= step ->
       get_checkpoint_iterator st set_iter model_dir floor (Some ceiling)
         find_closest SelNone
       = Ok (Paths (filter (above floor) pre ++ [p]) Exhausted)).
Proof.
  intros H.
  assert (E := H example_storage (nodup Z.eq_dec) (lit "d") 0 30 true
                 [lit "d/model.ckpt-10"; lit "d/model.ckpt-20"] []
                 (lit "d/model.ckpt-35") 35 eq_refl).
  assert (F : Forall (before_ceiling 0 30)
                [lit "d/model.ckpt-10"; lit "d/model.ckpt-20"]).
  { apply Forall_cons; [exists 10; split; [reflexivity | lia]|].
    apply Forall_cons; [exists 20; split; [reflexivity | lia]|].
    apply Forall_nil. }
  specialize (E F eq_refl ltac:(lia) ltac:(lia)).
  vm_compute in E. discriminate E.
Qed.

(** C5, amended: in continuous mode with a ceiling the resolver yields the
    polled identifiers whose step exceeds the floor, and it stops at the
    first of them whose step is greater than or equal to the ceiling; that
    identifier is yielded before the sequence ends only when its step
    equals the ceiling.  As long as no such identifier has been polled the
    sequence stays open. *)
Theorem C5_continuous_mode_with_ceiling
  (st : storage) (set_iter : list Z -> list Z) (model_dir : str)
  (floor ceiling : Z) (find_closest : bool)
  (pre post : list str) (p : str) (step : Z) :
  checkpoints_iterator st model_dir = pre ++ p :: post ->
  Forall (before_ceiling floor ceiling) pre ->
  get_step_from_checkpoint_path p = Ok step ->
  floor < step -> ceiling <= step ->
  get_checkpoint_iterator st set_iter model_dir floor (Some ceiling)
    find_closest SelNone
  = Ok (Paths (filter (above floor) pre ++ (if step =? ceiling then [p] else []))
          Exhausted)
  /\ _generate_checkpoints floor ceiling pre
     = (filter (above floor) pre, Waiting).
Proof.
  intros Hpolled Hpre Hp Hfloor Hceil. split.
  - cbn [get_checkpoint_iterator]. rewrite Hpolled.
    now rewrite (@generate_stops floor ceiling pre post p step
                   Hpre Hp Hfloor Hceil).
  - now apply generate_waits.
Qed.

Lemma C5_continuous_mode_with_ceiling_witness :
  get_checkpoint_iterator example_storage (nodup Z.eq_dec) (lit "d") 10
    (Some 20) true SelNone
  = Ok (Paths [lit "d/model.ckpt-20"] Exhausted).
Proof.
  refine (proj1 (@C5_continuous_mode_with_ceiling example_storage
                   (nodup Z.eq_dec) (lit "d") 10 20 true
                   [lit "d/model.ckpt-10"] [lit "d/model.ckpt-35"]
                   (lit "d/model.ckpt-20") 20 eq_refl _ eq_refl _ _)).
  - apply Forall_cons; [|apply Forall_nil].
    exists 10. split; [reflexivity | lia].
  - lia.
  - lia.
Defined.

(** ** C9 *)

Section Malformed.







End Malformed.




(** * Further properties of utils.py *)

(** ** The remapping index and its callers *)

Section IndexLookup.

Lemma dict_get_set (k k' v : str) (d : dict) :
  dict_get k (dict_set k' v d) = if eqb_str k' k then Ok v else dict_get k d.
Proof.
  induction d as [|[k0 v0] d IH]; simpl.
  - reflexivity.
  - destruct (eqb_str k0 k') eqn:E; simpl.
    + apply eqb_str_true in E. subst k0. now destruct (eqb_str k' k).
    + rewrite IH. destruct (eqb_str k0 k) eqn:E0; [|reflexivity].
      apply eqb_str_true in E0. subst k0.
      destruct (eqb_str k' k) eqn:E1; [|reflexivity].
      apply eqb_str_true in E1. subst k'. now rewrite eqb_str_refl in E.
Qed.

Lemma dict_get_mem (k : str) (d : dict) :
  (dict_mem k d = true -> exists v, dict_get k d = Ok v)
  /\ (dict_mem k d = false -> dict_get k d = Raise (KeyError k)).
Proof.
  unfold dict_mem. induction d as [|[k0 v0] d [IH1 IH2]]; simpl.
  - split; [discriminate | reflexivity].
  - destruct (eqb_str k0 k); simpl; [|now split].
    split; [now exists v0 | discriminate].
Qed.

(** A fold that writes the one value [v], under the keys that satisfy [P]. *)
Lemma dict_get_fold (X : Type) (f : dict -> X -> dict) (P : X -> bool)
  (t v : str) (xs : list X) (d : dict) :
  (forall d x, dict_get t (f d x) = if P x then Ok v else dict_get t d) ->
  dict_get t (fold_left f xs d) = if existsb P xs then Ok v else dict_get t d.
Proof.
  intros Hf. revert d. induction xs as [|x xs IH]; intros d; simpl.
  - reflexivity.
  - rewrite IH, Hf. now destruct (P x), (existsb P xs).
Qed.

(** A fold that writes the element itself when it satisfies [Q]: the last
    such element is what a lookup finds. *)
Lemma dict_get_fold_last (f : dict -> str -> dict) (Q : str -> bool)
  (t c : str) (xs : list str) (d : dict) :
  (forall d x, dict_get t (f d x) = if Q x then Ok x else dict_get t d) ->
  dict_get t (fold_left f xs d) = Ok c
  <-> (exists pre post, xs = pre ++ c :: post /\ Q c = true
                        /\ forall x, In x post -> Q x = false)
      \/ ((forall x, In x xs -> Q x = false) /\ dict_get t d = Ok c).
Proof.
  intros Hf. revert d. induction xs as [|x xs IH]; intros d; simpl.
  - split.
    + intros H. right. now split.
    + intros [(pre & post & E & _)|[_ H]]; [now destruct pre | exact H].
  - rewrite IH, Hf. split.
    + intros [(pre & post & -> & Hc & Hpost)|[Hxs H]].
      * left. now exists (x :: pre), post.
      * destruct (Q x) eqn:Hx.
        -- injection H as ->. left. now exists [], xs.
        -- right. split; [|exact H]. intros y [<-|Hy]; [exact Hx | now apply Hxs].
    + intros [(pre & post & E & Hc & Hpost)|[Hxs H]].
      * destruct pre as [|y pre]; simpl in E; injection E as -> ->.
        -- right. split; [exact Hpost | now rewrite Hc].
        -- left. now exists pre, post.
      * right. split; [intros y Hy; apply Hxs; now right|].
        now rewrite (Hxs x (or_introl eq_refl)).
Qed.

Variable re_match : str -> str -> bool.

Lemma graph_var_get_step (local_names : list str) (mappings : list dict)
  (t c : str) (d : dict) :
  dict_get t
    (fold_left (fun d local_var_name =>
       fold_left (fun d mapping =>
         if _match_ckpt_to_local_var_name re_match c local_var_name mapping
         then dict_set local_var_name c d
         else d)
         mappings d)
       local_names d)
  = if existsb (eqb_str t) local_names && matches_any re_match mappings c t
    then Ok c else dict_get t d.
Proof.
  rewrite dict_get_fold with
    (P := fun l => eqb_str l t && matches_any re_match mappings c l) (v := c).
  - assert (E : existsb (fun l => eqb_str l t
                                  && matches_any re_match mappings c l)
                  local_names
                = existsb (eqb_str t) local_names
                  && matches_any re_match mappings c t).
    { induction local_names as [|l ls IH]; cbn [existsb]; [reflexivity|].
      rewrite IH. destruct (eqb_str l t) eqn:E1.
      - apply eqb_str_true in E1. subst l. rewrite eqb_str_refl.
        destruct (matches_any re_match mappings c t);
          destruct (existsb (eqb_str t) ls); reflexivity.
      - destruct (eqb_str t l) eqn:E2; [|reflexivity].
        apply eqb_str_true in E2. subst l. now rewrite eqb_str_refl in E1. }
    now rewrite E.
  - clear d. intros d l.
    rewrite dict_get_fold with
      (P := fun m => eqb_str l t
                     && _match_ckpt_to_local_var_name re_match c l m) (v := c).
    + unfold matches_any.
      assert (E : forall ms,
                existsb (fun m => eqb_str l t
                   && _match_ckpt_to_local_var_name re_match c l m) ms
                = eqb_str l t
                  && existsb (_match_ckpt_to_local_var_name re_match c l) ms).
      { induction ms as [|m ms IH]; simpl; [now rewrite andb_false_r|].
        rewrite IH. now destruct (eqb_str l t). }
      now rewrite E.
    + clear d. intros d m.
      destruct (_match_ckpt_to_local_var_name re_match c l m).
      * rewrite dict_get_set. now rewrite andb_true_r.
      * now rewrite andb_false_r.
Qed.

Lemma graph_var_get (ckpt_names local_names : list str) (mappings : list dict)
  (t c : str) :
  dict_get t
    (build_graph_var_to_ckpt_var re_match ckpt_names local_names mappings)
  = Ok c
  <-> In t local_names
      /\ exists pre post,
           ckpt_names = pre ++ c :: post
           /\ matches_any re_match mappings c t = true
           /\ forall c', In c' post -> matches_any re_match mappings c' t = false.
Proof.
  unfold build_graph_var_to_ckpt_var.
  rewrite dict_get_fold_last with
    (Q := fun c => existsb (eqb_str t) local_names
                   && matches_any re_match mappings c t);
    [|intros d x; apply graph_var_get_step].
  assert (Hin : existsb (eqb_str t) local_names = true <-> In t local_names).
  { rewrite existsb_exists. split.
    - intros (l & Hl & E). apply eqb_str_true in E. now subst l.
    - intros H. exists t. split; [exact H | apply eqb_str_refl]. }
  split.
  - intros [(pre & post & E & Hc & Hpost)|[_ H]]; [|discriminate H].
    apply andb_true_iff in Hc as [Ht Hc]. split; [now apply Hin|].
    exists pre, post. repeat split; try assumption.
    intros c' Hc'. specialize (Hpost c' Hc'). now rewrite Ht in Hpost.
  - intros (Ht & pre & post & E & Hc & Hpost). left. exists pre, post.
    apply Hin in Ht. rewrite Ht, Hc. repeat split; [exact E|].
    intros x Hx. simpl. now apply Hpost.
Qed.

End IndexLookup.

(** X1. When several checkpoint names match a variable of the current
    model, the one listed last in the checkpoint wins: [mapping_fn] returns
    [c] for [t] exactly when [t] is a name of the current model, [c] is a
    checkpoint name that matches [t] under some mapping, and no checkpoint
    name listed after [c] matches [t]. *)
Theorem mapping_fn_last_match_wins
  (re_match : str -> str -> bool) (ckpt_names local_names : list str)
  (mappings : list dict) (t c : str) :
  mapping_fn
    (build_graph_var_to_ckpt_var re_match ckpt_names local_names mappings) t
  = Ok c
  <-> In t local_names
      /\ exists pre post,
           ckpt_names = pre ++ c :: post
           /\ matches_any re_match mappings c t = true
           /\ forall c', In c' post -> matches_any re_match mappings c' t = false.
Proof. apply graph_var_get. Qed.

Section IndexCallers.

(** The dictionary of [flexible_ckpt_init_mapping] is the one the three
    loops fill, for the mappings of the sub-trees. *)
Lemma flexible_ok_inv (ckpt_names local_names : list str)
  (new_layers : option (list (list Z))) (index : dict) :
  flexible_ckpt_init_mapping ckpt_names local_names new_layers = Ok index ->
  exists mappings,
    index = build_graph_var_to_ckpt_var re_match_str ckpt_names local_names
              mappings.
Proof.
  unfold flexible_ckpt_init_mapping.
  destruct (_compute_num_blocks_and_layer ckpt_names) as [cb cl].
  destruct (_compute_num_blocks_and_layer local_names) as [lb ll].
  match goal with
  | |- bind ?m _ = _ -> _ => destruct m as [mappings|e]
  end; cbn [bind]; [|discriminate].
  intros H. injection H as <-. now exists mappings.
Qed.

(** A pair that matches: equal names, or two layer variables with the same
    leaf name. *)
Lemma match_shape (re_match : str -> str -> bool) (c t : str) (m : dict) :
  _match_ckpt_to_local_var_name re_match c t m = true ->
  c = t
  \/ (contains (lit "layer") c = true /\ contains (lit "layer") t = true
      /\ leaf_name c = leaf_name t).
Proof.
  unfold _match_ckpt_to_local_var_name.
  destruct (contains (lit "layer") c); cbn [negb orb];
    [|intros H; left; now apply eqb_str_true].
  destruct (contains (lit "layer") t); cbn [negb orb];
    [|intros H; left; now apply eqb_str_true].
  destruct (eqb_str (leaf_name c) (leaf_name t)) eqn:E; cbn [negb];
    [|discriminate].
  intros _. right. apply eqb_str_true in E. now repeat split.
Qed.

End IndexCallers.

(** X2. With no function configured, [should_load_variable] accepts every
    variable and [init_checkpoint_variable_mapping] keeps its name.  With
    the two functions of one [flexible_ckpt_init_mapping] index, a variable
    that [should_load_variable] accepts is mapped to a name of the
    checkpoint, and a variable it rejects makes the mapping raise
    KeyError. *)
Theorem should_load_agrees_with_mapping
  (ckpt_names local_names : list str) (new_layers : option (list (list Z)))
  (index : dict) (v : str) :
  flexible_ckpt_init_mapping ckpt_names local_names new_layers = Ok index ->
  (should_load_variable v None = true
   /\ init_checkpoint_variable_mapping v None = Ok v)
  /\ (should_load_variable v (Some (filter_fn index)) = true ->
      exists c, init_checkpoint_variable_mapping v (Some (mapping_fn index))
                = Ok c
                /\ In c ckpt_names /\ In v local_names)
  /\ (should_load_variable v (Some (filter_fn index)) = false ->
      init_checkpoint_variable_mapping v (Some (mapping_fn index))
      = Raise (KeyError v)).
Proof.
  intros H. apply flexible_ok_inv in H as (mappings & ->).
  split; [now split|]. cbn [should_load_variable init_checkpoint_variable_mapping].
  unfold filter_fn, mapping_fn. split.
  - intros Hmem. apply dict_get_mem in Hmem as (c & E). exists c.
    split; [exact E|].
    apply graph_var_get in E as (Hv & pre & post & -> & _).
    split; [|exact Hv]. apply in_or_app. right. now left.
  - apply dict_get_mem.
Qed.

Lemma should_load_agrees_with_mapping_witness :
  exists index,
    flexible_ckpt_init_mapping
      [lit "layer_000/w"; lit "layer_001/w"; lit "global_step"]
      [lit "layer_000/w"; lit "layer_001/w"; lit "layer_002/w";
       lit "global_step"]
      (Some [[1]])
    = Ok index
    /\ init_checkpoint_variable_mapping (lit "layer_002/w")
         (Some (mapping_fn index)) = Ok (lit "layer_001/w")
    /\ init_checkpoint_variable_mapping (lit "layer_001/w")
         (Some (mapping_fn index)) = Raise (KeyError (lit "layer_001/w")).
Proof.
  eexists. split; [reflexivity|]. split; [reflexivity|].
  refine (proj2 (proj2 (@should_load_agrees_with_mapping
    [lit "layer_000/w"; lit "layer_001/w"; lit "global_step"]
    [lit "layer_000/w"; lit "layer_001/w"; lit "layer_002/w"; lit "global_step"]
    (Some [[1]]) _ (lit "layer_001/w") eq_refl)) eq_refl).
Defined.

(** X3. A variable is only ever mapped to a checkpoint variable of the
    same name or, for two names that both contain [layer], of the same
    leaf name (the last [/]-separated segment): the index never pairs a
    [.../kernel] with a [.../bias]. *)
Theorem mapping_keeps_leaf_name
  (ckpt_names local_names : list str) (new_layers : option (list (list Z)))
  (index : dict) (t c : str) :
  flexible_ckpt_init_mapping ckpt_names local_names new_layers = Ok index ->
  mapping_fn index t = Ok c ->
  In c ckpt_names /\ In t local_names
  /\ (c = t
      \/ (contains (lit "layer") c = true /\ contains (lit "layer") t = true
          /\ leaf_name c = leaf_name t)).
Proof.
  intros H E. apply flexible_ok_inv in H as (mappings & ->).
  apply graph_var_get in E as (Ht & pre & post & -> & Hm & _).
  split; [apply in_or_app; right; now left|]. split; [exact Ht|].
  unfold matches_any in Hm. apply existsb_exists in Hm as (m & _ & Hm).
  now apply match_shape in Hm.
Qed.

Lemma mapping_keeps_leaf_name_witness :
  let ckpt_names := [lit "layer_000/kernel"; lit "layer_000/bias";
                     lit "layer_001/kernel"; lit "layer_001/bias"] in
  let local_names := [lit "layer_000/bias"; lit "layer_001/bias";
                      lit "layer_002/bias"] in
  exists index,
    flexible_ckpt_init_mapping ckpt_names local_names (Some [[1]]) = Ok index
    /\ mapping_fn index (lit "layer_002/bias") = Ok (lit "layer_001/bias")
    /\ (In (lit "layer_001/bias") ckpt_names
        /\ In (lit "layer_002/bias") local_names
        /\ (lit "layer_001/bias" = lit "layer_002/bias"
            \/ (contains (lit "layer") (lit "layer_001/bias") = true
                /\ contains (lit "layer") (lit "layer_002/bias") = true
                /\ leaf_name (lit "layer_001/bias")
                   = leaf_name (lit "layer_002/bias")))).
Proof.
  cbv zeta. eexists. split; [reflexivity|]. split; [reflexivity|].
  exact (@mapping_keeps_leaf_name
           [lit "layer_000/kernel"; lit "layer_000/bias";
            lit "layer_001/kernel"; lit "layer_001/bias"]
           [lit "layer_000/bias"; lit "layer_001/bias"; lit "layer_002/bias"]
           (Some [[1]]) _ (lit "layer_002/bias") (lit "layer_001/bias")
           eq_refl eq_refl).
Defined.

(** ** The size of a correspondence *)

Section BuilderCount.




End BuilderCount.



(** ** The inferred counts *)

Section InferredCounts.

Lemma digit_val_range (c : ascii) : is_digit c = true -> 0 <= digit_val c <= 9.
Proof.
  unfold is_digit, digit_val. cbv zeta. intros H.
  apply andb_true_iff in H as [H1 H2].
  apply Nat.leb_le in H1, H2. lia.
Qed.

Lemma int_of_three_digits (d : str) :
  List.length d = 3%nat -> forallb is_digit d = true ->
  0 <= int_of_digits d <= 999.
Proof.
  intros Hl Hd. destruct d as [|a [|b [|c [|? ?]]]]; try discriminate Hl.
  cbn [forallb] in Hd.
  apply andb_true_iff in Hd as [Ha Hd]. apply andb_true_iff in Hd as [Hb Hd].
  apply andb_true_iff in Hd as [Hc _].
  apply digit_val_range in Ha, Hb, Hc.
  unfold int_of_digits. cbn [fold_left]. lia.
Qed.

Lemma counts_token_range (token : string) (names : list str) (n : Z) :
  counts_token token names n -> 1 <= n <= 1000.
Proof.
  intros (name & d & _ & Hl & Hd & _ & ->).
  pose proof (int_of_three_digits d Hl Hd). lia.
Qed.

Lemma digits_differ (c0 : ascii) (d : str) :
  is_digit c0 = false -> forallb is_digit d = true ->
  forallb (fun c => negb (Ascii.eqb c c0)) d = true.
Proof.
  intros H0. induction d as [|c d IH]; simpl; [reflexivity|].
  intros H. apply andb_true_iff in H as [Hc Hd]. rewrite IH by exact Hd.
  destruct (Ascii.eqb_spec c c0) as [->|]; [congruence | reflexivity].
Qed.

(** Two tokens of one kind cannot overlap when the first character of the
    literal occurs nowhere else in it, so [findall] reports every one. *)
Lemma findall_numbered_complete (token : string) (c0 : ascii) (rest : str)
  (pre d post : str) (skip : nat) :
  lit token = c0 :: rest -> is_digit c0 = false ->
  forallb (fun c => negb (Ascii.eqb c c0)) rest = true ->
  List.length d = 3%nat -> forallb is_digit d = true ->
  (skip <= List.length pre)%nat ->
  forallb (fun c => negb (Ascii.eqb c c0)) (firstn skip pre) = true ->
  In d (findall_go (numbered token) skip (pre ++ lit token ++ d ++ post)).
Proof.
  intros Htok H0 Hrest Hl Hd. revert skip.
  induction pre as [|c pre IH]; intros skip Hskip Hno.
  - destruct skip; [|simpl in Hskip; lia]. cbn [app]. rewrite findall_go_0.
    unfold Re.re_match. rewrite run_numbered_app by assumption. now left.
  - destruct skip as [|k].
    + cbn [app]. rewrite findall_go_0.
      destruct (Re.re_match (numbered token) (c :: pre ++ lit token ++ d ++ post))
        as [m|] eqn:E.
      * right.
        apply re_match_numbered in E as (d' & rest' & E & Hl' & Hd' & _ & ->).
        rewrite Htok in E |- *.
        assert (E2 : pre ++ c0 :: (rest ++ d ++ post) = (rest ++ d') ++ rest')
          by (rewrite <- app_assoc; injection E as _ E; exact E).
        apply prefix_before in E2 as [Hlen Hfirst].
        -- change ((c0 :: rest) ++ d ++ post) with (c0 :: rest ++ d ++ post).
           rewrite <- Htok at 1. rewrite Htok.
           replace (Nat.pred (List.length (c0 :: rest) + 3))
             with (List.length (rest ++ d'))
             by (rewrite length_app, Hl'; simpl; lia).
           change (c0 :: rest ++ d ++ post) with ((c0 :: rest) ++ d ++ post).
           rewrite <- Htok. apply IH; [exact Hlen|].
           rewrite Hfirst, forallb_app, Hrest. now apply digits_differ.
        -- rewrite forallb_app, Hrest. now apply digits_differ.
      * apply IH; [lia | reflexivity].
    + cbn [app findall_go]. simpl in Hskip, Hno.
      apply andb_true_iff in Hno as [_ Hno]. apply IH; [lia | exact Hno].
Qed.

Lemma get_max_counts_token (token : string) (c0 : ascii) (rest : str)
  (names : list str) (name d : str) :
  lit token = c0 :: rest -> is_digit c0 = false ->
  forallb (fun c => negb (Ascii.eqb c c0)) rest = true ->
  In name names -> List.length d = 3%nat -> forallb is_digit d = true ->
  contains (lit token ++ d) name = true ->
  int_of_digits d + 1 <= get_max_layer_or_block_num (numbered token) names.
Proof.
  intros Htok H0 Hrest Hin Hl Hd Hc.
  apply contains_iff in Hc as (pre & post & ->).
  apply get_max_ge with (name := pre ++ (lit token ++ d) ++ post); [exact Hin|].
  rewrite <- app_assoc.
  apply (@findall_numbered_complete token c0 rest pre d post 0);
    try assumption; [lia | reflexivity].
Qed.

(** Every count comes from a 3-digit token. *)
Lemma inferred_counts_sound (names : list str) :
  (forall n, In n (snd (_compute_num_blocks_and_layer names)) ->
     n = -1 \/ counts_token "layer_" names n)
  /\ (forall b, In b (fst (_compute_num_blocks_and_layer names)) ->
       b = None \/ exists n, b = Some n /\ counts_token "block_" names n).
Proof.
  split.
  - intros n Hn. rewrite compute_shape in Hn. cbv zeta in Hn.
    destruct (encoder_decoder_model names); simpl in Hn;
      repeat (destruct Hn as [<-|Hn]; [apply get_max_counts; simpl; auto|]);
      contradiction.
  - assert (G : forall r, In r (token_regexes "block_") ->
              let n := get_max_layer_or_block_num r names in
              (if negb (n =? -1) then Some n else None) = None
              \/ exists n', (if negb (n =? -1) then Some n else None) = Some n'
                            /\ counts_token "block_" names n').
    { intros r Hr n. destruct (@get_max_counts "block_" r names Hr) as [E|C].
      - left. fold n in E. now rewrite E.
      - fold n in C. destruct (negb (n =? -1)); [right | now left].
        now exists n. }
    intros b Hb. rewrite compute_shape in Hb. cbv zeta in Hb.
    destruct (encoder_decoder_model names); simpl in Hb;
      repeat (destruct Hb as [<-|Hb]; [apply G; simpl; auto|]);
      contradiction.
Qed.

End InferredCounts.

(** X5. The two lists that StructureInferer returns have the same length,
    2 when some name starts with [encoder/] and 1 otherwise; every layer
    count is -1 or lies between 1 and 1000, and every block count is
    [None] or lies between 1 and 1000: a count is never 0. *)
Theorem inferred_counts_range (names : list str) :
  List.length (fst (_compute_num_blocks_and_layer names))
  = List.length (snd (_compute_num_blocks_and_layer names))
  /\ List.length (snd (_compute_num_blocks_and_layer names))
     = (if encoder_decoder_model names then 2 else 1)%nat
  /\ (forall n, In n (snd (_compute_num_blocks_and_layer names)) ->
        n = -1 \/ 1 <= n <= 1000)
  /\ (forall b, In b (fst (_compute_num_blocks_and_layer names)) ->
        b = None \/ exists n, b = Some n /\ 1 <= n <= 1000).
Proof.
  pose proof (inferred_counts_sound names) as [L B].
  split; [|split; [|split]].
  - rewrite compute_shape. cbv zeta.
    now destruct (encoder_decoder_model names).
  - rewrite compute_shape. cbv zeta.
    now destruct (encoder_decoder_model names).
  - intros n Hn. destruct (L n Hn) as [E|C]; [now left | right].
    now apply counts_token_range in C.
  - intros b Hb. destruct (B b Hb) as [E|(n & E & C)]; [now left | right].
    exists n. split; [exact E|]. now apply counts_token_range in C.
Qed.

(** X6. In a single-stack model (no name starts with [encoder/]) every
    3-digit token is counted: a name that contains [layer_NNN] makes the
    inferred number of layers at least NNN + 1, and a name that contains
    [block_NNN] makes the inferred number of blocks at least NNN + 1. *)
Theorem single_stack_counts_every_token
  (names : list str) (name d : str) :
  encoder_decoder_model names = false -> In name names ->
  List.length d = 3%nat -> forallb is_digit d = true ->
  (contains (lit "layer_" ++ d) name = true ->
   exists n, snd (_compute_num_blocks_and_layer names) = [n]
             /\ int_of_digits d + 1 <= n)
  /\ (contains (lit "block_" ++ d) name = true ->
      exists n, fst (_compute_num_blocks_and_layer names) = [Some n]
                /\ int_of_digits d + 1 <= n).
Proof.
  intros Hed Hin Hl Hd. rewrite compute_shape. cbv zeta. rewrite Hed.
  cbn [fst snd]. split; intros Hc.
  - eexists. split; [reflexivity|].
    now apply (@get_max_counts_token "layer_" "l" (lit "ayer_") names name d).
  - pose proof (@get_max_counts_token "block_" "b" (lit "lock_") names name d
                  eq_refl eq_refl eq_refl Hin Hl Hd Hc) as G.
    pose proof (int_of_three_digits d Hl Hd) as R.
    exists (get_max_layer_or_block_num (numbered "block_") names).
    split; [|exact G].
    destruct (Z.eqb_spec (get_max_layer_or_block_num (numbered "block_") names)
                (-1)) as [E|N]; [lia | reflexivity].
Qed.

Lemma single_stack_counts_every_token_witness :
  let names := [lit "block_001/layer_004/kernel"; lit "embedding"] in
  (exists n, snd (_compute_num_blocks_and_layer names) = [n] /\ 4 + 1 <= n)
  /\ (exists n, fst (_compute_num_blocks_and_layer names) = [Some n]
                /\ 1 + 1 <= n).
Proof.
  cbv zeta. split.
  - exact (proj1 (@single_stack_counts_every_token
                    [lit "block_001/layer_004/kernel"; lit "embedding"]
                    (lit "block_001/layer_004/kernel") (lit "004")
                    eq_refl (or_introl eq_refl) eq_refl eq_refl) eq_refl).
  - exact (proj2 (@single_stack_counts_every_token
                    [lit "block_001/layer_004/kernel"; lit "embedding"]
                    (lit "block_001/layer_004/kernel") (lit "001")
                    eq_refl (or_introl eq_refl) eq_refl eq_refl) eq_refl).
Defined.

(** ** More on get_step_from_checkpoint_path *)

Section StepCodecMore.









End StepCodecMore.




(** ** More on get_checkpoint_iterator *)

Section ResolverMore.

Variable st : storage.
Variable set_iter : list Z -> list Z.
Variables (model_dir : str) (skip_until : Z) (stop_after : option Z).

Lemma set_iter_nil : set_iter_ok set_iter -> set_iter [] = [].
Proof.
  intros H. destruct (H []) as [_ Hin].
  destruct (set_iter []) as [|x l]; [reflexivity|].
  destruct (proj1 (Hin x) (or_introl eq_refl)).
Qed.

Lemma get_closest_empty (target : Z) :
  set_iter_ok set_iter -> scan_steps (listdir st model_dir) = [] ->
  _get_closest_checkpoint st set_iter model_dir target
  = Raise NoCheckpointFilesFound.
Proof.
  intros Hset E. unfold _get_closest_checkpoint.
  now rewrite E, set_iter_nil.
Qed.

Lemma drain_polled_spec (polled ys : list str) (e : ending) :
  drain_polled skip_until polled = (ys, e) ->
  e <> Exhausted
  /\ Forall (fun p => exists s, get_step_from_checkpoint_path p = Ok s
                                /\ skip_until < s) ys.
Proof.
  revert ys e. induction polled as [|p polled IH]; intros ys e; simpl.
  - intros H. injection H as <- <-. split; [discriminate | constructor].
  - unfold _filter_fn.
    destruct (get_step_from_checkpoint_path p) as [s|err] eqn:Ep; cbn [bind].
    + destruct (drain_polled skip_until polled) as [ys' e'].
      destruct (IH ys' e' eq_refl) as [He Hys].
      destruct (Z.gtb_spec s skip_until) as [Hgt|Hle];
        intros H; injection H as <- <-; (split; [exact He|]).
      * constructor; [|exact Hys]. exists s. split; [exact Ep | lia].
      * exact Hys.
    + intros H. injection H as <- <-. split; [discriminate | constructor].
Qed.

Lemma generate_spec (ceiling : Z) (polled ys : list str) (e : ending) :
  _generate_checkpoints skip_until ceiling polled = (ys, e) ->
  Forall (fun p => exists s, get_step_from_checkpoint_path p = Ok s
                             /\ skip_until < s <= ceiling) ys
  /\ (e = Exhausted ->
      exists p s, In p polled /\ get_step_from_checkpoint_path p = Ok s
                  /\ skip_until < s /\ ceiling <= s).
Proof.
  revert ys e. induction polled as [|p polled IH]; intros ys e; simpl.
  - intros H. injection H as <- <-. split; [constructor | discriminate].
  - unfold _filter_fn.
    destruct (get_step_from_checkpoint_path p) as [s|err] eqn:Ep; cbn [bind].
    + destruct (Z.gtb_spec s skip_until) as [Hgt|Hle].
      * destruct (Z.geb_spec s ceiling) as [Hge|Hlt].
        -- intros H. injection H as <- <-. split.
           ++ destruct (Z.leb_spec s ceiling); [|constructor].
              constructor; [|constructor]. exists s. split; [exact Ep | lia].
           ++ intros _. exists p, s. split; [now left|]. split; [exact Ep|]. lia.
        -- destruct (_generate_checkpoints skip_until ceiling polled)
             as [ys' e'].
           destruct (IH ys' e' eq_refl) as [Hys He].
           intros H. injection H as <- <-. split.
           ++ destruct (Z.leb_spec s ceiling); [|lia]. cbn [app].
              constructor; [|exact Hys]. exists s. split; [exact Ep | lia].
           ++ intros Hx. destruct (He Hx) as (q & t & Hq & Hrest).
              exists q, t. split; [now right | exact Hrest].
      * intros H. destruct (IH ys e H) as [Hys He]. split; [exact Hys|].
        intros Hx. destruct (He Hx) as (q & t & Hq & Hrest).
        exists q, t. split; [now right | exact Hrest].
    + intros H. injection H as <- <-. split; [constructor | discriminate].
Qed.

End ResolverMore.

(** X9. In closest mode a directory in which no file name carries a step
    makes the resolver raise "No checkpoint files found", for a single
    requested step and for a non-empty list of steps; for an empty list of
    steps it returns no identifier and does not raise. *)
Theorem closest_mode_empty_directory
  (st : storage) (set_iter : list Z -> list Z) (model_dir : str)
  (skip_until : Z) (stop_after : option Z) (step : Z) (steps : list Z) :
  set_iter_ok set_iter -> scan_steps (listdir st model_dir) = [] ->
  step <> -1 ->
  get_checkpoint_iterator st set_iter model_dir skip_until stop_after true
    (SelInt step) = Raise NoCheckpointFilesFound
  /\ get_checkpoint_iterator st set_iter model_dir skip_until stop_after true
       (SelList (step :: steps)) = Raise NoCheckpointFilesFound
  /\ get_checkpoint_iterator st set_iter model_dir skip_until stop_after true
       (SelList []) = Ok (Paths [] Exhausted).
Proof.
  intros Hset Hempty Hstep. cbn [get_checkpoint_iterator map_result].
  rewrite (@get_closest_empty st set_iter model_dir step Hset Hempty).
  destruct (Z.eqb_spec step (-1)); [contradiction|]. now repeat split.
Qed.

Lemma closest_mode_empty_directory_witness :
  get_checkpoint_iterator
    {| listdir := fun _ => [lit "checkpoint"; lit "events.out.tfevents"];
       glob := fun _ => [];
       checkpoint_exists := fun _ => false;
       latest_checkpoint := fun _ => None;
       checkpoints_iterator := fun _ => [] |}
    (nodup Z.eq_dec) (lit "d") 0 None true (SelInt 100)
  = Raise NoCheckpointFilesFound.
Proof.
  refine (proj1 (@closest_mode_empty_directory
                   {| listdir := fun _ => [lit "checkpoint";
                                           lit "events.out.tfevents"];
                      glob := fun _ => [];
                      checkpoint_exists := fun _ => false;
                      latest_checkpoint := fun _ => None;
                      checkpoints_iterator := fun _ => [] |}
                   (nodup Z.eq_dec) (lit "d")
                   0 None 100 [] set_iter_ok_nodup _ _)).
  - vm_compute. reflexivity.
  - discriminate.
Defined.



(** X11. In continuous mode every identifier that is yielded has a step
    above the floor, and with a ceiling a step at or below the ceiling.
    Without a ceiling the sequence never ends of its own accord; with a
    ceiling it ends only when an identifier above the floor and at or above
    the ceiling has been polled. *)
Theorem continuous_mode_yields_within_bounds
  (st : storage) (set_iter : list Z -> list Z) (model_dir : str)
  (skip_until : Z) (stop_after : option Z) (find_closest : bool)
  (ys : list str) (e : ending) :
  get_checkpoint_iterator st set_iter model_dir skip_until stop_after
    find_closest SelNone = Ok (Paths ys e) ->
  Forall (fun p => exists s, get_step_from_checkpoint_path p = Ok s
                             /\ skip_until < s
                             /\ match stop_after with
                                | Some ceiling => s <= ceiling
                                | None => True
                                end) ys
  /\ (e = Exhausted ->
      exists ceiling p s,
        stop_after = Some ceiling
        /\ In p (checkpoints_iterator st model_dir)
        /\ get_step_from_checkpoint_path p = Ok s
        /\ skip_until < s /\ ceiling <= s).
Proof.
  cbn [get_checkpoint_iterator]. destruct stop_after as [ceiling|].
  - destruct (_generate_checkpoints skip_until ceiling
                (checkpoints_iterator st model_dir)) as [ys' e'] eqn:E.
    intros H. injection H as <- <-.
    apply generate_spec in E as [Hys He]. split.
    + eapply Forall_impl; [|exact Hys].
      intros p (s & Hs & Hb). exists s. repeat split; [exact Hs | lia | lia].
    + intros Hx. destruct (He Hx) as (p & s & Hrest). now exists ceiling, p, s.
  - destruct (drain_polled skip_until (checkpoints_iterator st model_dir))
      as [ys' e'] eqn:E.
    intros H. injection H as <- <-.
    apply drain_polled_spec in E as [He Hys]. split.
    + eapply Forall_impl; [|exact Hys].
      intros p (s & Hs & Hb). exists s. now repeat split.
    + intros Hx. contradiction.
Qed.

Lemma continuous_mode_yields_within_bounds_witness :
  Forall (fun p => exists s, get_step_from_checkpoint_path p = Ok s
                             /\ 10 < s /\ s <= 20) [lit "d/model.ckpt-20"].
Proof.
  exact (proj1 (@continuous_mode_yields_within_bounds example_storage
                  (nodup Z.eq_dec) (lit "d") 10 (Some 20) true
                  [lit "d/model.ckpt-20"] Exhausted eq_refl)).
Defined.



(** ** Batch sizes *)

Section BatchSizeProperties.

Variables mesh_shape_t layout_rules_t : Type.
Variable mesh_dim_size size_per_split :
  layout_rules_t -> mesh_shape_t -> Dimension -> outcome Z.

Lemma checkdiv_spec (a b n : Z) :
  checkdiv a b = Return n <-> b <> 0 /\ a = n * b.
Proof.
  unfold checkdiv, py_mod, py_floordiv.
  destruct (Z.eqb_spec b 0) as [->|Hb]; cbn [obind].
  - split; [discriminate | now intros [[] _]].
  - destruct (Z.eqb_spec (a mod b) 0) as [Hr|Hr]; cbn [negb].
    + split.
      * intros H. injection H as <-. split; [exact Hb|].
        rewrite (Z.div_mod a b Hb) at 1. rewrite Hr. lia.
      * intros [_ ->]. f_equal. now apply Z.div_mul.
    + split; [discriminate|]. intros [_ ->].
      now rewrite Z.mod_mul in Hr.
Qed.

Lemma checkdiv_error (a b : Z) :
  (exists n, checkdiv a b = Return n)
  \/ (b = 0 /\ checkdiv a b = Throw ZeroDivisionError)
  \/ (b <> 0 /\ a mod b <> 0 /\ checkdiv a b = Throw (NotDivisible a b)).
Proof.
  unfold checkdiv, py_mod, py_floordiv.
  destruct (Z.eqb_spec b 0) as [->|Hb]; cbn [obind].
  - right; left. now split.
  - destruct (Z.eqb_spec (a mod b) 0) as [Hr|Hr]; cbn [negb].
    + left. now eexists.
    + right; right. now repeat split.
Qed.

Lemma decrease_spec (b : Z) (fuel : nat) (m0 : Z) :
  1 <= m0 -> (Z.to_nat m0 <= fuel)%nat ->
  exists m, decrease_microbatch_size fuel b m0 = Some (Return m)
            /\ 1 <= m <= m0 /\ b mod m = 0
            /\ forall m', m < m' <= m0 -> b mod m' <> 0.
Proof.
  revert m0. induction fuel as [|fuel IH]; intros m0 H1 Hfuel; [lia|].
  cbn [decrease_microbatch_size]. unfold py_mod.
  destruct (Z.eqb_spec m0 0) as [?|_]; [lia|].
  destruct (Z.eqb_spec (b mod m0) 0) as [Hr|Hr]; cbn [negb].
  - exists m0. repeat split; try lia.
  - assert (m0 <> 1) by (intros ->; now rewrite Z.mod_1_r in Hr).
    destruct (IH (m0 - 1)) as (m & E & Hm & Hd & Hmax); [lia | lia |].
    exists m. repeat split; try assumption; try lia.
    intros m' Hm'. destruct (Z.eq_dec m' m0) as [->|]; [exact Hr|].
    apply Hmax. lia.
Qed.

End BatchSizeProperties.

(** X13. When the token budget is neither absent nor zero and the longest
    sequence length is not zero, the loop of
    [serialize_num_microbatches] ends within [max(1, tokens // longest)]
    rounds, and the function returns the batch per replica divided by the
    largest divisor of it that does not exceed [max(1, tokens // longest)]:
    no larger microbatch size within the budget divides the batch. *)
Theorem serialize_num_microbatches_largest_divisor
  (mesh_shape_t layout_rules_t : Type)
  (size_per_split : layout_rules_t -> mesh_shape_t -> Dimension -> outcome Z)
  (fuel : nat) (batch_dim : Dimension) (sequence_length : lengths)
  (mesh_shape : mesh_shape_t) (layout_rules : layout_rules_t)
  (tokens batch_per_replica longest : Z) :
  tokens <> 0 ->
  size_per_split layout_rules mesh_shape batch_dim = Return batch_per_replica ->
  max_values sequence_length = Return longest ->
  longest <> 0 ->
  (Z.to_nat (Z.max 1 (tokens / longest)) <= fuel)%nat ->
  exists num_microbatches microbatch_size,
    serialize_num_microbatches size_per_split fuel batch_dim sequence_length
      mesh_shape layout_rules (Some tokens) = Some (Return num_microbatches)
    /\ 1 <= microbatch_size <= Z.max 1 (tokens / longest)
    /\ batch_per_replica = num_microbatches * microbatch_size
    /\ forall m, microbatch_size < m <= Z.max 1 (tokens / longest) ->
                 batch_per_replica mod m <> 0.
Proof.
  intros Ht Hb HL HL0 Hfuel. unfold serialize_num_microbatches.
  destruct tokens as [|t|t]; [contradiction| |];
    rewrite Hb, HL; cbn [obind]; unfold py_floordiv at 1;
    (destruct (Z.eqb_spec longest 0) as [?|_]; [contradiction|]);
    cbn [obind];
    (destruct (@decrease_spec batch_per_replica fuel _ (Z.le_max_l 1 _) Hfuel)
       as (m & -> & Hm & Hd & Hmax));
    unfold py_floordiv; (destruct (Z.eqb_spec m 0) as [?|Hm0]; [lia|]);
    exists (batch_per_replica / m), m;
    (repeat split; try assumption; try lia);
    rewrite (Z.div_mod batch_per_replica m Hm0) at 1; rewrite Hd; lia.
Qed.

Lemma serialize_num_microbatches_largest_divisor_witness :
  exists n m,
    serialize_num_microbatches (fun (_ _ : unit) d => Return (dim_size d)) 5
      {| dim_name := lit "batch"; dim_size := 12 |}
      (LenDict [(lit "inputs", 512); (lit "targets", 128)]) tt tt (Some 2600)
    = Some (Return n)
    /\ 1 <= m <= Z.max 1 (2600 / 512)
    /\ 12 = n * m
    /\ forall m', m < m' <= Z.max 1 (2600 / 512) -> 12 mod m' <> 0.
Proof.
  refine (@serialize_num_microbatches_largest_divisor unit unit
            (fun _ _ d => Return (dim_size d)) 5
            {| dim_name := lit "batch"; dim_size := 12 |}
            (LenDict [(lit "inputs", 512); (lit "targets", 128)]) tt tt
            2600 12 512 _ eq_refl eq_refl _ _).
  - discriminate.
  - discriminate.
  - vm_compute. lia.
Defined.

Ltac eval_methods :=
  repeat match goal with
         | |- context [eqb_str (lit ?a) (lit ?b)] =>
             let v := eval vm_compute in (eqb_str (lit a) (lit b)) in
             change (eqb_str (lit a) (lit b)) with v
         end;
  cbv iota.

(** X14. With a sequence-length dict whose largest value is [longest],
    [compute_batch_size] never rounds a token count: under
    "tokens_per_batch" it returns [n] exactly when [longest] is not zero and
    the value is [n * longest], and under "tokens_per_replica" exactly when
    the value is [q * longest] and [n] is [q] times the number of replicas;
    "sequences_per_replica" always returns the value times the number of
    replicas, and a method outside the four names raises. *)
Theorem compute_batch_size_exact
  (mesh_shape_t layout_rules_t : Type)
  (mesh_dim_size : layout_rules_t -> mesh_shape_t -> Dimension -> outcome Z)
  (sequence_length : lengths) (mesh_shape : mesh_shape_t)
  (layout_rules : layout_rules_t) (batch outer_batch longest value : Z) :
  mesh_dim_size layout_rules mesh_shape
    {| dim_name := lit "batch"; dim_size := 0 |} = Return batch ->
  mesh_dim_size layout_rules mesh_shape
    {| dim_name := lit "outer_batch"; dim_size := 0 |} = Return outer_batch ->
  max_values sequence_length = Return longest ->
  let run method :=
    compute_batch_size mesh_dim_size sequence_length mesh_shape layout_rules
      (lit method, value) in
  (forall n, run "tokens_per_batch"%string = Return n
             <-> longest <> 0 /\ value = n * longest)
  /\ (forall n, run "tokens_per_replica"%string = Return n
                <-> longest <> 0
                    /\ exists q, value = q * longest
                                 /\ n = q * (batch * outer_batch))
  /\ run "sequences_per_replica"%string = Return (value * (batch * outer_batch))
  /\ run "sequences_per_batch"%string = Return value
  /\ forall method,
       ~ In method ["sequences_per_batch"; "tokens_per_batch";
                    "sequences_per_replica"; "tokens_per_replica"]%string ->
       run method = Throw (UnknownMethod (lit method)).
Proof.
  intros Hb Ho HL run. subst run. unfold compute_batch_size.
  rewrite Hb, Ho, HL. cbn [obind].
  split; [|split; [|split; [|split]]].
  - intros n. eval_methods. apply checkdiv_spec.
  - intros n. eval_methods. split.
    + destruct (checkdiv value longest) as [q|e] eqn:E; [|discriminate].
      cbn [obind]. intros H. injection H as <-.
      apply checkdiv_spec in E as [HL0 ->]. split; [exact HL0|].
      now exists q.
    + intros (HL0 & q & -> & ->).
      now rewrite (proj2 (checkdiv_spec (q * longest) longest q)
                     (conj HL0 eq_refl)).
  - reflexivity.
  - reflexivity.
  - intros method Hnot.
    assert (Hne : forall m : string, In m
              ["sequences_per_batch"; "tokens_per_batch";
               "sequences_per_replica"; "tokens_per_replica"]%string ->
              eqb_str (lit method) (lit m) = false).
    { intros m Hm. unfold eqb_str.
      destruct (list_eq_dec ascii_dec (lit method) (lit m)) as [E|]; [|reflexivity].
      exfalso. apply Hnot.
      assert (method = m) as ->; [|exact Hm].
      rewrite <- (string_of_list_ascii_of_string method),
              <- (string_of_list_ascii_of_string m).
      unfold lit in E. now rewrite E. }
    rewrite !Hne by (simpl; tauto). reflexivity.
Qed.

Lemma compute_batch_size_exact_witness :
  compute_batch_size (fun (_ _ : unit) d =>
                        Return (if eqb_str (dim_name d) (lit "batch")
                                then 16 else 1))
    (LenDict [(lit "inputs", 1024); (lit "targets", 256)]) tt tt
    (lit "tokens_per_replica", 2048)
  = Return 32.
Proof.
  refine (proj2 (proj1 (proj2
            (@compute_batch_size_exact unit unit
               (fun _ _ d => Return (if eqb_str (dim_name d) (lit "batch")
                                     then 16 else 1))
               (LenDict [(lit "inputs", 1024); (lit "targets", 256)]) tt tt
               16 1 1024 2048 eq_refl eq_refl eq_refl)) 32) _).
  split; [discriminate|]. exists 2. split; reflexivity.
Defined.

(** ** Encoding of text lines *)

Lemma list_times_singleton (A : Type) (x : A) (n : Z) :
  list_times [x] n = repeat x (Z.to_nat n).
Proof.
  unfold list_times. induction (Z.to_nat n) as [|k IH]; [reflexivity|].
  cbn [repeat List.concat app]. now rewrite IH.
Qed.

Lemma length_fit_to_length (sequence_length : Z) (ids : list Z) :
  0 <= sequence_length ->
  Z.of_nat (List.length (fit_to_length sequence_length ids)) = sequence_length.
Proof.
  intros Hsl. unfold fit_to_length, slice_to.
  destruct (Z.gtb_spec (Z.of_nat (List.length ids)) sequence_length) as [Hgt|Hle].
  - destruct (Z.ltb_spec sequence_length 0); [lia|].
    rewrite length_firstn. lia.
  - rewrite length_app, list_times_singleton, repeat_length. lia.
Qed.

Lemma encode_lines_rows (vocabulary : vocabulary_arg) (model_type : str)
  (sequence_length eos_id : Z) (unscored_prefix : option (list str))
  (inputs : list str) (line_num : nat) :
  0 <= sequence_length ->
  match unscored_prefix with
  | Some (p :: ps) => (line_num + List.length inputs <= List.length (p :: ps))%nat
  | _ => True
  end ->
  exists rows,
    encode_lines vocabulary model_type sequence_length eos_id unscored_prefix
      line_num inputs = Return rows
    /\ List.length rows = List.length inputs
    /\ Forall (fun r => Z.of_nat (List.length r) = sequence_length) rows.
Proof.
  intros Hsl. revert line_num.
  induction inputs as [|line rest IH]; intros line_num Hp.
  - exists []. now repeat split.
  - cbn [encode_lines].
    assert (Hline : exists ids,
               encode_line vocabulary model_type sequence_length eos_id
                 unscored_prefix line_num line = Return ids
               /\ Z.of_nat (List.length ids) = sequence_length).
    { unfold encode_line. destruct unscored_prefix as [[|p ps]|].
      - cbn [obind]. eexists. split; [reflexivity|].
        now apply length_fit_to_length.
      - unfold list_item.
        destruct (nth_error (p :: ps) line_num) as [prefix|] eqn:E.
        + cbn [obind]. eexists. split; [reflexivity|].
          now apply length_fit_to_length.
        + apply nth_error_None in E. cbn [List.length] in Hp, E. lia.
      - cbn [obind]. eexists. split; [reflexivity|].
        now apply length_fit_to_length. }
    destruct Hline as (ids & -> & Hids). cbn [obind].
    destruct (IH (S line_num)) as (rows & -> & Hlen & Hall).
    { destruct unscored_prefix as [[|p ps]|]; [exact I | | exact I].
      cbn [List.length] in Hp |- *. lia. }
    cbn [obind]. exists (ids :: rows). split; [reflexivity|].
    split; [cbn [List.length]; now rewrite Hlen | now constructor].
Qed.

Lemma pad_to_batches_spec (n : nat) (batch_size sequence_length : Z)
  (first : list Z) (rest : list (list Z)) :
  0 < batch_size ->
  Forall (fun r => Z.of_nat (List.length r) = sequence_length) (first :: rest) ->
  exists rows,
    pad_to_batches n batch_size (first :: rest) = Return rows
    /\ Forall (fun r => Z.of_nat (List.length r) = sequence_length) rows
    /\ Z.of_nat (List.length rows)
       = Z.of_nat (List.length (first :: rest)) + (- Z.of_nat n) mod batch_size
    /\ firstn (List.length (first :: rest)) rows = first :: rest
    /\ Forall (eq first) (skipn (List.length (first :: rest)) rows).
Proof.
  intros Hbs Hall. unfold pad_to_batches, list_item, py_mod.
  cbn [nth_error obind].
  destruct (Z.eqb_spec batch_size 0); [lia|]. cbn [obind].
  eexists. split; [reflexivity|].
  rewrite list_times_singleton.
  pose proof (Z.mod_pos_bound (- Z.of_nat n) batch_size Hbs) as Hm.
  repeat split.
  - apply Forall_app. split; [exact Hall|].
    apply Forall_forall. intros r Hr. apply repeat_spec in Hr. subst r.
    now inversion Hall.
  - rewrite length_app, repeat_length. lia.
  - rewrite firstn_app, Nat.sub_diag, firstn_all. cbn [firstn].
    now rewrite app_nil_r.
  - rewrite skipn_app, Nat.sub_diag, skipn_all. cbn [skipn app].
    apply Forall_forall. intros r Hr. now apply repeat_spec in Hr.
Qed.

Lemma whole_batches (n batch_size : Z) :
  0 < batch_size -> (n + (- n) mod batch_size) mod batch_size = 0.
Proof.
  intros Hbs. rewrite Z.add_mod_idemp_r by lia.
  now rewrite Z.add_opp_diag_r, Z.mod_0_l by lia.
Qed.

(** X15. For at least one input line, a positive batch size, a sequence
    length that is not negative and, when a non-empty list of prefixes is
    given, one prefix for every line, [encode_inputs] hands [np.array] one
    row per line followed by copies of the first row: every row has
    [sequence_length] ids, and the number of rows is the least multiple of
    the batch size that is not below the number of lines. *)
Theorem encode_inputs_whole_batches
  (ndarray : Type) (np_array_int32 : list (list Z) -> outcome ndarray)
  (inputs : list str) (vocabulary : vocabulary_arg) (model_type : str)
  (batch_size sequence_length eos_id : Z)
  (unscored_prefix : option (list str)) :
  inputs <> [] -> 0 < batch_size -> 0 <= sequence_length ->
  match unscored_prefix with
  | Some (p :: ps) => (List.length inputs <= List.length (p :: ps))%nat
  | _ => True
  end ->
  exists rows encoded first,
    encode_inputs np_array_int32 inputs vocabulary model_type batch_size
      sequence_length eos_id unscored_prefix = np_array_int32 rows
    /\ encode_lines vocabulary model_type sequence_length eos_id
         unscored_prefix 0 inputs = Return encoded
    /\ List.length encoded = List.length inputs
    /\ firstn (List.length inputs) rows = encoded
    /\ nth_error rows 0 = Some first
    /\ Forall (eq first) (skipn (List.length inputs) rows)
    /\ Forall (fun r => Z.of_nat (List.length r) = sequence_length) rows
    /\ Z.of_nat (List.length rows) mod batch_size = 0
    /\ Z.of_nat (List.length inputs) <= Z.of_nat (List.length rows)
       < Z.of_nat (List.length inputs) + batch_size.
Proof.
  intros Hne Hbs Hsl Hp.
  destruct (@encode_lines_rows vocabulary model_type sequence_length eos_id
              unscored_prefix inputs 0 Hsl Hp) as (encoded & E & Hlen & Hall).
  destruct encoded as [|first rest].
  { destruct inputs; [contradiction | discriminate]. }
  destruct (@pad_to_batches_spec (List.length inputs) batch_size
              sequence_length first rest Hbs Hall)
    as (rows & Epad & Hrows & Hcount & Hfirstn & Hskipn).
  rewrite Hlen in Hcount, Hfirstn, Hskipn.
  pose proof (Z.mod_pos_bound (- Z.of_nat (List.length inputs)) batch_size Hbs).
  exists rows, (first :: rest), first.
  unfold encode_inputs, encode_inputs_rows. rewrite E. cbn [obind].
  rewrite Epad. cbn [obind].
  repeat split; try assumption; try lia.
  - destruct rows as [|r rows]; [|cbn [nth_error]].
    + destruct inputs; [contradiction | discriminate].
    + destruct inputs; [contradiction|]. cbn [List.length firstn] in Hfirstn.
      now injection Hfirstn as ->.
  - rewrite Hcount. now apply whole_batches.
Qed.

Lemma encode_inputs_whole_batches_witness :
  exists rows encoded first,
    encode_inputs (@Return (list (list Z)))
      [lit " ab "; lit "c"; lit ""]
      (OneVocabulary {| encode := map (fun c => Z.of_nat (nat_of_ascii c));
                        decode_ids := fun _ => [] |})
      (lit "lm") 2 3 1 None = Return rows
    /\ encode_lines
         (OneVocabulary {| encode := map (fun c => Z.of_nat (nat_of_ascii c));
                           decode_ids := fun _ => [] |})
         (lit "lm") 3 1 None 0 [lit " ab "; lit "c"; lit ""] = Return encoded
    /\ List.length encoded = 3%nat
    /\ firstn 3 rows = encoded
    /\ nth_error rows 0 = Some first
    /\ Forall (eq first) (skipn 3 rows)
    /\ Forall (fun r => Z.of_nat (List.length r) = 3) rows
    /\ Z.of_nat (List.length rows) mod 2 = 0
    /\ 3 <= Z.of_nat (List.length rows) < 3 + 2.
Proof.
  refine (@encode_inputs_whole_batches (list (list Z)) (@Return _)
            [lit " ab "; lit "c"; lit ""]
            (OneVocabulary {| encode := map (fun c => Z.of_nat (nat_of_ascii c));
                              decode_ids := fun _ => [] |})
            (lit "lm") 2 3 1 None _ _ _ I).
  - discriminate.
  - lia.
  - lia.
Defined.

(** X16. What [encode_inputs] raises: with no input line the padding step
    raises IndexError, whatever the batch size; with input lines, a
    sequence length that is not negative and prefixes for every line, a
    batch size of zero raises ZeroDivisionError; and a non-empty list of
    prefixes that is shorter than the list of lines raises IndexError. *)
Theorem encode_inputs_errors
  (ndarray : Type) (np_array_int32 : list (list Z) -> outcome ndarray)
  (vocabulary : vocabulary_arg) (model_type : str)
  (batch_size sequence_length eos_id : Z) (unscored_prefix : option (list str))
  (inputs : list str) :
  encode_inputs np_array_int32 [] vocabulary model_type batch_size
    sequence_length eos_id unscored_prefix = Throw ListIndexError
  /\ (inputs <> [] ->
      match unscored_prefix with
      | Some (p :: ps) => (List.length (p :: ps) < List.length inputs)%nat
      | _ => False
      end ->
      encode_inputs np_array_int32 inputs vocabulary model_type batch_size
        sequence_length eos_id unscored_prefix = Throw ListIndexError)
  /\ (inputs <> [] -> 0 <= sequence_length ->
      match unscored_prefix with
      | Some (p :: ps) => (List.length inputs <= List.length (p :: ps))%nat
      | _ => True
      end ->
      encode_inputs np_array_int32 inputs vocabulary model_type 0
        sequence_length eos_id unscored_prefix = Throw ZeroDivisionError).
Proof.
  split; [reflexivity|]. split.
  - intros _ Hp. destruct unscored_prefix as [[|p ps]|]; try contradiction.
    unfold encode_inputs, encode_inputs_rows.
    assert (H : forall line_num,
               (List.length (p :: ps) < line_num + List.length inputs)%nat ->
               (line_num <= List.length (p :: ps))%nat ->
               encode_lines vocabulary model_type sequence_length eos_id
                 (Some (p :: ps)) line_num inputs = Throw ListIndexError).
    { clear Hp. induction inputs as [|line rest IH]; intros line_num Hlt Hle.
      - cbn [List.length] in *. lia.
      - cbn [encode_lines]. unfold encode_line, list_item.
        destruct (nth_error (p :: ps) line_num) as [prefix|] eqn:E.
        + assert (line_num < List.length (p :: ps))%nat
            by (apply nth_error_Some; now rewrite E).
          cbn [obind]. rewrite IH; [reflexivity | |];
            cbn [List.length] in *; lia.
        + reflexivity. }
    rewrite H; [reflexivity | lia | lia].
  - intros Hne Hsl Hp.
    destruct (@encode_lines_rows vocabulary model_type sequence_length eos_id
                unscored_prefix inputs 0 Hsl Hp) as (encoded & E & Hlen & _).
    unfold encode_inputs, encode_inputs_rows. rewrite E. cbn [obind].
    destruct encoded as [|first rest]; [|reflexivity].
    destruct inputs; [contradiction | discriminate].
Qed.

Lemma encode_inputs_errors_witness :
  encode_inputs (@Return (list (list Z))) [lit "a"; lit "b"]
    (OneVocabulary {| encode := map (fun c => Z.of_nat (nat_of_ascii c));
                      decode_ids := fun _ => [] |})
    (lit "lm") 2 3 1 (Some [lit "p"]) = Throw ListIndexError
  /\ encode_inputs (@Return (list (list Z))) [lit "a"; lit "b"]
       (OneVocabulary {| encode := map (fun c => Z.of_nat (nat_of_ascii c));
                         decode_ids := fun _ => [] |})
       (lit "lm") 0 3 1 (Some [lit "p"; lit "q"]) = Throw ZeroDivisionError.
Proof.
  split.
  - refine (proj1 (proj2 (@encode_inputs_errors (list (list Z)) (@Return _)
              (OneVocabulary {| encode := map (fun c => Z.of_nat (nat_of_ascii c));
                                decode_ids := fun _ => [] |})
              (lit "lm") 2 3 1 (Some [lit "p"]) [lit "a"; lit "b"])) _ _).
    + discriminate.
    + simpl. lia.
  - refine (proj2 (proj2 (@encode_inputs_errors (list (list Z)) (@Return _)
              (OneVocabulary {| encode := map (fun c => Z.of_nat (nat_of_ascii c));
                                decode_ids := fun _ => [] |})
              (lit "lm") 0 3 1 (Some [lit "p"; lit "q"]) [lit "a"; lit "b"]))
              _ _ _).
    + discriminate.
    + lia.
    + simpl. lia.
Defined.

(** X17. [encode_delimited_lm] makes one row for every pair of
    [zip(inputs, targets)] but computes the padding from the number of
    inputs alone: for a positive batch size, a sequence length that is not
    negative and at least one pair, every row has [sequence_length] ids and
    the number of rows is the number of pairs plus [-len(inputs) % batch_size],
    which is a multiple of the batch size when there are at least as many
    targets as inputs. *)
Theorem encode_delimited_lm_row_count
  (ndarray : Type) (np_array_int32 : list (list Z) -> outcome ndarray)
  (inputs targets : list str) (vocabulary : vocabulary_arg)
  (batch_size sequence_length eos_id : Z) (include_final_eos : bool) :
  inputs <> [] -> targets <> [] -> 0 < batch_size -> 0 <= sequence_length ->
  exists rows,
    encode_delimited_lm np_array_int32 inputs targets vocabulary batch_size
      sequence_length eos_id include_final_eos = np_array_int32 rows
    /\ Forall (fun r => Z.of_nat (List.length r) = sequence_length) rows
    /\ Z.of_nat (List.length rows)
       = Z.of_nat (Nat.min (List.length inputs) (List.length targets))
         + (- Z.of_nat (List.length inputs)) mod batch_size
    /\ ((List.length inputs <= List.length targets)%nat ->
        Z.of_nat (List.length rows) mod batch_size = 0).
Proof.
  intros Hi Ht Hbs Hsl.
  destruct inputs as [|inp inputs]; [contradiction|].
  destruct targets as [|tgt targets]; [contradiction|].
  unfold encode_delimited_lm, encode_delimited_lm_rows.
  cbn [combine map fst snd].
  match goal with
  | |- context [pad_to_batches ?n _ (?f :: ?r)] =>
      destruct (@pad_to_batches_spec n batch_size sequence_length f r Hbs)
        as (rows & -> & Hrows & Hcount & _)
  end.
  { constructor; [now apply length_fit_to_length|].
    apply Forall_forall. intros r Hr. apply in_map_iff in Hr as (it & <- & _).
    now apply length_fit_to_length. }
  cbn [obind]. exists rows. split; [reflexivity|]. split; [exact Hrows|].
  assert (Hpairs : List.length
            (encode_pair vocabulary sequence_length eos_id include_final_eos
               inp tgt
             :: map (fun it => encode_pair vocabulary sequence_length eos_id
                                 include_final_eos (fst it) (snd it))
                  (combine inputs targets))
          = Nat.min (List.length (inp :: inputs)) (List.length (tgt :: targets))).
  { cbn [List.length]. now rewrite length_map, length_combine. }
  rewrite Hpairs in Hcount. split; [exact Hcount|].
  intros Hle. rewrite Hcount, Nat.min_l by exact Hle.
  now apply whole_batches.
Qed.

Lemma encode_delimited_lm_row_count_witness :
  exists rows,
    encode_delimited_lm (@Return (list (list Z)))
      [lit "a"; lit "b"; lit "c"] [lit "x"]
      (OneVocabulary {| encode := map (fun c => Z.of_nat (nat_of_ascii c));
                        decode_ids := fun _ => [] |})
      2 4 1 true = Return rows
    /\ Forall (fun r => Z.of_nat (List.length r) = 4) rows
    /\ Z.of_nat (List.length rows) = Z.of_nat (Nat.min 3 1) + (- 3) mod 2
    /\ ((3 <= 1)%nat -> Z.of_nat (List.length rows) mod 2 = 0).
Proof.
  refine (@encode_delimited_lm_row_count (list (list Z)) (@Return _)
            [lit "a"; lit "b"; lit "c"] [lit "x"]
            (OneVocabulary {| encode := map (fun c => Z.of_nat (nat_of_ascii c));
                              decode_ids := fun _ => [] |})
            2 4 1 true _ _ _ _).
  - discriminate.
  - discriminate.
  - lia.
  - lia.
Defined.

(** ** Decoded ids *)

Lemma wrap_int32_add (c v : Z) :
  wrap_int32 (wrap_int32 c + v) = wrap_int32 (c + v).
Proof.
  unfold wrap_int32. f_equal.
  replace ((c + 2 ^ 31) mod 2 ^ 32 - 2 ^ 31 + v + 2 ^ 31)
    with ((c + 2 ^ 31) mod 2 ^ 32 + v) by lia.
  rewrite Z.add_mod_idemp_l by lia. f_equal. lia.
Qed.

Lemma wrap_int32_nonzero (c : Z) : 0 < c < 2 ^ 32 -> wrap_int32 c <> 0.
Proof.
  unfold wrap_int32. intros Hc H.
  assert (E : (c + 2 ^ 31) mod 2 ^ 32 = 2 ^ 31) by lia.
  destruct (Z.lt_ge_cases c (2 ^ 31)) as [Hlt|Hge].
  - rewrite Z.mod_small in E by lia. lia.
  - replace (c + 2 ^ 31) with (c - 2 ^ 31 + 1 * 2 ^ 32) in E by lia.
    rewrite Z.mod_add, Z.mod_small in E by lia. lia.
Qed.

Lemma wrap_int32_small (c : Z) : - 2 ^ 31 <= c < 2 ^ 31 -> wrap_int32 c = c.
Proof.
  unfold wrap_int32. intros Hc. rewrite Z.mod_small by lia. lia.
Qed.

Lemma masked_cons (acc eos_id pad_id x : Z) (ids : list Z) :
  masked acc eos_id pad_id (x :: ids)
  = (if acc =? 0 then x else pad_id)
    :: masked (wrap_int32 (acc + (if x =? eos_id then 1 else 0)))
         eos_id pad_id ids.
Proof. reflexivity. Qed.

Lemma masked_after_eos (eos_id pad_id : Z) (ids : list Z) (c : Z) :
  0 < c -> c + Z.of_nat (List.length ids) <= 2 ^ 32 ->
  masked (wrap_int32 c) eos_id pad_id ids = repeat pad_id (List.length ids).
Proof.
  revert c. induction ids as [|x ids IH]; intros c Hc Hlen; [reflexivity|].
  rewrite masked_cons. cbn [List.length repeat] in *.
  destruct (Z.eqb_spec (wrap_int32 c) 0) as [E|_].
  { exfalso. apply (@wrap_int32_nonzero c); [lia | exact E]. }
  f_equal. rewrite wrap_int32_add.
  apply IH; destruct (x =? eos_id); lia.
Qed.




(** X19. Cleaning is idempotent: on a tensor of rank one with fewer than
    2^32 ids, cleaning the result of [clean_decodes] again gives the same
    ids, whether or not PAD and EOS are the same id. *)
Theorem clean_decodes_idempotent
  (ids cleaned : list Z) (eos_id pad_id length_axis : Z) :
  Z.of_nat (List.length ids) < 2 ^ 32 ->
  clean_decodes ids eos_id pad_id length_axis = Return cleaned ->
  clean_decodes cleaned eos_id pad_id length_axis = Return cleaned.
Proof.
  intros Hlen. unfold clean_decodes.
  destruct ((length_axis =? -1) || (length_axis =? 0)); [|discriminate].
  intros H. injection H as <-. f_equal.
  change (masked 0 eos_id pad_id (masked 0 eos_id pad_id ids)
          = masked 0 eos_id pad_id ids).
  induction ids as [|x ids IH]; [reflexivity|].
  cbn [List.length] in Hlen. rewrite !masked_cons. cbn [Z.eqb Z.add].
  f_equal.
  destruct (Z.eqb_spec x eos_id) as [->|Hx].
  - rewrite (@masked_after_eos eos_id pad_id ids 1) by lia.
    rewrite masked_after_eos by (rewrite ?repeat_length; lia).
    now rewrite repeat_length.
  - rewrite wrap_int32_small by lia. apply IH. lia.
Qed.

Lemma clean_decodes_idempotent_witness :
  clean_decodes [5; 7; 1; 0; 0; 0] 1 0 (-1) = Return [5; 7; 1; 0; 0; 0].
Proof.
  refine (@clean_decodes_idempotent [5; 7; 1; 9; 1; 4] [5; 7; 1; 0; 0; 0]
            1 0 (-1) _ eq_refl).
  vm_compute. reflexivity.
Defined.

Lemma first_true_spec (tokens : list Z) (pad_id : Z) :
  match first_true (tf_equal tokens pad_id) with
  | Some n => (n < List.length tokens)%nat
              /\ ~ In pad_id (firstn n tokens)
              /\ nth_error tokens n = Some pad_id
  | None => ~ In pad_id tokens
  end.
Proof.
  induction tokens as [|x tokens IH]; [now intros []|].
  cbn [tf_equal map first_true]. fold (tf_equal tokens pad_id).
  destruct (Z.eqb_spec x pad_id) as [->|Hx].
  - repeat split; [cbn; lia | now intros []].
  - destruct (first_true (tf_equal tokens pad_id)) as [n|]; cbn [option_map].
    + destruct IH as (Hn & Hno & Hnth). repeat split.
      * cbn [List.length]. lia.
      * cbn [firstn]. intros [E|Hin]; [now apply Hx | now apply Hno].
      * exact Hnth.
    + intros [E|Hin]; [now apply Hx | now apply IH].
Qed.

(** X20. [get_sequence_length] always returns, and what it returns is
    the length of the longest beginning of the tokens that holds no PAD: no
    PAD stands before that position, and the token at that position, when
    there is one, is PAD. *)
Theorem get_sequence_length_first_pad (tokens : list Z) (pad_id : Z) :
  exists n,
    get_sequence_length tokens pad_id = Return (Z.of_nat n)
    /\ (n <= List.length tokens)%nat
    /\ ~ In pad_id (firstn n tokens)
    /\ ((n < List.length tokens)%nat -> nth_error tokens n = Some pad_id).
Proof.
  unfold get_sequence_length, mem_Z.
  pose proof (first_true_spec tokens pad_id) as Hft.
  destruct (existsb (Z.eqb pad_id) tokens) eqn:Emem; cbn [negb].
  - apply existsb_exists in Emem as (x & Hin & Ex).
    apply Z.eqb_eq in Ex. subst x.
    destruct tokens as [|t tokens]; [destruct Hin|].
    unfold np_argmax. cbn [tf_equal map]. fold (tf_equal tokens pad_id).
    change ((t =? pad_id) :: tf_equal tokens pad_id)
      with (tf_equal (t :: tokens) pad_id).
    destruct (first_true (tf_equal (t :: tokens) pad_id)) as [n|].
    + destruct Hft as (Hn & Hno & Hnth). exists n.
      repeat split; [lia | exact Hno | now intros _].
    + now destruct Hft.
  - exists (List.length tokens). rewrite firstn_all.
    repeat split; [lia | | lia].
    intros Hin.
    assert (existsb (Z.eqb pad_id) tokens = true); [|congruence].
    apply existsb_exists. exists pad_id. split; [exact Hin | apply Z.eqb_refl].
Qed.

(** ** The decoding generator *)

Lemma land_double (a c : Z) (b1 b2 : bool) :
  Z.land (2 * a + Z.b2z b1) (2 * c + Z.b2z b2)
  = 2 * Z.land a c + Z.b2z (b1 && b2).
Proof.
  apply Z.bits_inj'. intros n Hn. rewrite Z.land_spec.
  destruct (Z.eq_dec n 0) as [->|Hn0].
  - now rewrite !Z.testbit_0_r.
  - replace n with (Z.succ (n - 1)) by lia.
    rewrite !Z.testbit_succ_r by lia. now rewrite Z.land_spec.
Qed.

Lemma land_pred_positive (p : positive) :
  Z.land (Zpos p) (Zpos p - 1) = 0 <-> exists k, 0 <= k /\ Zpos p = 2 ^ k.
Proof.
  induction p as [q IH|q IH|].
  - assert (H1 : Zpos q~1 = 2 * Zpos q + Z.b2z true) by (unfold Z.b2z; lia).
    assert (H2 : Zpos q~1 - 1 = 2 * Zpos q + Z.b2z false)
      by (unfold Z.b2z; lia).
    rewrite H2. rewrite H1 at 1.
    rewrite land_double, Z.land_diag. unfold Z.b2z, andb. split; [lia|].
    intros (k & Hk & E). exfalso.
    destruct (Z.eq_dec k 0) as [->|Hk0]; [change (2 ^ 0) with 1 in E; lia|].
    replace k with (Z.succ (k - 1)) in E by lia.
    rewrite Z.pow_succ_r in E by lia. lia.
  - assert (H1 : Zpos q~0 = 2 * Zpos q + Z.b2z false) by (unfold Z.b2z; lia).
    assert (H2 : Zpos q~0 - 1 = 2 * (Zpos q - 1) + Z.b2z true)
      by (unfold Z.b2z; lia).
    rewrite H2. rewrite H1 at 1.
    rewrite land_double. unfold Z.b2z, andb. split.
    + intros H. destruct (proj1 IH ltac:(lia)) as (k & Hk & E).
      exists (Z.succ k). split; [lia|]. rewrite Z.pow_succ_r by lia. lia.
    + intros (k & Hk & E).
      destruct (Z.eq_dec k 0) as [->|Hk0]; [change (2 ^ 0) with 1 in E; lia|].
      replace k with (Z.succ (k - 1)) in E by lia.
      rewrite Z.pow_succ_r in E by lia.
      assert (Z.land (Zpos q) (Zpos q - 1) = 0); [|lia].
      apply IH. exists (k - 1). split; lia.
  - split; [|reflexivity]. intros _. exists 0. now split.
Qed.

Lemma land_pred_zero (i : Z) :
  0 <= i ->
  (Z.land i (i - 1) = 0 <-> i = 0 \/ exists k, 0 <= k /\ i = 2 ^ k).
Proof.
  intros Hi. destruct i as [|p|p]; [|rewrite land_pred_positive|lia].
  - split; [now left | reflexivity].
  - split; [now right | intros [H|H]; [discriminate | exact H]].
Qed.

Lemma decode_from_logged (vocabulary : vocabulary_arg)
  (result_iter : list prediction) (start i : Z) (input_string : str) :
  In (LoggedDecoded i input_string) (decode_from start result_iter vocabulary)
  <-> exists result,
        start <= i
        /\ nth_error result_iter (Z.to_nat (i - start)) = Some result
        /\ input_string
           = _maybe_detokenize (pred_inputs result)
               (inputs_vocabulary vocabulary)
        /\ Z.land i (i - 1) = 0.
Proof.
  revert start. induction result_iter as [|r rest IH]; intros start.
  - split; [now intros [] |].
    intros (result & _ & H & _). now destruct (Z.to_nat (i - start)).
  - cbn [decode_from]. split.
    + intros [H|H]; [discriminate|].
      apply in_app_or in H as [H|H].
      * destruct (Z.eqb_spec (Z.land start (start - 1)) 0) as [E|E];
          [|now destruct H].
        destruct H as [H|[H|[]]]; [|discriminate].
        injection H as <- <-. exists r.
        rewrite Z.sub_diag. repeat split; [lia | exact E].
      * apply IH in H as (result & Hle & Hnth & Hs & Hl).
        exists result. repeat split; try assumption; [lia|].
        replace (Z.to_nat (i - start)) with (S (Z.to_nat (i - (start + 1))))
          by lia.
        exact Hnth.
    + intros (result & Hle & Hnth & Hs & Hl). right. apply in_or_app.
      destruct (Z.eq_dec i start) as [->|Hne].
      * left. rewrite Z.sub_diag in Hnth. cbn in Hnth.
        injection Hnth as ->. rewrite Hl, Hs. cbn. now left.
      * right. apply IH. exists result.
        repeat split; try assumption; [lia|].
        replace (Z.to_nat (i - start)) with (S (Z.to_nat (i - (start + 1))))
          in Hnth by lia.
        exact Hnth.
Qed.

Lemma decode_from_yielded (vocabulary : vocabulary_arg)
  (result_iter : list prediction) (start : Z) :
  flat_map (fun e => match e with Yielded s => [s] | _ => [] end)
    (decode_from start result_iter vocabulary)
  = map (fun r => _maybe_detokenize (pred_outputs r)
                    (targets_vocabulary vocabulary)) result_iter.
Proof.
  revert start. induction result_iter as [|r rest IH]; intros start;
    [reflexivity|].
  cbn [decode_from flat_map map app]. f_equal.
  rewrite flat_map_app, IH.
  now destruct (Z.land start (start - 1) =? 0).
Qed.

(** X21. The generator [decode], drained, yields the detokenized outputs
    of the predictions in order, one each, and logs the prediction with
    counter [i] exactly when [i] is 0 or a power of two: the test
    [i & (i - 1) == 0] also holds at 0. *)
Theorem decode_logs_zero_and_powers_of_two
  (result_iter : list prediction) (vocabulary : vocabulary_arg) :
  flat_map (fun e => match e with Yielded s => [s] | _ => [] end)
    (decode result_iter vocabulary)
  = map (fun r => _maybe_detokenize (pred_outputs r)
                    (targets_vocabulary vocabulary)) result_iter
  /\ forall i input_string,
       In (LoggedDecoded i input_string) (decode result_iter vocabulary)
       <-> exists result,
             0 <= i
             /\ nth_error result_iter (Z.to_nat i) = Some result
             /\ input_string
                = _maybe_detokenize (pred_inputs result)
                    (inputs_vocabulary vocabulary)
             /\ (i = 0 \/ exists k, 0 <= k /\ i = 2 ^ k).
Proof.
  split; [apply decode_from_yielded|].
  intros i input_string. unfold decode. rewrite decode_from_logged.
  rewrite Z.sub_0_r.
  split; intros (result & Hi & Hnth & Hs & Hl); exists result;
    (repeat split; try assumption); now apply land_pred_zero.
Qed.

(** ** Files of text lines *)





Lemma replace_go_no_newline (new s : str) :
  ~ In newline new -> ~ In newline (replace_go [newline] new O s).
Proof.
  intros Hnew. induction s as [|c s IH]; [now intros []|].
  cbn [replace_go startswith List.length Nat.pred].
  destruct (Ascii.eqb_spec newline c) as [<-|Hc]; cbn [andb].
  - intros H. apply in_app_or in H as [H|H]; [now apply Hnew | now apply IH].
  - intros [E|H]; [now apply Hc | now apply IH].
Qed.

Lemma split_go_line (cur a rest : str) :
  ~ In newline a ->
  split_go [newline] O cur (a ++ newline :: rest)
  = (List.rev cur ++ a) :: split_go [newline] O [] rest.
Proof.
  revert cur. induction a as [|c a IH]; intros cur Ha.
  - cbn [app split_go startswith List.length Nat.pred].
    rewrite Ascii.eqb_refl. cbn [andb]. now rewrite app_nil_r.
  - cbn [app split_go startswith].
    destruct (Ascii.eqb_spec newline c) as [E|_].
    + exfalso. apply Ha. now left.
    + cbn [andb]. rewrite IH by (intros H; apply Ha; now right).
      cbn [List.rev]. now rewrite <- app_assoc.
Qed.

Lemma drop_while_app_stop (A : Type) (f : A -> bool) (a : list A) (b : A)
  (r : list A) :
  forallb f a = true -> f b = false -> drop_while f (a ++ b :: r) = b :: r.
Proof.
  intros Ha Hb. induction a as [|x a IH]; cbn [app drop_while].
  - now rewrite Hb.
  - cbn [forallb] in Ha. apply andb_true_iff in Ha as [-> Ha]. now apply IH.
Qed.

Lemma dirname_path_join (dir name : str) :
  ~ In "/"%char name -> last dir "/"%char <> "/"%char ->
  dirname (path_join dir name) = dir.
Proof.
  intros Hname Hlast.
  destruct (@exists_last _ dir) as (d0 & c & ->).
  { intros ->. now apply Hlast. }
  rewrite last_last in Hlast.
  assert (Hc : Ascii.eqb "/"%char c = false).
  { apply Ascii.eqb_neq. intros E. now apply Hlast. }
  unfold path_join.
  replace (startswith (lit "/") name) with false.
  2:{ destruct name as [|x name]; [reflexivity|].
      cbn [lit list_ascii_of_string startswith].
      destruct (Ascii.eqb_spec "/"%char x) as [<-|]; [|reflexivity].
      exfalso. apply Hname. now left. }
  rewrite last_last.
  replace (Ascii.eqb c "/"%char) with false by (now rewrite Ascii.eqb_sym).
  destruct (d0 ++ [c]) as [|y l] eqn:E; [now destruct d0|]. rewrite <- E.
  clear E y l. unfold dirname.
  change (lit "/" ++ name) with ("/"%char :: name).
  rewrite rev_app_distr. cbn [List.rev]. rewrite <- app_assoc. cbn [app].
  rewrite drop_while_app_stop; [| |reflexivity].
  2:{ apply forallb_forall. intros x Hx. apply in_rev in Hx.
      apply negb_true_iff, Ascii.eqb_neq. intros ->. now apply Hname. }
  change ("/"%char :: List.rev (d0 ++ [c]))
    with (List.rev [ "/"%char ] ++ List.rev (d0 ++ [c])).
  rewrite <- rev_app_distr, rev_involutive.
  replace (forallb (Ascii.eqb "/"%char) ((d0 ++ [c]) ++ ["/"%char])) with false.
  2:{ symmetry. rewrite !forallb_app. cbn [forallb]. rewrite Hc.
      now rewrite !andb_false_r. }
  rewrite rev_app_distr. cbn [List.rev app drop_while].
  rewrite Ascii.eqb_refl. rewrite rev_app_distr. cbn [List.rev app drop_while].
  rewrite Hc. change (c :: List.rev d0) with (List.rev [c] ++ List.rev d0).
  now rewrite <- rev_app_distr, rev_involutive.
Qed.

(** X23. [write_lines_to_file] writes one line of the file for every
    item, also for an item that holds line feeds: splitting the written
    data at the line feeds gives the items, each with its line feeds turned
    into blanks, and an empty piece at the end.  The file is removed first
    exactly when it exists, and the directory that is made is the one
    [os.path.join] was given when the joined name holds no slash. *)
Theorem write_lines_to_file_one_line_each
  (gfile_exists : str -> bool) (lines : list str) (filename : str) :
  split [newline] (written (write_lines_to_file gfile_exists lines filename))
  = map (replace [newline] (lit " ")) lines ++ [[]]
  /\ Forall (fun l => ~ In newline l)
       (map (replace [newline] (lit " ")) lines)
  /\ (In (GfileRemove filename)
        (write_lines_to_file gfile_exists lines filename)
      <-> gfile_exists filename = true)
  /\ forall dir name,
       filename = path_join dir name ->
       ~ In "/"%char name -> last dir "/"%char <> "/"%char ->
       In (GfileMakedirs dir) (write_lines_to_file gfile_exists lines filename).
Proof.
  assert (Hnl : forall l, ~ In newline (replace [newline] (lit " ") l)).
  { intros l. apply replace_go_no_newline.
    intros [E|[]]. vm_compute in E. discriminate E. }
  split; [|split; [|split]].
  - unfold write_lines_to_file, written, split.
    rewrite !flat_map_app.
    replace (flat_map _ (if gfile_exists filename
                         then [GfileRemove filename] else [])) with (@nil ascii)
      by now destruct (gfile_exists filename).
    cbn [flat_map app]. rewrite app_nil_r.
    induction lines as [|l lines IH]; [reflexivity|].
    cbn [map flat_map]. rewrite <- app_assoc. cbn [app].
    rewrite split_go_line by apply Hnl. cbn [List.rev app]. now rewrite IH.
  - apply Forall_forall. intros l Hl.
    apply in_map_iff in Hl as (raw & <- & _). apply Hnl.
  - unfold write_lines_to_file. split.
    + intros H. destruct (gfile_exists filename); [reflexivity|].
      cbn [app] in H. destruct H as [H|[H|H]]; try discriminate.
      apply in_app_or in H as [H|[H|[]]]; [|discriminate].
      apply in_map_iff in H as (l & H & _). discriminate.
    + intros ->. now left.
  - intros dir name -> Hname Hlast.
    unfold write_lines_to_file. apply in_or_app. right. left. f_equal.
    now apply dirname_path_join.
Qed.

Lemma write_lines_to_file_one_line_each_witness :
  In (GfileMakedirs (lit "out/dir"))
    (write_lines_to_file (fun _ => true) [lit "a"; [newline]]
       (lit "out/dir/x_inputs")).
Proof.
  refine (proj2 (proj2 (proj2
            (@write_lines_to_file_one_line_each (fun _ => true)
               [lit "a"; [newline]] (lit "out/dir/x_inputs"))))
            (lit "out/dir") (lit "x_inputs") eq_refl _ _).
  - vm_compute. intuition discriminate.
  - vm_compute. discriminate.
Defined.

(** ** The mesh shape of a TPU topology *)

Lemma digit_char (c : ascii) :
  is_digit c = true ->
  is_int_space c = false
  /\ Ascii.eqb c "-"%char = false /\ Ascii.eqb c "+"%char = false
  /\ Ascii.eqb c "_"%char = false /\ Ascii.eqb "v"%char c = false
  /\ Ascii.eqb "x"%char c = false /\ Ascii.eqb "_"%char c = false.
Proof.
  destruct c as [[] [] [] [] [] [] [] []]; intros H;
    solve [discriminate H | repeat split; reflexivity].
Qed.

Lemma drop_while_digit (ds : str) :
  match ds with c :: _ => is_digit c = true | [] => True end ->
  drop_while is_int_space ds = ds.
Proof.
  destruct ds as [|c ds]; [reflexivity|]. intros H. cbn [drop_while].
  now rewrite (proj1 (digit_char c H)).
Qed.

Lemma grouped_digits_plain (ds : str) (after_digit : bool) :
  forallb is_digit ds = true -> after_digit = true \/ ds <> [] ->
  grouped_digits after_digit ds = Some ds.
Proof.
  revert after_digit. induction ds as [|c ds IH]; intros after_digit Hd Hne.
  - destruct Hne as [->|Hne]; [reflexivity | contradiction].
  - cbn [forallb] in Hd. apply andb_true_iff in Hd as [Hc Hd].
    cbn [grouped_digits]. rewrite Hc, IH by (assumption || now left).
    reflexivity.
Qed.

Lemma int_of_str_digits (max_str_digits : nat) (ds : str) :
  ds <> [] -> forallb is_digit ds = true ->
  (max_str_digits = 0 \/ List.length ds <= max_str_digits)%nat ->
  int_of_str max_str_digits ds = Return (int_of_digits ds).
Proof.
  intros Hne Hd Hlimit. unfold int_of_str.
  assert (Hfirst : forall l : str, l <> [] -> forallb is_digit l = true ->
            match l with c :: _ => is_digit c = true | [] => True end).
  { intros [|c l] _ H; [exact I|]. cbn [forallb] in H.
    now apply andb_true_iff in H. }
  rewrite (drop_while_digit ds) by now apply Hfirst.
  rewrite (drop_while_digit (List.rev ds)).
  2:{ apply Hfirst.
      - intros E. apply Hne. now rewrite <- (rev_involutive ds), E.
      - apply forallb_forall. intros x Hx. apply in_rev in Hx.
        rewrite forallb_forall in Hd. now apply Hd. }
  rewrite rev_involutive.
  destruct ds as [|c ds]; [contradiction|].
  pose proof (digit_char c (Hfirst _ Hne Hd)) as (_ & -> & -> & _).
  rewrite grouped_digits_plain by (assumption || now right).
  replace ((0 <? max_str_digits)%nat
           && (max_str_digits <? List.length (c :: ds))%nat) with false;
    [reflexivity|].
  symmetry. apply andb_false_iff.
  destruct Hlimit as [->|Hle]; [now left | right].
  now apply Nat.ltb_ge.
Qed.

Lemma split_go_piece (sep : ascii) (cur a rest : str) :
  ~ In sep a ->
  split_go [sep] O cur (a ++ sep :: rest)
  = (List.rev cur ++ a) :: split_go [sep] O [] rest.
Proof.
  revert cur. induction a as [|c a IH]; intros cur Ha.
  - cbn [app split_go startswith List.length Nat.pred].
    rewrite Ascii.eqb_refl. cbn [andb]. now rewrite app_nil_r.
  - cbn [app split_go startswith].
    destruct (Ascii.eqb_spec sep c) as [E|_].
    + exfalso. apply Ha. now left.
    + cbn [andb]. rewrite IH by (intros H; apply Ha; now right).
      cbn [List.rev]. now rewrite <- app_assoc.
Qed.

Lemma split_go_whole (sep : ascii) (cur a : str) :
  ~ In sep a -> split_go [sep] O cur a = [List.rev cur ++ a].
Proof.
  revert cur. induction a as [|c a IH]; intros cur Ha.
  - cbn [split_go]. now rewrite app_nil_r.
  - cbn [split_go startswith].
    destruct (Ascii.eqb_spec sep c) as [E|_].
    + exfalso. apply Ha. now left.
    + cbn [andb]. rewrite IH by (intros H; apply Ha; now right).
      cbn [List.rev]. now rewrite <- app_assoc.
Qed.

Lemma split_go_last (sep : ascii) (cur a rest : str) :
  last (split_go [sep] O cur (a ++ sep :: rest)) []
  = last (split_go [sep] O [] rest) [].
Proof.
  assert (Hcons : forall cur s, exists p ps, split_go [sep] O cur s = p :: ps).
  { intros cur' s. revert cur'. induction s as [|c s IH]; intros cur'.
    - now exists (List.rev cur'), [].
    - cbn [split_go startswith List.length Nat.pred].
      destruct (Ascii.eqb sep c); cbn [andb]; [now eexists; eexists | apply IH]. }
  revert cur. induction a as [|c a IH]; intros cur.
  - cbn [app split_go startswith List.length Nat.pred].
    rewrite Ascii.eqb_refl. cbn [andb].
    destruct (Hcons [] rest) as (p & ps & ->). reflexivity.
  - cbn [app split_go startswith List.length Nat.pred].
    destruct (Ascii.eqb sep c); cbn [andb]; [|apply IH].
    destruct (Hcons [] (a ++ sep :: rest)) as (p & ps & E).
    rewrite <- (IH []), E. reflexivity.
Qed.

Lemma split_join (sep : ascii) (pieces : list str) :
  pieces <> [] -> Forall (fun p => ~ In sep p) pieces ->
  split [sep] (str_join [sep] pieces) = pieces.
Proof.
  unfold split. intros Hne Hall. induction Hall as [|p pieces Hp Hall IH];
    [contradiction|].
  destruct pieces as [|q pieces].
  - cbn [str_join]. now rewrite split_go_whole.
  - change (str_join [sep] (p :: q :: pieces))
      with (p ++ sep :: str_join [sep] (q :: pieces)).
    rewrite split_go_piece by exact Hp. cbn [List.rev app].
    now rewrite IH.
Qed.

Lemma before_first_match_suffix (t suffix : str) :
  ~ In "_"%char t ->
  suffix = []
  \/ startswith (lit "_twisted") suffix = true
  \/ startswith (lit "_untwisted") suffix = true ->
  before_first_match [lit "_twisted"; lit "_untwisted"] (t ++ suffix) = t.
Proof.
  intros Ht Hs. induction t as [|c t IH].
  - cbn [app]. destruct suffix as [|c s]; [reflexivity|].
    cbn [before_first_match existsb].
    destruct Hs as [Hs|[-> | ->]]; [discriminate | reflexivity |].
    now rewrite orb_true_r.
  - cbn [app before_first_match existsb lit list_ascii_of_string startswith].
    destruct (Ascii.eqb_spec "_"%char c) as [E|_].
    + exfalso. apply Ht. now left.
    + cbn [andb orb]. f_equal. apply IH. intros H. apply Ht. now right.
Qed.

Lemma digits_without (c : ascii) (ds : str) :
  is_digit c = false -> forallb is_digit ds = true -> ~ In c ds.
Proof.
  intros Hc Hd Hin. rewrite forallb_forall in Hd. apply Hd in Hin. congruence.
Qed.

Lemma map_outcome_digits (max_str_digits : nat) (pieces : list str) :
  Forall (fun ds => ds <> [] /\ forallb is_digit ds = true
                    /\ (max_str_digits = 0
                        \/ List.length ds <= max_str_digits)%nat) pieces ->
  map_outcome (int_of_str max_str_digits) pieces
  = Return (map int_of_digits pieces).
Proof.
  induction 1 as [|ds pieces (Hne & Hd & Hl) _ IH]; [reflexivity|].
  cbn [map_outcome map]. rewrite int_of_str_digits by assumption.
  cbn [obind]. now rewrite IH.
Qed.

Lemma fold_left_mul (l : list Z) (x : Z) :
  fold_left Z.mul l x = x * fold_right Z.mul 1 l.
Proof.
  revert x. induction l as [|y l IH]; intros x; cbn [fold_left fold_right];
    [lia|]. rewrite IH. lia.
Qed.

Lemma in_str_join (sep c : ascii) (pieces : list str) :
  In c (str_join [sep] pieces) -> c = sep \/ exists p, In p pieces /\ In c p.
Proof.
  induction pieces as [|p pieces IH]; [now intros []|].
  destruct pieces as [|q pieces].
  - cbn [str_join]. intros H. right. exists p. split; [now left | exact H].
  - change (str_join [sep] (p :: q :: pieces))
      with (p ++ sep :: str_join [sep] (q :: pieces)).
    intros H. apply in_app_or in H as [H|[H|H]].
    + right. exists p. split; [now left | exact H].
    + now left.
    + destruct (IH H) as [E|(p' & Hp' & Hc)]; [now left|].
      right. exists p'. split; [now right | exact Hc].
Qed.

(** X24. For a topology that names [n] cores and a number of cores per
    replica that is not zero, [tpu_mesh_shape] returns the dimensions of
    size above 1 among "ensemble", "batch" and "model", in this order, with
    the batch size [n // model // ensemble]; a model parallelism of zero
    raises ZeroDivisionError.  When the parallelisms are positive and their
    product divides the positive number of cores, the sizes of the shape
    multiply to the number of cores. *)
Theorem tpu_mesh_shape_covers_the_cores
  (max_str_digits : nat) (logical_cores_per_chip : Z) (spec_t : Type)
  (spec_to_mesh_shape : spec_t -> Z -> outcome (list Dimension))
  (tpu_topology : str) (n model_parallelism : Z)
  (ensemble_parallelism : option Z) :
  num_cores max_str_digits logical_cores_per_chip tpu_topology = Return n ->
  let ensemble :=
    match ensemble_parallelism with
    | Some e => if e =? 0 then 1 else e
    | None => 1
    end in
  let shape :=
    tpu_mesh_shape max_str_digits logical_cores_per_chip spec_to_mesh_shape
      tpu_topology (CoresPerReplica model_parallelism) ensemble_parallelism in
  (model_parallelism = 0 -> shape = Throw ZeroDivisionError)
  /\ (model_parallelism <> 0 ->
      exists dims,
        shape = Return dims
        /\ dims
           = filter (fun d => 1 <? dim_size d)
               [{| dim_name := lit "ensemble"; dim_size := ensemble |};
                {| dim_name := lit "batch";
                   dim_size := n / model_parallelism / ensemble |};
                {| dim_name := lit "model"; dim_size := model_parallelism |}]
        /\ (0 < model_parallelism -> 0 < ensemble -> 0 < n ->
            n mod (model_parallelism * ensemble) = 0 ->
            shape_size dims = n)).
Proof.
  intros Hn ensemble shape. subst shape. unfold tpu_mesh_shape.
  rewrite Hn. cbn [obind]. unfold py_floordiv. split.
  - intros ->. reflexivity.
  - intros Hmp. rewrite (proj2 (Z.eqb_neq model_parallelism 0) Hmp).
    cbn [obind].
    exists (filter (fun d => 1 <? dim_size d)
              [{| dim_name := lit "ensemble"; dim_size := ensemble |};
               {| dim_name := lit "batch";
                  dim_size := n / model_parallelism / ensemble |};
               {| dim_name := lit "model"; dim_size := model_parallelism |}]).
    split; [|split; [reflexivity|]].
    + subst ensemble. cbn [filter dim_size].
      destruct ensemble_parallelism as [[|e|e]|]; cbn [Z.eqb obind];
        rewrite ?Z.div_1_r; unfold py_floordiv; cbn [Z.eqb obind];
        rewrite ?Z.gtb_ltb; change (1 <? 1) with false; cbn [app];
        repeat match goal with
               | |- context [1 <? ?b] => destruct (1 <? b)
               end; reflexivity.
    + clearbody ensemble. intros H1 H2 H3 Hdiv.
      rewrite Z.div_div by lia.
      apply Z.div_exact in Hdiv; [|lia].
      set (d := n / (model_parallelism * ensemble)) in *.
      assert (0 < d) by nia. clearbody d.
      unfold shape_size. cbn [filter dim_size].
      destruct (Z.ltb_spec 1 ensemble), (Z.ltb_spec 1 d),
        (Z.ltb_spec 1 model_parallelism); cbn [map fold_right dim_size];
        repeat match goal with
               | Hle : ?x <= 1 |- _ =>
                   assert (x = 1) by lia; clear Hle; subst x
               end; lia.
Qed.

Lemma tpu_mesh_shape_covers_the_cores_witness :
  exists dims,
    tpu_mesh_shape 4300 2 (fun (_ : unit) _ => Return []) (lit "4x4")
      (CoresPerReplica 8) None = Return dims
    /\ dims
       = filter (fun d => 1 <? dim_size d)
           [{| dim_name := lit "ensemble"; dim_size := 1 |};
            {| dim_name := lit "batch"; dim_size := 32 / 8 / 1 |};
            {| dim_name := lit "model"; dim_size := 8 |}]
    /\ (0 < 8 -> 0 < 1 -> 0 < 32 -> 32 mod (8 * 1) = 0 -> shape_size dims = 32).
Proof.
  refine (proj2 (@tpu_mesh_shape_covers_the_cores 4300 2 unit
                   (fun _ _ => Return []) (lit "4x4") 32 8 None _) _).
  - vm_compute. reflexivity.
  - discriminate.
Defined.

(** X25. How [tpu_mesh_shape] reads a topology.  Sizes written as
    digits and joined by "x" give the product of the sizes times the
    logical cores per chip, and a suffix that begins with "_twisted" or
    "_untwisted" changes nothing.  A topology "v...-<digits>" gives the
    number after the last "-", which is not multiplied by the logical cores
    per chip. *)
Theorem num_cores_of_topology
  (max_str_digits : nat) (logical_cores_per_chip : Z)
  (sizes : list str) (suffix generation : str) :
  sizes <> [] ->
  Forall (fun ds => ds <> [] /\ forallb is_digit ds = true
                    /\ (max_str_digits = 0
                        \/ List.length ds <= max_str_digits)%nat) sizes ->
  suffix = []
  \/ startswith (lit "_twisted") suffix = true
  \/ startswith (lit "_untwisted") suffix = true ->
  num_cores max_str_digits logical_cores_per_chip
    (str_join (lit "x") sizes ++ suffix)
  = Return (fold_right Z.mul 1 (map int_of_digits sizes)
            * logical_cores_per_chip)
  /\ forall ds, In ds sizes ->
       num_cores max_str_digits logical_cores_per_chip
         (lit "v" ++ generation ++ lit "-" ++ ds)
       = Return (int_of_digits ds).
Proof.
  intros Hne Hall Hsuffix.
  assert (Hd : forall ds, In ds sizes -> forallb is_digit ds = true).
  { intros ds Hin. rewrite Forall_forall in Hall. now apply Hall. }
  split.
  - unfold num_cores.
    replace (startswith (lit "v") (str_join (lit "x") sizes ++ suffix))
      with false.
    2:{ destruct sizes as [|[|c ds] sizes]; [contradiction | |].
        - inversion Hall as [|? ? (Hds & _) _]. contradiction.
        - assert (Hc : is_digit c = true).
          { specialize (Hd (c :: ds) (or_introl eq_refl)).
            cbn [forallb] in Hd. now apply andb_true_iff in Hd. }
          destruct sizes; cbn [str_join app lit list_ascii_of_string startswith];
            now rewrite (proj1 (proj2 (proj2 (proj2 (proj2 (digit_char c Hc)))))). }
    rewrite before_first_match_suffix; [| |exact Hsuffix].
    2:{ intros Hin. apply (@in_str_join "x"%char) in Hin
          as [E|(p & Hp & Hin)]; [discriminate E|].
        revert Hin. apply digits_without; [reflexivity | now apply Hd]. }
    change (lit "x") with ["x"%char]. rewrite split_join; [|exact Hne|].
    2:{ apply Forall_forall. intros p Hp.
        apply digits_without; [reflexivity | now apply Hd]. }
    rewrite map_outcome_digits by exact Hall. cbn [obind].
    destruct sizes as [|ds sizes]; [contradiction|].
    cbn [map reduce_mul obind fold_right]. now rewrite fold_left_mul.
  - intros ds Hin. unfold num_cores.
    cbn [lit list_ascii_of_string app startswith Ascii.eqb Bool.eqb andb].
    unfold split.
    change ("v"%char :: generation ++ "-"%char :: ds)
      with (("v"%char :: generation) ++ "-"%char :: ds).
    rewrite split_go_last, split_go_whole.
    2:{ apply digits_without; [reflexivity | now apply Hd]. }
    cbn [last List.rev app].
    rewrite Forall_forall in Hall. destruct (Hall ds Hin) as (H1 & H2 & H3).
    now apply int_of_str_digits.
Qed.

Lemma num_cores_of_topology_witness :
  num_cores 4300 2 (lit "2x2x4_untwisted") = Return 32
  /\ num_cores 4300 2 (lit "v3-4") = Return 4.
Proof.
  pose proof (@num_cores_of_topology 4300 2 [lit "2"; lit "2"; lit "4"]
                (lit "_untwisted") (lit "3")) as H.
  destruct H as [H1 H2].
  - discriminate.
  - repeat (apply Forall_cons;
            [split; [discriminate | split; [reflexivity | right; simpl; lia]]|]).
    apply Forall_nil.
  - right; right. reflexivity.
  - split; [exact H1|]. apply (H2 (lit "4")). simpl. tauto.
Defined.

(** ** Patterns without a prefix *)

Lemma compile_plain (p : str) :
  forallb plain_char p = true -> compile p = Some (lits p).
Proof.
  induction p as [|c p IH]; [reflexivity|].
  cbn [forallb]. intros H. apply andb_true_iff in H as [Hc Hp].
  unfold plain_char in Hc. apply andb_true_iff in Hc as [Hm Hdot].
  apply negb_true_iff in Hm, Hdot.
  cbn [compile lits]. rewrite Hm, Hdot.
  destruct p as [|c' p]; [reflexivity|].
  destruct (Ascii.eqb_spec c' "*"%char) as [->|Hstar].
  - cbn [forallb] in Hp. discriminate Hp.
  - rewrite IH by exact Hp.
    destruct c' as [[] [] [] [] [] [] [] []]; try reflexivity.
    now contradiction Hstar.
Qed.

Lemma re_match_str_plain (p s : str) :
  forallb plain_char p = true -> re_match_str p s = startswith p s.
Proof.
  intros Hp. unfold re_match_str, re_match.
  rewrite compile_plain by exact Hp. rewrite run_lits.
  now destruct (startswith p s).
Qed.

Lemma digits_plain (ds : str) :
  forallb is_digit ds = true -> forallb plain_char ds = true.
Proof.
  intros H. apply forallb_forall. intros c Hc.
  rewrite forallb_forall in H. specialize (H c Hc).
  destruct c as [[] [] [] [] [] [] [] []]; try discriminate H; reflexivity.
Qed.

Lemma slot_regex_plain (num_blocks : option Z) (slot : Z * Z) :
  0 <= fst slot -> 0 <= snd slot ->
  forallb plain_char (slot_regex None num_blocks slot) = true
  /\ exists rest,
       slot_regex None num_blocks slot
       = (match num_blocks with
          | Some _ => lit "block_"
          | None => lit "layer_"
          end) ++ rest.
Proof.
  intros Hb Hl. unfold slot_regex, build_regex.
  pose proof (@digits_plain _ (@format_03d_digits _ Hb)) as Pb.
  pose proof (@digits_plain _ (@format_03d_digits _ Hl)) as Pl.
  destruct num_blocks as [nb|]; split.
  - rewrite !forallb_app, Pb, Pl. reflexivity.
  - now eexists.
  - rewrite !forallb_app, Pl. reflexivity.
  - now eexists.
Qed.

Lemma ckpt_slots_nonneg (num_blocks : option Z) (num_layers : Z) (slot : Z * Z) :
  In slot (ckpt_slots num_blocks num_layers) -> 0 <= fst slot /\ 0 <= snd slot.
Proof.
  unfold ckpt_slots. intros H. apply in_flat_map in H as (b & Hb & H).
  apply in_map_iff in H as (l & <- & Hl).
  apply in_py_range in Hb, Hl. cbn [fst snd]. lia.
Qed.

Lemma local_slots_nonneg (num_blocks : option Z) (num_layers : Z)
  (new_layers : option (list Z)) (slot : Z * Z) :
  In slot (local_slots num_blocks num_layers new_layers) ->
  0 <= fst slot /\ 0 <= snd slot.
Proof.
  unfold local_slots. intros H. apply in_flat_map in H as (b & Hb & H).
  apply in_flat_map in H as (l & Hl & H).
  destruct (is_new_layer new_layers l); [destruct H|].
  destruct H as [<-|[]]. apply in_py_range in Hb, Hl. cbn [fst snd]. lia.
Qed.

Lemma in_dict_set (k v k' v' : str) (d : dict) :
  In (k, v) (dict_set k' v' d) -> (k, v) = (k', v') \/ In (k, v) d.
Proof.
  induction d as [|[k0 v0] d IH]; cbn [dict_set].
  - intros [H|[]]. now left.
  - destruct (eqb_str k0 k') eqn:E.
    + apply eqb_str_true in E. subst k0.
      intros [H|H]; [left; congruence | right; now right].
    + intros [H|H]; [right; now left|].
      destruct (IH H) as [H'|H']; [now left | right; now right].
Qed.

Lemma in_dict_of_pairs (k v : str) (pairs : list (str * str)) (d : dict) :
  In (k, v)
    (fold_left (fun d kv => dict_set (fst kv) (snd kv) d) pairs d) ->
  In (k, v) pairs \/ In (k, v) d.
Proof.
  revert d. induction pairs as [|[k' v'] pairs IH]; intros d; cbn [fold_left].
  - now right.
  - intros H. destruct (IH _ H) as [H'|H']; [left; now right|].
    cbn [fst snd] in H'. apply in_dict_set in H' as [H'|H'];
      [left; left; congruence | now right].
Qed.

Lemma match_items_inv (re : str -> str -> bool) (c t : str) (items : dict) :
  match_items re c t items = true ->
  exists ckpt_regex var_regex,
    In (ckpt_regex, var_regex) items
    /\ re ckpt_regex c = true /\ re var_regex t = true.
Proof.
  induction items as [|[cr vr] items IH]; cbn [match_items]; [discriminate|].
  destruct (re cr c && re vr t) eqn:E.
  - destruct (eqb_str _ t).
    + intros _. apply andb_true_iff in E as [E1 E2].
      exists cr, vr. repeat split; [now left | exact E1 | exact E2].
    + intros H. destruct (IH H) as (cr' & vr' & Hin & H').
      exists cr', vr'. split; [now right | exact H'].
  - intros H. destruct (IH H) as (cr' & vr' & Hin & H').
    exists cr', vr'. split; [now right | exact H'].
Qed.

Lemma startswith_app_l (a b s : str) :
  startswith (a ++ b) s = true -> startswith a s = true.
Proof.
  intros H. apply startswith_iff in H as [r ->]. rewrite <- app_assoc.
  apply startswith_app.
Qed.

Lemma flexible_single_stack_inv (ckpt_names local_names : list str)
  (new_layers : option (list (list Z))) (d : dict) :
  encoder_decoder_model ckpt_names = false ->
  flexible_ckpt_init_mapping ckpt_names local_names new_layers = Ok d ->
  exists cb cl lb ll nl mapping,
    _build_ckpt_to_local_var_name_mapping cb cl lb ll nl None = Ok mapping
    /\ d = build_graph_var_to_ckpt_var re_match_str ckpt_names local_names
                 [mapping].
Proof.
  intros Hmode. unfold flexible_ckpt_init_mapping, _compute_num_blocks_and_layer.
  rewrite Hmode. cbn [map List.length Nat.eqb index nth_error bind].
  destruct (encoder_decoder_model local_names);
    cbn [map List.length Nat.eqb index nth_error bind];
    (destruct (match new_layers with
               | Some l => _
               | None => _
               end) as [nl|e]; cbn [bind]; [|discriminate]);
    match goal with
    | |- context [_build_ckpt_to_local_var_name_mapping ?cb ?cl ?lb ?ll nl None] =>
        destruct (_build_ckpt_to_local_var_name_mapping cb cl lb ll nl None)
          as [mapping|e] eqn:E; cbn [bind]; [|discriminate];
        intros H; injection H as <-;
        exists cb, cl, lb, ll, nl, mapping; now split
    end.
Qed.

(** X26. When no checkpoint name begins with "encoder/", the patterns have
    no prefix and [re.match] ties them to the beginning of a name: a local
    variable whose name holds "layer" is restorable only if its name begins
    with "layer_" or "block_", and the checkpoint name it is mapped to
    begins so too.  A layer variable under a scope, as in
    "decoder/layer_000/kernel", is then never restored. *)
Theorem single_stack_layers_at_the_start
  (ckpt_names local_names : list str) (new_layers : option (list (list Z)))
  (index : dict) (var_name : str) :
  encoder_decoder_model ckpt_names = false ->
  flexible_ckpt_init_mapping ckpt_names local_names new_layers = Ok index ->
  contains (lit "layer") var_name = true ->
  filter_fn index var_name = true ->
  (startswith (lit "layer_") var_name = true
   \/ startswith (lit "block_") var_name = true)
  /\ exists ckpt_name,
       mapping_fn index var_name = Ok ckpt_name
       /\ (startswith (lit "layer_") ckpt_name = true
           \/ startswith (lit "block_") ckpt_name = true).
Proof.
  intros Hmode Hok Hlayer Hfilter.
  destruct (flexible_single_stack_inv _ _ _ Hmode Hok)
    as (cb & cl & lb & ll & nl & mapping & Hbuild & ->).
  unfold filter_fn in Hfilter. unfold mapping_fn.
  destruct (proj1 (dict_get_mem _ _) Hfilter) as (c & Hget).
  rewrite Hget.
  apply graph_var_get in Hget as (_ & _ & _ & _ & Hmatch & _).
  unfold matches_any in Hmatch. cbn [existsb] in Hmatch.
  rewrite orb_false_r in Hmatch.
  unfold _match_ckpt_to_local_var_name in Hmatch. rewrite Hlayer in Hmatch.
  destruct (contains (lit "layer") c) eqn:Hc; cbn [negb orb] in Hmatch.
  2:{ apply eqb_str_true in Hmatch. subst c. congruence. }
  destruct (eqb_str (leaf_name c) (leaf_name var_name)); cbn [negb] in Hmatch;
    [|discriminate].
  apply match_items_inv in Hmatch as (cr & vr & Hin & Hcr & Hvr).
  unfold _build_ckpt_to_local_var_name_mapping in Hbuild.
  destruct (negb _); [discriminate|]. injection Hbuild as <-.
  apply in_dict_of_pairs in Hin as [Hin|[]].
  pose proof (in_combine_l _ _ _ _ Hin) as Hk.
  pose proof (in_combine_r _ _ _ _ Hin) as Hv.
  rewrite all_ckpt_name_regexes_slots in Hk.
  rewrite all_local_name_regexes_slots in Hv.
  apply in_map_iff in Hk as (ks & <- & Hks).
  apply in_map_iff in Hv as (vs & <- & Hvs).
  apply ckpt_slots_nonneg in Hks as [Hk1 Hk2].
  apply local_slots_nonneg in Hvs as [Hv1 Hv2].
  destruct (slot_regex_plain cb ks Hk1 Hk2) as (Hkp & kr & Ek).
  destruct (slot_regex_plain lb vs Hv1 Hv2) as (Hvp & vr & Ev).
  rewrite re_match_str_plain in Hcr, Hvr by assumption.
  rewrite Ek in Hcr. rewrite Ev in Hvr.
  apply startswith_app_l in Hcr, Hvr.
  split.
  - destruct lb; [now right | now left].
  - exists c. split; [reflexivity|]. destruct cb; [now right | now left].
Qed.

Lemma single_stack_layers_at_the_start_witness :
  (startswith (lit "layer_") (lit "layer_000/kernel") = true
   \/ startswith (lit "block_") (lit "layer_000/kernel") = true)
  /\ exists ckpt_name,
       mapping_fn
         (build_graph_var_to_ckpt_var re_match_str
            [lit "layer_000/kernel"; lit "global_step"]
            [lit "layer_000/kernel"; lit "decoder/layer_000/kernel"]
            [[(lit "layer_000", lit "layer_000")]])
         (lit "layer_000/kernel") = Ok ckpt_name
       /\ (startswith (lit "layer_") ckpt_name = true
           \/ startswith (lit "block_") ckpt_name = true).
Proof.
  refine (@single_stack_layers_at_the_start
            [lit "layer_000/kernel"; lit "global_step"]
            [lit "layer_000/kernel"; lit "decoder/layer_000/kernel"]
            None _ (lit "layer_000/kernel") _ _ _ _);
    vm_compute; reflexivity.
Defined.
